(** * knut: date partitions, the period filter, the report tree and the
      journal parser, embedded from the Go sources.

    Dates.  Every [time.Time] the program handles is built by [date.Date]
    (midnight, UTC), so a time is modelled as the number of days since
    0001-01-01, Go's zero time: [Time := Z], [IsZero t] is [t = 0],
    [Before] and [After] are [<] and [>].  The calendar functions of Go's
    [time] package ([Year], [Month], [Day], [Weekday], [Date], [AddDate])
    are written out on day numbers. *)

From Stdlib Require Import ZArith Lia List Bool String Ascii.
From Stdlib Require Import Sorting.Sorted Sorting.Permutation.
Import ListNotations.

Open Scope Z_scope.

(** ** Go's [time] package on day numbers *)

Module GoTime.

Definition Time := Z.

Definition zeroTime : Time := 0.
Definition IsZero (t : Time) : bool := t =? 0.
Definition Before (t u : Time) : bool := t <? u.
Definition After (t u : Time) : bool := u <? t.

Definition isLeap (year : Z) : bool :=
  (year mod 4 =? 0) && (negb (year mod 100 =? 0) || (year mod 400 =? 0)).

(** [daysBefore[m]]: days in a non-leap year before month [m+1]. *)
Definition daysBefore (m : Z) : Z :=
  match m with
  | 0 => 0 | 1 => 31 | 2 => 59 | 3 => 90 | 4 => 120 | 5 => 151 | 6 => 181
  | 7 => 212 | 8 => 243 | 9 => 273 | 10 => 304 | 11 => 334 | _ => 365
  end.

(** Days from 0001-01-01 to January 1 of [year]. *)
Definition daysSinceEpoch (year : Z) : Z :=
  let y := year - 1 in
  365 * y + y / 4 - y / 100 + y / 400.

(** [time.Date(year, month, day, 0, 0, 0, 0, UTC)]: the month is normalised
    into 1..12 with the overflow carried into the year; the day is not
    range checked, it simply offsets. *)
Definition Date (year month day : Z) : Time :=
  let m := month - 1 in
  let year := year + m / 12 in
  let m := m mod 12 in
  daysSinceEpoch year + daysBefore m
  + (if isLeap year && (2 <=? m) then 1 else 0)
  + (day - 1).

Definition daysPer400Years : Z := 146097.
Definition daysPer100Years : Z := 36524.
Definition daysPer4Years : Z := 1461.

(** Year (offset from the start of the 400-year cycle) and day of the year
    for a day [d] within a 400-year cycle. *)
Definition cycleYearDay (d : Z) : Z * Z :=
  let n := d / daysPer100Years in
  let n := n - Z.shiftr n 2 in
  let y := 100 * n in
  let d := d - daysPer100Years * n in
  let n := d / daysPer4Years in
  let y := y + 4 * n in
  let d := d - daysPer4Years * n in
  let n := d / 365 in
  let n := n - Z.shiftr n 2 in
  let y := y + n in
  let d := d - 365 * n in
  (y, d).

(** Month (1..12) and day of the month from the day of the year. *)
Definition monthDay (leap : bool) (yday : Z) : Z * Z :=
  if leap && (yday =? 31 + 29 - 1) then (2, 29)
  else
    let day := if leap && (31 + 29 - 1 <? yday) then yday - 1 else yday in
    let month := day / 31 in
    let eom := daysBefore (month + 1) in
    let '(month, begin) :=
      if eom <=? day then (month + 1, eom) else (month, daysBefore month) in
    (month + 1, day - begin + 1).

Definition civil (t : Time) : Z * Z * Z :=
  let n := t / daysPer400Years in
  let '(y, yday) := cycleYearDay (t mod daysPer400Years) in
  let year := 400 * n + y + 1 in
  let '(m, d) := monthDay (isLeap year) yday in
  (year, m, d).

Definition Year (t : Time) : Z := fst (fst (civil t)).
Definition Month (t : Time) : Z := snd (fst (civil t)).
Definition Day (t : Time) : Z := snd (civil t).

(** Sunday = 0; 0001-01-01 is a Monday. *)
Definition Weekday (t : Time) : Z := (t + 1) mod 7.

Definition AddDate (years months days : Z) (t : Time) : Time :=
  Date (Year t + years) (Month t + months) (Day t + days).

End GoTime.

Import GoTime.

(** ** Outcomes of Go code: a result, a panic, or a loop cut off by its fuel *)

Inductive outcome (A : Type) : Type :=
| Returns (a : A)
| Panics (msg : string)
| OutOfFuel.
Arguments Returns {A} a.
Arguments Panics {A} msg.
Arguments OutOfFuel {A}.

(** ** [sort.Search] of Go's standard library *)

Module GoSort.

(** The closure [f] indexes a slice, which panics out of range. *)
Fixpoint searchLoop (fuel : nat) (f : nat -> outcome bool) (i j : nat)
  : outcome nat :=
  if (i <? j)%nat then
    match fuel with
    | O => OutOfFuel
    | S fuel' =>
        let h := ((i + j) / 2)%nat in
        match f h with
        | Returns false => searchLoop fuel' f (h + 1)%nat j
        | Returns true => searchLoop fuel' f i h
        | Panics msg => Panics msg
        | OutOfFuel => OutOfFuel
        end
    end
  else Returns i.

Definition Search (n : nat) (f : nat -> outcome bool) : outcome nat :=
  searchLoop n f 0%nat n.

End GoSort.

(** ** lib/common/date *)

Module date.

Inductive Interval : Type :=
| Once | Daily | Weekly | Monthly | Quarterly | Yearly.

Definition Interval_eqb (a b : Interval) : bool :=
  match a, b with
  | Once, Once | Daily, Daily | Weekly, Weekly | Monthly, Monthly
  | Quarterly, Quarterly | Yearly, Yearly => true
  | _, _ => false
  end.

Definition StartOf (d : Time) (p : Interval) : Time :=
  match p with
  | Once => d
  | Daily => d
  | Weekly =>
      let x := (Weekday d + 6) mod 7 in
      AddDate 0 0 (- x) d
  | Monthly => Date (Year d) (Month d) 1
  | Quarterly => Date (Year d) ((Month d - 1) / 3 * 3 + 1) 1
  | Yearly => Date (Year d) 1 1
  end.

Definition EndOf (d : Time) (p : Interval) : Time :=
  match p with
  | Once => d
  | Daily => d
  | Weekly =>
      let x := (7 - Weekday d) mod 7 in
      AddDate 0 0 x d
  | Monthly => AddDate 0 1 (-1) (StartOf d Monthly)
  | Quarterly => AddDate 0 0 (-1) (AddDate 0 3 0 (StartOf d Quarterly))
  | Yearly => Date (Year d) 12 31
  end.

Record Period : Type := mkPeriod { Start : Time; End : Time }.

Definition Clip (p p2 : Period) : Period :=
  let p := if After (Start p2) (Start p)
           then mkPeriod (Start p2) (End p) else p in
  if Before (End p2) (End p) then mkPeriod (Start p) (End p2) else p.

Definition Contains (p : Period) (t : Time) : bool :=
  negb (Before t (Start p)) && negb (After t (End p)).

Record Partition : Type := mkPartition {
  span : Period;
  interval : Interval;
  periods : list Period
}.

(** The backward loop of [NewPartition]: [end_] runs from [period.End] down,
    [periods] collects the periods found so far, latest first. *)
Fixpoint partitionLoop (fuel : nat) (period : Period) (interval : Interval)
    (last : Z) (end_ : Time) (counter : Z) (periods : list Period)
  : option (list Period) :=
  if negb (Before end_ (Start period))
     && negb ((last <=? counter) && (0 <? last))
  then
    match fuel with
    | O => None
    | S fuel' =>
        let start := StartOf end_ interval in
        let start := if Before start (Start period)
                     then Start period else start in
        partitionLoop fuel' period interval last
          (AddDate 0 0 (-1) start) (counter + 1)
          (periods ++ [mkPeriod start end_])
    end
  else Some periods.

(** One iteration per day of the span is the most the loop can need. *)
Definition partitionFuel (period : Period) : nat :=
  Z.to_nat (End period - Start period + 1).

Definition NewPartition (period : Period) (interval : Interval) (last : Z)
  : outcome Partition :=
  if IsZero (Start period) then
    Panics "can't create partition with zero time"
  else
    let body :=
      match interval with
      | Once => Some [period]
      | _ => partitionLoop (partitionFuel period) period interval last
               (End period) 0 []
      end in
    match body with
    | None => OutOfFuel
    | Some periods =>
        (* append the initial period, then reverse the slice *)
        let periods :=
          periods ++ [mkPeriod zeroTime (AddDate 0 0 (-1) (Start period))] in
        Returns (mkPartition period interval (rev periods))
    end.

Definition Size (part : Partition) : Z :=
  Z.of_nat (List.length (periods part)) - 1.

Definition Align (part : Partition) (d : Time) : outcome Time :=
  let n := List.length (periods part) in
  let f := fun i =>
    match nth_error (periods part) i with
    | Some q => Returns (negb (Before (End q) d))
    | None => Panics "index out of range"
    end in
  match GoSort.Search n f with
  | Returns index =>
      if (index <? n)%nat then
        match nth_error (periods part) index with
        | Some q => Returns (End q)
        | None => Panics "index out of range"
        end
      else Returns zeroTime
  | Panics msg => Panics msg
  | OutOfFuel => OutOfFuel
  end.

(** [part.periods[1:]] panics on a Partition without periods, the zero
    value of the type; [NewPartition] always gives the leading period. *)
Definition StartDates (part : Partition) : outcome (list Time) :=
  match periods part with
  | [] => Panics "slice bounds out of range"
  | _ :: rest => Returns (map Start rest)
  end.

Definition EndDates (part : Partition) : outcome (list Time) :=
  match periods part with
  | [] => Panics "slice bounds out of range"
  | _ :: rest => Returns (map End rest)
  end.


Definition Interval_String (p : Interval) : string :=
  match p with
  | Once => "once"
  | Daily => "daily"
  | Weekly => "weekly"
  | Monthly => "monthly"
  | Quarterly => "quarterly"
  | Yearly => "yearly"
  end.

(** The loop of [Period.Dates]: [t] steps from interval to interval. *)
Fixpoint datesLoop (fuel : nat) (period : Period) (p : Interval) (t : Time)
    (res : list Time) : option (list Time) :=
  if negb (After t (End period)) then
    match fuel with
    | O => None
    | S fuel' =>
        let ed := EndOf t p in
        let ed := if After ed (End period) then End period else ed in
        datesLoop fuel' period p (AddDate 0 0 1 (EndOf t p)) (res ++ [ed])
    end
  else Some res.

Definition Dates (period : Period) (p : Interval) (n : Z)
  : outcome (list Time) :=
  if Interval_eqb p Once then Returns [End period]
  else
    match datesLoop (partitionFuel period) period p (Start period) [] with
    | None => OutOfFuel
    | Some res =>
        if (0 <? n) && (n <? Z.of_nat (List.length res))
        then Returns (skipn (List.length res - Z.to_nat n) res)
        else Returns res
    end.

Definition Partition_Contains (part : Partition) (d : Time) : bool :=
  Contains (span part) d.
End date.

Import date.


(** ** lib/journal/ast: the part of [Day] and [Period] the period filter
       touches *)

Module ast.
Section Ast.

(** [ast.Transaction] and [amounts.Amounts] are only stored and copied by
    the code modelled here. *)
Variable Transaction : Type.
Variable Amounts : Type.

Record Day : Type := mkDay {
  Date : Time;
  Transactions : list Transaction;
  Amounts_ : Amounts;
  Value : Amounts
}.

Record Period : Type := mkPeriod {
  Period_ : date.Period;
  Amounts' : Amounts;
  Values : Amounts;
  PrevAmounts : Amounts;
  PrevValues : Amounts;
  Days : list Day
}.

End Ast.
Arguments mkDay {Transaction Amounts}.
Arguments Date {Transaction Amounts}.
Arguments Transactions {Transaction Amounts}.
Arguments Amounts_ {Transaction Amounts}.
Arguments Value {Transaction Amounts}.
Arguments mkPeriod {Transaction Amounts}.
Arguments Period_ {Transaction Amounts}.
Arguments Amounts' {Transaction Amounts}.
Arguments Values {Transaction Amounts}.
Arguments PrevAmounts {Transaction Amounts}.
Arguments PrevValues {Transaction Amounts}.
Arguments Days {Transaction Amounts}.
End ast.

(** ** lib/journal/process: PeriodFilter

    The input channel is the list of Days it delivers before it is closed,
    the output channel the list of pushed Periods; the context is never
    cancelled, so [cpr.Pop] and [cpr.Push] do not fail. *)

Module process.
Section PeriodFilter.

Variable Transaction : Type.
Variable Amounts : Type.
(** The nil map of a freshly allocated [ast.Day]. *)
Variable nilAmounts : Amounts.
(** [date.Periods] is called by [computeDates]; its source is not part of
    the files at hand. *)
Variable Periods : Time -> Time -> Interval -> list date.Period.
(** [date.Today()]. *)
Variable today : Time.

Let Day := ast.Day Transaction Amounts.
Let PeriodAgg := ast.Period Transaction Amounts.

Record PeriodFilter : Type := mkPeriodFilter {
  From : Time;
  To : Time;
  Interval_ : Interval;
  Last : Z
}.

Definition computeDates (pf : PeriodFilter) (t : Time)
  : list date.Period * PeriodFilter :=
  let from := From pf in
  let from := if Before from t then t else from in
  let pf := if IsZero (To pf)
            then mkPeriodFilter (From pf) today (Interval_ pf) (Last pf)
            else pf in
  let dates := Periods from (To pf) (Interval_ pf) in
  let dates :=
    if 0 <? Last pf then
      let last := Last pf in
      let last := if Z.of_nat (List.length dates) <? last
                  then Z.of_nat (List.length dates) else last in
      if Last pf <? Z.of_nat (List.length dates)
      then skipn (List.length dates - Z.to_nat last) dates
      else dates
    else dates in
  (dates, pf).

(** The local variables of [Process]. *)
Record locals : Type := mkLocals {
  periods : list date.Period;
  days : list Day;
  current : nat;
  init : bool;
  previous : option Day;
  latest : option Day
}.

Definition initial : locals := mkLocals [] [] 0 false None None.

(** The inner [for] loop, pushing one Period per round.  [ok] and [dayDate]
    are those of the Day just popped ([dayDate] is not read when [ok] is
    false). *)
Fixpoint emitLoop (fuel : nat) (ok : bool) (dayDate : Time) (st : locals)
    (out : list PeriodAgg) : outcome (locals * list PeriodAgg) :=
  match nth_error (periods st) (current st) with
  | Some p =>
      if negb ok || Before (End p) dayDate then
        match fuel with
        | O => OutOfFuel
        | S fuel' =>
            match latest st, previous st with
            | Some l, Some pr =>
                let pDay := ast.mkPeriod p (ast.Amounts_ l) (ast.Value l)
                              (ast.Amounts_ pr) (ast.Value pr) (days st) in
                emitLoop fuel' ok dayDate
                  (mkLocals (periods st) [] (S (current st)) (init st)
                     (latest st) (latest st))
                  (out ++ [pDay])
            | _, _ => Panics "nil pointer dereference"
            end
        end
      else Returns (st, out)
  | None => Returns (st, out)
  end.

Definition emitFuel (st : locals) : nat :=
  (List.length (periods st) - current st)%nat.

(** One round of the outer loop for a popped Day ([ok] true). *)
Definition step (pf : PeriodFilter) (day : Day) (st : locals)
    (out : list PeriodAgg) : outcome (locals * list PeriodAgg) :=
  let skip := negb (init st) && (List.length (ast.Transactions day) =? 0)%nat in
  if skip then Returns (st, out)
  else
    let st :=
      if negb (init st) then
        mkLocals (fst (computeDates pf (ast.Date day))) (days st) (current st)
          true (Some (ast.mkDay zeroTime [] nilAmounts nilAmounts)) (Some day)
      else st in
    match emitLoop (emitFuel st) true (ast.Date day) st out with
    | Returns (st, out) =>
        match nth_error (periods st) (current st) with
        | Some p =>
            let st :=
              if Contains p (ast.Date day) then
                mkLocals (periods st) (days st ++ [day]) (current st)
                  (init st) (previous st) (latest st)
              else
                mkLocals (periods st) (days st) (current st) (init st)
                  (Some day) (latest st) in
            Returns (mkLocals (periods st) (days st) (current st) (init st)
                       (previous st) (Some day), out)
        | None => Returns (st, out)
        end
    | Panics msg => Panics msg
    | OutOfFuel => OutOfFuel
    end.

(** The outer loop over the input; at the end of the input ([ok] false) the
    inner loop runs once more and the function returns. *)
Fixpoint run (pf : PeriodFilter) (input : list Day) (st : locals)
    (out : list PeriodAgg) : outcome (list PeriodAgg) :=
  match input with
  | [] =>
      match emitLoop (emitFuel st) false zeroTime st out with
      | Returns (_, out) => Returns out
      | Panics msg => Panics msg
      | OutOfFuel => OutOfFuel
      end
  | day :: rest =>
      match step pf day st out with
      | Returns (st, out) => run pf rest st out
      | Panics msg => Panics msg
      | OutOfFuel => OutOfFuel
      end
  end.

Definition Process (pf : PeriodFilter) (input : list Day)
  : outcome (list PeriodAgg) :=
  run pf input initial [].

End PeriodFilter.
Arguments mkLocals {Transaction Amounts}.
Arguments periods {Transaction Amounts}.
Arguments days {Transaction Amounts}.
Arguments current {Transaction Amounts}.
Arguments init {Transaction Amounts}.
Arguments previous {Transaction Amounts}.
Arguments latest {Transaction Amounts}.
Arguments initial {Transaction Amounts}.
End process.

(** Modelled from the spec: [date.Periods], which [computeDates] calls, is
    not among the sources.  The spec builds the period list "by walking
    backward from [to] in interval-sized steps until reaching [from]", has
    periods "never start before any real activity", and its period-filter
    scenario ([to] = 2022-01-10, monthly) ends the last period on
    2022-01-31: each period is a whole interval, the first one cut at
    [from]; with [Once] the single period is [from, to]. *)
Fixpoint periodsLoop (fuel : nat) (from : Time) (itv : Interval)
    (end_ : Time) (acc : list date.Period) : list date.Period :=
  if Before end_ from then acc
  else
    match fuel with
    | O => acc
    | S fuel' =>
        let start := StartOf end_ itv in
        let start := if Before start from then from else start in
        periodsLoop fuel' from itv (AddDate 0 0 (-1) start)
          (date.mkPeriod start end_ :: acc)
    end.

Definition specPeriods (from to : Time) (itv : Interval) : list date.Period :=
  match itv with
  | Once => [date.mkPeriod from to]
  | _ => periodsLoop (Z.to_nat (EndOf to itv - from + 1)) from itv
           (EndOf to itv) []
  end.

(** ** lib/common/compare and lib/common/dict

    Modelled from the spec: the packages [compare] and [dict] are not among
    the sources; [compareNodes] and [Node.Children] call [compare.Ordered]
    and [dict.SortedValues].  [compare.Ordered] compares two values of an
    ordered type with [==] and [<]; [dict.SortedValues] returns the values
    of a map ordered by the comparison it is given. *)

Module compare.

Inductive Order : Type := Smaller | Equal | Greater.

(** Go's [constraints.Ordered]: a type with [==] and [<]. *)
Class Ordered (T : Type) : Type := {
  eqb : T -> T -> bool;
  ltb : T -> T -> bool
}.

Definition Ordered_ {T : Type} `{Ordered T} (t1 t2 : T) : Order :=
  if eqb t1 t2 then Equal
  else if ltb t1 t2 then Smaller
  else Greater.

#[global] Instance Z_Ordered : Ordered Z := {| eqb := Z.eqb; ltb := Z.ltb |}.
#[global] Instance string_Ordered : Ordered string :=
  {| eqb := String.eqb; ltb := String.ltb |}.

(** The comparison may panic (a nil receiver inside it). *)
Fixpoint insertSorted {V : Type} (c : V -> V -> outcome Order) (x : V)
    (l : list V) : outcome (list V) :=
  match l with
  | [] => Returns [x]
  | y :: l' =>
      match c x y with
      | Returns Greater =>
          match insertSorted c x l' with
          | Returns r => Returns (y :: r)
          | Panics msg => Panics msg
          | OutOfFuel => OutOfFuel
          end
      | Returns _ => Returns (x :: l)
      | Panics msg => Panics msg
      | OutOfFuel => OutOfFuel
      end
  end.

Fixpoint Sort {V : Type} (c : V -> V -> outcome Order) (l : list V)
  : outcome (list V) :=
  match l with
  | [] => Returns []
  | x :: l' =>
      match Sort c l' with
      | Returns s => insertSorted c x s
      | Panics msg => Panics msg
      | OutOfFuel => OutOfFuel
      end
  end.

End compare.

Module dict.

(** A Go map as the list of its entries, in iteration order. *)
Fixpoint lookup {K V : Type} (keq : K -> K -> bool) (k : K)
    (m : list (K * V)) : option V :=
  match m with
  | [] => None
  | (k', v) :: m' => if keq k k' then Some v else lookup keq k m'
  end.

Fixpoint store {K V : Type} (keq : K -> K -> bool) (k : K) (v : V)
    (m : list (K * V)) : list (K * V) :=
  match m with
  | [] => [(k, v)]
  | (k', v') :: m' =>
      if keq k k' then (k, v) :: m' else (k', v') :: store keq k v m'
  end.

Definition SortedValues {K V : Type} (m : list (K * V))
    (c : V -> V -> outcome compare.Order) : outcome (list V) :=
  compare.Sort c (map snd m).

End dict.

(** ** lib/common/filter

    A filter is a predicate; [And] and [Or] take their filters as a
    variadic list and ask them from left to right, stopping at the first
    that decides.  [regex.Regexes] and its [MatchString] are not among the
    sources and stay abstract in [ByName]. *)

Module filter.

Definition Filter (T : Type) : Type := T -> bool.

Fixpoint And {T : Type} (fs : list (Filter T)) : Filter T :=
  fun t =>
    match fs with
    | [] => true
    | f :: fs' => if negb (f t) then false else And fs' t
    end.

Definition AllowAll {T : Type} (_ : T) : bool := true.

Definition ByName {T Regex : Type} (Name : T -> string)
    (MatchString : list Regex -> string -> bool) (rxs : list Regex)
  : Filter T :=
  if (List.length rxs =? 0)%nat then AllowAll
  else fun t => MatchString rxs (Name t).

Fixpoint Or {T : Type} (fs : list (Filter T)) : Filter T :=
  fun t =>
    match fs with
    | [] => false
    | f :: fs' => if f t then true else Or fs' t
    end.

Definition Not {T : Type} (f : Filter T) : Filter T :=
  fun t => negb (f t).

End filter.

(** ** lib/model and lib/journal2: accounts, keys and amounts

    Modelled from the spec: [model.Account], [journal.Key] and
    [journal.Amounts] are not among the sources.  Accounts are interned
    symbols with a name and a type derived from the first segment of the
    name; a key carries, among others, an account and a valuation commodity,
    either of which may be nil; [Amounts] maps keys to decimals, [Add] adds
    to the entry of a key and [SumOver] sums the entries whose key passes a
    filter. *)

Module model.

Definition AccountType := Z.
Definition ASSETS : AccountType := 0.
Definition LIABILITIES : AccountType := 1.
Definition EQUITY : AccountType := 2.
Definition INCOME : AccountType := 3.
Definition EXPENSES : AccountType := 4.

Record Account : Type := mkAccount {
  Type_ : AccountType;
  Name : string
}.

Definition Account_eqb (a b : Account) : bool :=
  (Type_ a =? Type_ b) && String.eqb (Name a) (Name b).

Definition IsAL (a : Account) : bool :=
  (Type_ a =? ASSETS) || (Type_ a =? LIABILITIES).

Definition Commodity := string.

End model.

Module journal.
Section Amounts.

Variable decimal : Type.
Variable dzero : decimal.
Variable dadd : decimal -> decimal -> decimal.

Record Key : Type := mkKey {
  KeyDate : Time;
  Account : option model.Account;
  Other : option model.Account;
  Commodity : option model.Commodity;
  Valuation : option model.Commodity;
  Description : string
}.

Definition option_eqb {A : Type} (eq : A -> A -> bool) (x y : option A)
  : bool :=
  match x, y with
  | Some a, Some b => eq a b
  | None, None => true
  | _, _ => false
  end.

Definition Key_eqb (k1 k2 : Key) : bool :=
  (KeyDate k1 =? KeyDate k2)
  && option_eqb model.Account_eqb (Account k1) (Account k2)
  && option_eqb model.Account_eqb (Other k1) (Other k2)
  && option_eqb String.eqb (Commodity k1) (Commodity k2)
  && option_eqb String.eqb (Valuation k1) (Valuation k2)
  && String.eqb (Description k1) (Description k2).

Definition Amounts : Type := list (Key * decimal).

Definition Add (am : Amounts) (k : Key) (v : decimal) : Amounts :=
  match dict.lookup Key_eqb k am with
  | Some old => dict.store Key_eqb k (dadd old v) am
  | None => dict.store Key_eqb k (dadd dzero v) am
  end.

Definition SumOver (am : Amounts) (f : Key -> bool) : decimal :=
  fold_left (fun acc kv => if f (fst kv) then dadd acc (snd kv) else acc)
    am dzero.

End Amounts.
End journal.

(** ** lib/journal2/report

    [decimal.Decimal] and [float64] are kept abstract with the operations
    the code applies to them.  A [*Node] is the node itself; the node cache
    of a [Report] stores, instead of the pointer, the tree the node lives
    in and its path of accounts from the root. *)

Module report.
Section Report.

Variable decimal : Type.
Variable dzero : decimal.
Variable dadd : decimal -> decimal -> decimal.
Variable dabs : decimal -> decimal.
Variable float64 : Type.
Variable fzero : float64.
Variable fadd fsub : float64 -> float64 -> float64.
(** [Decimal.Float64], without its exactness flag. *)
Variable toFloat64 : decimal -> float64.
Context {float64_Ordered : compare.Ordered float64}.
(** [Registry.Accounts().Ancestors]: the accounts on the path to an
    account, the account itself last. *)
Variable Ancestors : model.Account -> list model.Account.

Let Amounts := journal.Amounts decimal.

Inductive Node : Type := mkNode {
  Account : option model.Account;
  children : list (model.Account * Node);
  Amounts_ : Amounts;
  weight : float64
}.

Definition nodeCache : Type := list (model.Account * (bool * list model.Account)).

Record Report : Type := mkReport {
  AL : Node;
  EIE : Node;
  cache : nodeCache;
  dates : date.Partition
}.

Definition newNode (a : option model.Account) : Node :=
  mkNode a [] [] fzero.

Definition NewReport (ds : date.Partition) : Report :=
  mkReport (newNode None) (newNode None) [] ds.

Definition Node_Insert (n : Node) (k : journal.Key) (v : decimal) : Node :=
  mkNode (Account n) (children n) (journal.Add decimal dzero dadd (Amounts_ n) k v)
    (weight n).

(** [n.Leaf(as)] followed by a write [f] to the node it returns: the path
    is walked, created where missing, and the leaf replaced by [f leaf]. *)
Fixpoint atLeaf (as_ : list model.Account) (f : Node -> Node) (n : Node)
  : Node :=
  match as_ with
  | [] => f n
  | head :: tail =>
      let child :=
        match dict.lookup model.Account_eqb head (children n) with
        | Some c => c
        | None => newNode (Some head)
        end in
      mkNode (Account n)
        (dict.store model.Account_eqb head (atLeaf tail f child) (children n))
        (Amounts_ n) (weight n)
  end.

Definition Leaf (n : Node) (as_ : list model.Account) : Node :=
  atLeaf as_ (fun leaf => leaf) n.

Definition Insert (r : Report) (k : journal.Key) (v : decimal) : Report :=
  match journal.Account k with
  | None => r
  | Some account =>
      let '(isAL, path, cache') :=
        match dict.lookup model.Account_eqb account (cache r) with
        | Some (isAL, path) => (isAL, path, cache r)
        | None =>
            let ancestors := Ancestors account in
            let isAL := model.IsAL account in
            (isAL, ancestors,
             dict.store model.Account_eqb account (isAL, ancestors) (cache r))
        end in
      let write := fun leaf => Node_Insert leaf k v in
      if isAL
      then mkReport (atLeaf path write (AL r)) (EIE r) cache' (dates r)
      else mkReport (AL r) (atLeaf path write (EIE r)) cache' (dates r)
  end.

Definition compareNodes (n1 n2 : Node) : outcome compare.Order :=
  match Account n1, Account n2 with
  | Some a1, Some a2 =>
      if negb (compare.eqb (model.Type_ a1) (model.Type_ a2)) then
        Returns (compare.Ordered_ (model.Type_ a1) (model.Type_ a2))
      else if negb (compare.eqb (weight n1) (weight n2)) then
        Returns (compare.Ordered_ (weight n1) (weight n2))
      else Returns (compare.Ordered_ (model.Name a1) (model.Name a2))
  | _, _ => Panics "nil pointer dereference"
  end.

Definition Children (n : Node) : outcome (list Node) :=
  dict.SortedValues (children n) compareNodes.

Definition keysWithVal (k : journal.Key) : bool :=
  match journal.Valuation k with Some _ => true | None => false end.

(** [n.Children()] fixes the order in which the tasks for the subtrees
    are started and may panic in [compareNodes]; each subtree is computed by
    its own task and [wait] joins them; the weights of the children are
    then added in the iteration order of the map. *)
Fixpoint computeWeights (n : Node) : outcome Node :=
  match Children n with
  | Returns _ =>
      let forAll :=
        fix forAll (cs : list (model.Account * Node))
          : outcome (list (model.Account * Node)) :=
          match cs with
          | [] => Returns []
          | kv :: cs' =>
              match computeWeights (snd kv) with
              | Returns sn =>
                  match forAll cs' with
                  | Returns r => Returns ((fst kv, sn) :: r)
                  | Panics msg => Panics msg
                  | OutOfFuel => OutOfFuel
                  end
              | Panics msg => Panics msg
              | OutOfFuel => OutOfFuel
              end
          end in
      match forAll (children n) with
      | Returns children' =>
          let w := journal.SumOver decimal dzero dadd (Amounts_ n) keysWithVal in
          let f := toFloat64 (dabs w) in
          let weight0 := fsub fzero f in
          let weight' :=
            fold_left (fun acc kv => fadd acc (weight (snd kv))) children'
              weight0 in
          Returns (mkNode (Account n) children' (Amounts_ n) weight')
      | Panics msg => Panics msg
      | OutOfFuel => OutOfFuel
      end
  | Panics msg => Panics msg
  | OutOfFuel => OutOfFuel
  end.

(** All nodes of a tree, the root first. *)
Fixpoint nodes (n : Node) : list Node :=
  n :: flat_map (fun kv => nodes (snd kv)) (children n).

End Report.
Arguments mkNode {decimal float64}.
Arguments Account {decimal float64}.
Arguments children {decimal float64}.
Arguments Amounts_ {decimal float64}.
Arguments weight {decimal float64}.
Arguments mkReport {decimal float64}.
Arguments AL {decimal float64}.
Arguments EIE {decimal float64}.
Arguments cache {decimal float64}.
Arguments dates {decimal float64}.
Arguments compareNodes {decimal float64 float64_Ordered}.
Arguments Children {decimal float64 float64_Ordered}.
Arguments nodes {decimal float64}.
End report.

(** ** Runes and UTF-8, as Go's [unicode/utf8] and [strings.Reader] see
       them *)

Module utf8.

Definition rune := Z.
Definition RuneError : rune := 65533.

Definition bytes (s : string) : list Z :=
  map (fun a => Z.of_N (N_of_ascii a)) (list_ascii_of_string s).

Definition ofBytes (bs : list Z) : string :=
  string_of_list_ascii (map (fun b => ascii_of_N (Z.to_N b)) bs).

Definition RuneLen (r : rune) : Z :=
  if r <? 0 then -1
  else if r <=? 127 then 1
  else if r <=? 2047 then 2
  else if (55296 <=? r) && (r <=? 57343) then -1
  else if r <=? 65535 then 3
  else if r <=? 1114111 then 4
  else -1.

Definition cont (b : Z) : bool := (128 <=? b) && (b <=? 191).

(** [DecodeRune]: the rune at the head of the bytes and its width; an
    invalid or short encoding is [RuneError] of width 1. *)
Definition DecodeRune (bs : list Z) : option (rune * nat) :=
  match bs with
  | [] => None
  | b0 :: t =>
      if b0 <? 128 then Some (b0, 1%nat)
      else if (194 <=? b0) && (b0 <=? 223) then
        match t with
        | b1 :: _ =>
            if cont b1
            then Some (Z.lor (Z.shiftl (Z.land b0 31) 6) (Z.land b1 63),
                       2%nat)
            else Some (RuneError, 1%nat)
        | _ => Some (RuneError, 1%nat)
        end
      else if (224 <=? b0) && (b0 <=? 239) then
        let lo := if b0 =? 224 then 160 else 128 in
        let hi := if b0 =? 237 then 159 else 191 in
        match t with
        | b1 :: b2 :: _ =>
            if (lo <=? b1) && (b1 <=? hi) && cont b2
            then Some (Z.lor (Z.shiftl (Z.land b0 15) 12)
                         (Z.lor (Z.shiftl (Z.land b1 63) 6) (Z.land b2 63)),
                       3%nat)
            else Some (RuneError, 1%nat)
        | _ => Some (RuneError, 1%nat)
        end
      else if (240 <=? b0) && (b0 <=? 244) then
        let lo := if b0 =? 240 then 144 else 128 in
        let hi := if b0 =? 244 then 143 else 191 in
        match t with
        | b1 :: b2 :: b3 :: _ =>
            if (lo <=? b1) && (b1 <=? hi) && cont b2 && cont b3
            then Some (Z.lor (Z.shiftl (Z.land b0 7) 18)
                         (Z.lor (Z.shiftl (Z.land b1 63) 12)
                            (Z.lor (Z.shiftl (Z.land b2 63) 6)
                               (Z.land b3 63))),
                       4%nat)
            else Some (RuneError, 1%nat)
        | _ => Some (RuneError, 1%nat)
        end
      else Some (RuneError, 1%nat)
  end.

(** [strings.Builder.WriteRune]: the UTF-8 bytes of a rune. *)
Definition EncodeRune (r : rune) : list Z :=
  let r := if RuneLen r <? 0 then RuneError else r in
  if r <=? 127 then [r]
  else if r <=? 2047 then
    [Z.lor 192 (Z.shiftr r 6); Z.lor 128 (Z.land r 63)]
  else if r <=? 65535 then
    [Z.lor 224 (Z.shiftr r 12); Z.lor 128 (Z.land (Z.shiftr r 6) 63);
     Z.lor 128 (Z.land r 63)]
  else
    [Z.lor 240 (Z.shiftr r 18); Z.lor 128 (Z.land (Z.shiftr r 12) 63);
     Z.lor 128 (Z.land (Z.shiftr r 6) 63); Z.lor 128 (Z.land r 63)].

(** [unicode.IsLetter] and [unicode.IsDigit] on the ASCII range; the
    Unicode tables beyond it are not modelled and the predicates answer
    false there. *)
Definition IsDigit (r : rune) : bool := (48 <=? r) && (r <=? 57).
Definition IsLetter (r : rune) : bool :=
  ((65 <=? r) && (r <=? 90)) || ((97 <=? r) && (r <=? 122)).

End utf8.

(** ** The scanner (package scanner) *)

Module scanner.

Import utf8.

Record Location : Type := mkLocation {
  BytePos : Z; RunePos : Z; Line : Z; Column : Z
}.

(** [reader] holds the bytes the [strings.Reader] has not delivered yet. *)
Record Scanner : Type := mkScanner {
  text : string;
  reader : list Z;
  current : rune;
  Path : string;
  Location_ : Location
}.

Definition EOF : rune := 0.

(** [reader.ReadRune] with [io.EOF] turned into the [EOF] rune; a
    [strings.Reader] has no other error. *)
Definition readRune (bs : list Z) : rune * list Z :=
  match DecodeRune bs with
  | Some (ch, size) => (ch, skipn size bs)
  | None => (EOF, bs)
  end.

Definition New (text path : string) : Scanner :=
  let '(ch, rest) := readRune (bytes text) in
  mkScanner text rest ch path (mkLocation 0 0 1 1).

Definition Current (s : Scanner) : rune := current s.

(** [Advance] cannot fail on a [strings.Reader]; its error is always nil. *)
Definition Advance (s : Scanner) : Scanner :=
  let '(ch, rest) := readRune (reader s) in
  let l := Location_ s in
  let l := mkLocation (BytePos l + RuneLen (current s)) (RunePos l + 1)
             (Line l) (Column l) in
  let l := if current s =? 10
           then mkLocation (BytePos l) (RunePos l) (Line l + 1) 1
           else mkLocation (BytePos l) (RunePos l) (Line l) (Column l + 1) in
  mkScanner (text s) rest ch (Path s) l.

(** [s.text[start:end]]: slicing a string panics out of range. *)
Definition slice (text : string) (start end_ : Z) : outcome string :=
  if (0 <=? start) && (start <=? end_)
     && (end_ <=? Z.of_nat (String.length text))
  then Returns (substring (Z.to_nat start) (Z.to_nat (end_ - start)) text)
  else Panics "slice bounds out of range".

(** The errors of [FindLocation]: its own, and [io.EOF] of the reader. *)
Inductive findError : Type :=
| ErrInvalidPos (pos len : Z)   (* "invalid pos %d for string of length %d" *)
| ErrEOF.

Fixpoint findLoop (fuel : nat) (r : list Z) (offset pos : Z)
    (res : Location) : outcome (Location * option findError) :=
  if offset <? pos then
    match fuel with
    | O => OutOfFuel
    | S fuel' =>
        match DecodeRune r with
        | None => Returns (res, Some ErrEOF)
        | Some (ch, c) =>
            let res :=
              if ch =? 10
              then mkLocation (BytePos res) (RunePos res) (Line res + 1) 1
              else mkLocation (BytePos res) (RunePos res) (Line res)
                     (Column res + 1) in
            findLoop fuel' (skipn c r) (offset + Z.of_nat c) pos res
        end
    end
  else Returns (res, None).

(** [pos] rounds are enough for the loop, which adds at least one to
    [offset] in every round. *)
Definition FindLocation (text : string) (pos : Z)
  : outcome (Location * option findError) :=
  let res := mkLocation 0 0 1 1 in
  if Z.of_nat (String.length text) <? pos
  then Returns (res, Some (ErrInvalidPos pos (Z.of_nat (String.length text))))
  else findLoop (Z.to_nat pos) (bytes text) 0 pos res.

End scanner.

(** ** The journal parser (package journal)

    A Go function [func (p *Parser) f() (T, error)] is a function from the
    parser state to an [outcome]: the pair ([T] or error, state) it leaves,
    or a panic.  Errors keep the data of their [fmt.Errorf] call. *)

Module parser.

Import utf8 scanner.

Inductive error : Type :=
| ErrExpectedRune (want got : rune)          (* "expected %c, got %c" *)
| ErrExpectedString (want got : string)      (* "expected %v, got %v" *)
| ErrUnexpectedCharacter (path : string) (at_ : Location) (got : rune)
                                             (* ParseError("unexpected character: %q") *)
| ErrExpectedWhitespace (got : rune)         (* "expected whitespace, got %q" *)
| ErrExpectedInterval (got : string)
| ErrExpectedIdentifier (got : rune)         (* "expected identifier, got %q" *)
| ErrTimeParse (value : string)              (* the error of time.Parse *)
| ErrContext (name : string).                (* the error of the Context *)

Inductive res (A : Type) : Type :=
| Ok (a : A)
| Err (e : error).
Arguments Ok {A} a.
Arguments Err {A} e.

Record Parser : Type := mkParser {
  scanner_ : Scanner;
  startPos : Location
}.

Definition M (A : Type) : Type := Parser -> outcome (res A * Parser).

Definition ret {A : Type} (a : A) : M A := fun p => Returns (Ok a, p).
Definition fail {A : Type} (e : error) : M A := fun p => Returns (Err e, p).
Definition panic {A : Type} (msg : string) : M A := fun _ => Panics msg.

Definition bind {A B : Type} (m : M A) (k : A -> M B) : M B :=
  fun p =>
    match m p with
    | Returns (Ok a, p') => k a p'
    | Returns (Err e, p') => Returns (Err e, p')
    | Panics msg => Panics msg
    | OutOfFuel => OutOfFuel
    end.

Notation "x <- m ;; k" := (bind m (fun x => k))
  (at level 61, m at next level, right associativity).
Notation "m ;;; k" := (bind m (fun _ => k))
  (at level 61, right associativity).

Definition current_ : M rune := fun p => Returns (Ok (Current (scanner_ p)), p).
Definition bytePos : M Z :=
  fun p => Returns (Ok (BytePos (Location_ (scanner_ p))), p).
Definition advance : M unit :=
  fun p => Returns (Ok tt, mkParser (Advance (scanner_ p)) (startPos p)).
(** [s.text[start:s.Location.BytePos]] *)
Definition sliceFrom (start : Z) : M string :=
  fun p =>
    match slice (text (scanner_ p)) start (BytePos (Location_ (scanner_ p)))
    with
    | Returns str => Returns (Ok str, p)
    | Panics msg => Panics msg
    | OutOfFuel => OutOfFuel
    end.
(** A loop that has used up its fuel. *)
Definition outOfFuel {A : Type} : M A := fun _ => OutOfFuel.
(** Fuel for a loop that advances in every round: the unread bytes. *)
Definition withFuel {A : Type} (loop : nat -> M A) : M A :=
  fun p => loop (S (S (List.length (reader (scanner_ p))))) p.

(** *** Scanner methods *)

Fixpoint whileLoop (fuel : nat) (cond : rune -> bool) : M unit :=
  c <- current_ ;;
  if cond c then
    match fuel with
    | O => outOfFuel
    | S fuel' => advance ;;; whileLoop fuel' cond
    end
  else ret tt.

Definition ReadWhile (pred : rune -> bool) : M string :=
  start <- bytePos ;;
  withFuel (fun fuel =>
    whileLoop fuel (fun c => pred c && negb (c =? EOF))) ;;;
  sliceFrom start.

Definition ConsumeWhile (pred : rune -> bool) : M unit :=
  withFuel (fun fuel => whileLoop fuel pred).

Definition ConsumeUntil (pred : rune -> bool) : M unit :=
  withFuel (fun fuel => whileLoop fuel (fun c => negb (pred c))).

Definition ConsumeRune (r : rune) : M unit :=
  c <- current_ ;;
  if negb (c =? r) then fail (ErrExpectedRune r c) else advance.

Fixpoint parseStringLoop (str : string) (start : Z) (chs : list rune)
  : M unit :=
  match chs with
  | [] => ret tt
  | ch :: chs' =>
      c <- current_ ;;
      if negb (ch =? c) then
        got <- sliceFrom start ;;
        fail (ErrExpectedString str got)
      else advance ;;; parseStringLoop str start chs'
  end.

(** The runes of a string constant of the parser are its bytes. *)
Definition ParseString (str : string) : M unit :=
  start <- bytePos ;;
  parseStringLoop str start (bytes str).

Fixpoint readNLoop (n : nat) : M unit :=
  match n with
  | O => ret tt
  | S n' => advance ;;; readNLoop n'
  end.

Definition ReadN (n : nat) : M string :=
  start <- bytePos ;;
  readNLoop n ;;;
  sliceFrom start.

(** *** [time.Parse("2006-01-02", value)] of Go's standard library *)

Definition daysIn (month year : Z) : Z :=
  if (month =? 2) && isLeap year then 29
  else daysBefore month - daysBefore (month - 1).

Definition digit (b : Z) : bool := (48 <=? b) && (b <=? 57).

Definition timeParseDate (value : string) : res Time :=
  match bytes value with
  | [y3; y2; y1; y0; s1; m1; m0; s2; d1; d0] =>
      if digit y3 && digit y2 && digit y1 && digit y0 && (s1 =? 45)
         && digit m1 && digit m0 && (s2 =? 45) && digit d1 && digit d0
      then
        let year := (y3 - 48) * 1000 + (y2 - 48) * 100 + (y1 - 48) * 10
                    + (y0 - 48) in
        let month := (m1 - 48) * 10 + (m0 - 48) in
        let day := (d1 - 48) * 10 + (d0 - 48) in
        if (1 <=? month) && (month <=? 12) && (1 <=? day)
           && (day <=? daysIn month year)
        then Ok (Date year month day)
        else Err (ErrTimeParse value)
      else Err (ErrTimeParse value)
  | _ => Err (ErrTimeParse value)
  end.

(** *** Parser methods *)

Section Methods.

Variable Account Commodity : Type.
(** [Context.GetAccount] and [Context.GetCommodity]. *)
Variable GetAccount : string -> res Account.
Variable GetCommodity : string -> res Commodity.

Definition lift {A : Type} (r : res A) : M A :=
  match r with Ok a => ret a | Err e => fail e end.

Record Range : Type := mkRange {
  RangeStart : Location; RangeEnd : Location; RangePath : string
}.

Record Accrual : Type := mkAccrual {
  AccrualPeriod : date.Period;
  AccrualInterval : Interval;
  AccrualAccount : Account
}.

(** A nil [targets] slice differs from an empty one. *)
Record addon : Type := mkAddon {
  addonRange : option Range;
  accrual : option Accrual;
  targets : option (list Commodity)
}.

Definition markStart : M unit :=
  fun p => Returns (Ok tt, mkParser (scanner_ p) (Location_ (scanner_ p))).

Definition getRange : M Range :=
  fun p => Returns (Ok (mkRange (startPos p) (Location_ (scanner_ p))
                          (Path (scanner_ p))), p).

Definition isWhitespace (ch : rune) : bool :=
  (ch =? 32) || (ch =? 9) || (ch =? 13).
Definition isNewline (ch : rune) : bool := ch =? 10.
Definition isWhitespaceOrNewline (ch : rune) : bool :=
  isNewline ch || isWhitespace ch.

Definition consumeNewline : M unit :=
  c <- current_ ;;
  if negb (c =? EOF) then ConsumeRune 10 else ret tt.

Definition consumeWhitespace1 : M unit :=
  c <- current_ ;;
  if negb (isWhitespaceOrNewline c) && negb (c =? EOF)
  then fail (ErrExpectedWhitespace c)
  else ConsumeWhile isWhitespace.

Definition consumeRestOfWhitespaceLine : M unit :=
  consumeWhitespace1 ;;; consumeNewline.

Definition parseAccount : M Account :=
  s <- ReadWhile (fun r => (r =? 58) || IsLetter r || IsDigit r) ;;
  lift (GetAccount s).

Fixpoint identifierLoop (fuel : nat) (b : list Z) : M string :=
  c <- current_ ;;
  if IsLetter c || IsDigit c then
    match fuel with
    | O => outOfFuel
    | S fuel' => advance ;;; identifierLoop fuel' (b ++ EncodeRune c)
    end
  else ret (ofBytes b).

Definition parseIdentifier : M string :=
  c <- current_ ;;
  if negb (IsLetter c || IsDigit c) then fail (ErrExpectedIdentifier c)
  else withFuel (fun fuel => identifierLoop fuel []).

Definition parseCommodity : M Commodity :=
  i <- parseIdentifier ;;
  lift (GetCommodity i).

Definition parseDate : M Time :=
  d <- ReadN 10 ;;
  lift (timeParseDate d).

Fixpoint targetsLoop (fuel : nat) (res_ : list Commodity)
  : M (list Commodity) :=
  c <- current_ ;;
  if c =? 44 then
    match fuel with
    | O => outOfFuel
    | S fuel' =>
        ConsumeRune 44 ;;;
        ConsumeWhile isWhitespace ;;;
        c <- parseCommodity ;;
        ConsumeWhile isWhitespace ;;;
        targetsLoop fuel' (res_ ++ [c])
    end
  else ret res_.

Definition parseTargetCommodities : M (list Commodity) :=
  ConsumeRune 40 ;;;
  ConsumeWhile isWhitespace ;;;
  c <- current_ ;;
  res_ <- (if negb (c =? 41) then
             c <- parseCommodity ;;
             ConsumeWhile isWhitespace ;;;
             ret [c]
           else ret []) ;;
  res_ <- withFuel (fun fuel => targetsLoop fuel res_) ;;
  ConsumeRune 41 ;;;
  ret res_.

Definition parsePerformance : M (list Commodity) :=
  ParseString "performance" ;;;
  ConsumeWhile isWhitespace ;;;
  tgts <- parseTargetCommodities ;;
  consumeRestOfWhitespaceLine ;;;
  ret tgts.

Definition parseInterval (periodStr : string) : res Interval :=
  if String.eqb periodStr "once" then Ok Once
  else if String.eqb periodStr "daily" then Ok Daily
  else if String.eqb periodStr "weekly" then Ok Weekly
  else if String.eqb periodStr "monthly" then Ok Monthly
  else if String.eqb periodStr "quarterly" then Ok Quarterly
  else if String.eqb periodStr "yearly" then Ok Yearly
  else Err (ErrExpectedInterval periodStr).

Definition parseAccrual : M Accrual :=
  ParseString "accrue" ;;;
  consumeWhitespace1 ;;;
  periodStr <- ReadWhile IsLetter ;;
  interval <- lift (parseInterval periodStr) ;;
  consumeWhitespace1 ;;;
  dateFrom <- parseDate ;;
  consumeWhitespace1 ;;;
  dateTo <- parseDate ;;
  consumeWhitespace1 ;;;
  account <- parseAccount ;;
  consumeRestOfWhitespaceLine ;;;
  ret (mkAccrual (date.mkPeriod dateFrom dateTo) interval account).

Fixpoint addonsLoop (fuel : nat) (a : addon) : M addon :=
  c <- current_ ;;
  if c =? 64 then
    match fuel with
    | O => outOfFuel
    | S fuel' =>
        ConsumeRune 64 ;;;
        c <- current_ ;;
        if c =? 97 then
          acc <- parseAccrual ;;
          addonsLoop fuel' (mkAddon (addonRange a) (Some acc) (targets a))
        else if c =? 112 then
          tgts <- parsePerformance ;;
          addonsLoop fuel' (mkAddon (addonRange a) (accrual a) (Some tgts))
        else
          p <- (fun p => Returns (Ok p, p)) ;;
          fail (ErrUnexpectedCharacter (Path (scanner_ p))
                  (Location_ (scanner_ p)) c)
    end
  else ret a.

Definition parseAddons : M addon :=
  markStart ;;;
  a <- withFuel (fun fuel => addonsLoop fuel (mkAddon None None None)) ;;
  r <- getRange ;;
  ret (mkAddon (Some r) (accrual a) (targets a)).

End Methods.

Definition NewParser (text path : string) : Parser :=
  mkParser (New text path) (mkLocation 0 0 0 0).

End parser.

(** ** The syntax parser (lib/syntax/parser)

    Modelled from the spec: the parser of package [lib/syntax/parser]
    ([ParseFile], [parseDirective], [parseDate], the scanner under it) is
    not among the sources; only its tests are ([TestParseFile],
    [TestParseDate]).  From the spec: the scanner's read of one character
    fails with "unexpected character" or "unexpected end of file" and the
    expectation; every parsing function wraps the error of the function it
    called in an error naming its own context and range ("while parsing
    file", "while parsing directive", "while parsing the date"); a file is
    a sequence of lines that hold a comment, a directive or only
    whitespace; a directive starts with a date of four digits, [-], two
    digits, [-], two digits, or with [@], or is an include.  Message texts
    and ranges are those the tests expect.  Runes are the bytes of the text
    (ASCII). *)

Module syntax.

Record Range : Type := mkRange { Start : nat; End : nat; Text : string }.

Inductive Error : Type :=
| mkError (Message : string) (Range_ : Range) (Wrapped : option Error).

Record Date : Type := mkDate { DateRange : Range }.

Section Syntax.
(** The directive proper (open, close, transaction, ...). *)
Variable Body : Type.

Record Directive : Type := mkDirective {
  DirectiveRange : Range;
  Directive_ : option Body
}.

Record File : Type := mkFile {
  FileRange : Range;
  Directives : list Directive
}.

Record Scanner : Type := mkScanner {
  text : string;
  path : string;
  offset : nat
}.

Definition EOF : Z := 0.

Definition Current (s : Scanner) : Z :=
  nth (offset s) (utf8.bytes (text s)) EOF.

Definition atEOF (s : Scanner) : bool :=
  (String.length (text s) <=? offset s)%nat.

Definition Advance (s : Scanner) : Scanner :=
  mkScanner (text s) (path s) (S (offset s)).

Definition rangeFrom (start : nat) (s : Scanner) : Range :=
  mkRange start (offset s) (text s).

Definition quoted (c : Z) : string :=
  ("`" ++ String (ascii_of_N (Z.to_N c)) "" ++ "`")%string.

(** Read one character satisfying [pred]; [want] describes it. *)
Definition ReadCharacterWith (pred : Z -> bool) (want : string)
    (s : Scanner) : option Error * Scanner :=
  if atEOF s then
    (Some (mkError ("unexpected end of file, want " ++ want)
             (rangeFrom (offset s) s) None), s)
  else if pred (Current s) then (None, Advance s)
  else
    (Some (mkError ("unexpected character " ++ quoted (Current s)
                    ++ ", want " ++ want)
             (rangeFrom (offset s) s) None), s).

Definition Annotate (desc : string) (start : nat) (s : Scanner) (e : Error)
  : Error :=
  mkError desc (rangeFrom start s) (Some e).

Definition isDigit (c : Z) : bool := (48 <=? c) && (c <=? 57).
Definition isDash (c : Z) : bool := c =? 45.
Definition isNewline (c : Z) : bool := c =? 10.
Definition isWhitespace (c : Z) : bool := (c =? 32) || (c =? 9) || (c =? 13).

Fixpoint readAll (expect : list ((Z -> bool) * string)) (s : Scanner)
  : option Error * Scanner :=
  match expect with
  | [] => (None, s)
  | (pred, want) :: rest =>
      match ReadCharacterWith pred want s with
      | (None, s') => readAll rest s'
      | (Some e, s') => (Some e, s')
      end
  end.

Definition parseDate (s : Scanner) : Date * option Error * Scanner :=
  let start := offset s in
  let digit := (isDigit, "a digit"%string) in
  let dash := (isDash, quoted 45) in
  match readAll [digit; digit; digit; digit; dash; digit; digit; dash;
                 digit; digit] s with
  | (None, s') => (mkDate (rangeFrom start s'), None, s')
  | (Some e, s') =>
      (mkDate (rangeFrom start s'),
       Some (Annotate "while parsing the date" start s' e), s')
  end.

(** The directives that do not start with a date (addons, include), and
    what follows the date of one that does. *)
Variable parseOther : Scanner -> Directive * option Error * Scanner.
Variable parseAfterDate :
  nat -> Date -> Scanner -> Directive * option Error * Scanner.

Definition parseDirective (s : Scanner)
  : Directive * option Error * Scanner :=
  let start := offset s in
  if (Current s =? 64) || (Current s =? 105) then parseOther s
  else
    match parseDate s with
    | (d, None, s') => parseAfterDate start d s'
    | (_, Some e, s') =>
        (mkDirective (rangeFrom start s') None,
         Some (Annotate "while parsing directive" start s' e), s')
    end.

Fixpoint skipWhile (fuel : nat) (pred : Z -> bool) (s : Scanner) : Scanner :=
  match fuel with
  | O => s
  | S fuel' =>
      if negb (atEOF s) && pred (Current s)
      then skipWhile fuel' pred (Advance s) else s
  end.

Definition readComment (s : Scanner) : Scanner :=
  skipWhile (String.length (text s)) (fun c => negb (isNewline c)) s.

Definition readRestOfWhitespaceLine (s : Scanner) : option Error * Scanner :=
  let start := offset s in
  let s := skipWhile (String.length (text s)) isWhitespace s in
  if atEOF s then (None, s)
  else
    match ReadCharacterWith isNewline (quoted 10) s with
    | (None, s') => (None, s')
    | (Some e, s') =>
        (Some (Annotate "while reading the rest of the line" start s' e), s')
    end.

Definition isCommentStart (c : Z) : bool :=
  (c =? 42) || (c =? 35) || (c =? 47).
Definition isDirectiveStart (c : Z) : bool :=
  (c =? 64) || utf8.IsLetter c || utf8.IsDigit c.

Definition fileDescription (s : Scanner) : string :=
  ("while parsing file `" ++ path s ++ "`")%string.

Fixpoint fileLoop (fuel : nat) (dirs : list Directive) (s : Scanner)
  : File * option Error :=
  if atEOF s then (mkFile (rangeFrom 0 s) dirs, None)
  else
    match fuel with
    | O => (mkFile (rangeFrom 0 s) dirs, None)
    | S fuel' =>
        let '(dirs, err, s) :=
          if isCommentStart (Current s) then (dirs, None, readComment s)
          else if isDirectiveStart (Current s) then
            let '(dir, err, s') := parseDirective s in
            (dirs ++ [dir], err, s')
          else (dirs, None, s) in
        match err with
        | Some e =>
            (mkFile (rangeFrom 0 s) dirs,
             Some (Annotate (fileDescription s) 0 s e))
        | None =>
            match readRestOfWhitespaceLine s with
            | (Some e, s') =>
                (mkFile (rangeFrom 0 s') dirs,
                 Some (Annotate (fileDescription s') 0 s' e))
            | (None, s') => fileLoop fuel' dirs s'
            end
        end
    end.

Definition New (text path : string) : Scanner := mkScanner text path 0.

Definition ParseFile (s : Scanner) : File * option Error :=
  fileLoop (S (String.length (text s))) [] s.

End Syntax.

(** The number of errors in a chain. *)
Fixpoint depth (e : Error) : nat :=
  match e with
  | mkError _ _ (Some w) => S (depth w)
  | mkError _ _ None => 1
  end.

Fixpoint innermost (e : Error) : Error :=
  match e with
  | mkError _ _ (Some w) => innermost w
  | mkError _ _ None => e
  end.

End syntax.
Example date_2022_01_10 : civil (Date 2022 1 10) = (2022, 1, 10).
Proof. reflexivity. Qed.

Example date_weekday : Weekday (Date 2022 1 10) = 1.
Proof. reflexivity. Qed.

(** ** Calendar facts: [Date] inverts [civil] *)

Section CalendarFacts.

(** Bounded check of a boolean property on [z, z + n). *)
Fixpoint all_from (n : nat) (z : Z) (f : Z -> bool) : bool :=
  match n with
  | O => true
  | S k => f z && all_from k (z + 1) f
  end.

Lemma all_from_spec n : forall z f,
  all_from n z f = true -> forall x, z <= x < z + Z.of_nat n -> f x = true.
Proof.
  induction n as [|k IH]; intros z f H x Hx.
  - simpl in Hx. lia.
  - simpl in H. apply andb_true_iff in H as [Hz Hk].
    destruct (Z.eq_dec x z) as [->|Hne]; [exact Hz|].
    apply (IH (z + 1) f Hk). lia.
Qed.

(** The round trip inside one 400-year cycle, as a decidable check. *)
Definition cycle_check (r : Z) : bool :=
  let '(y, yday) := cycleYearDay r in
  let '(m, d) := monthDay (isLeap (y + 1)) yday in
  (0 <=? y) && (y <? 400) && (1 <=? m) && (m <=? 12) && (1 <=? d)
  && (daysSinceEpoch (y + 1) + daysBefore (m - 1)
      + (if isLeap (y + 1) && (2 <=? m - 1) then 1 else 0) + (d - 1) =? r).

Lemma cycle_check_all :
  all_from (Z.to_nat daysPer400Years) 0 cycle_check = true.
Proof. vm_cast_no_check (eq_refl true). Qed.

Lemma cycle_check_ok r : 0 <= r < 146097 -> cycle_check r = true.
Proof.
  intros Hr. apply (all_from_spec _ 0 cycle_check cycle_check_all).
  rewrite Z2Nat.id by (unfold daysPer400Years; lia).
  unfold daysPer400Years. lia.
Qed.

Lemma isLeap_cycle n y : isLeap (400 * n + y) = isLeap y.
Proof.
  unfold isLeap.
  replace ((400 * n + y) mod 4) with (y mod 4)
    by (Z.div_mod_to_equations; lia).
  replace ((400 * n + y) mod 100) with (y mod 100)
    by (Z.div_mod_to_equations; lia).
  replace ((400 * n + y) mod 400) with (y mod 400)
    by (Z.div_mod_to_equations; lia).
  reflexivity.
Qed.

Lemma daysSinceEpoch_cycle n y :
  daysSinceEpoch (400 * n + y) = 146097 * n + daysSinceEpoch y.
Proof.
  unfold daysSinceEpoch. cbv zeta.
  replace ((400 * n + y - 1) / 4) with (100 * n + (y - 1) / 4)
    by (Z.div_mod_to_equations; lia).
  replace ((400 * n + y - 1) / 100) with (4 * n + (y - 1) / 100)
    by (Z.div_mod_to_equations; lia).
  replace ((400 * n + y - 1) / 400) with (n + (y - 1) / 400)
    by (Z.div_mod_to_equations; lia).
  lia.
Qed.

(** [Date] with a month already in 1..12. *)
Lemma Date_in_range y m d : 1 <= m <= 12 ->
  Date y m d = daysSinceEpoch y + daysBefore (m - 1)
               + (if isLeap y && (2 <=? m - 1) then 1 else 0) + (d - 1).
Proof.
  intros Hm. unfold Date. cbv zeta.
  replace ((m - 1) / 12) with 0 by (Z.div_mod_to_equations; lia).
  replace ((m - 1) mod 12) with (m - 1) by (Z.div_mod_to_equations; lia).
  rewrite Z.add_0_r. reflexivity.
Qed.

Lemma civil_spec t :
  1 <= Month t <= 12 /\ 1 <= Day t /\ Date (Year t) (Month t) (Day t) = t.
Proof.
  unfold Year, Month, Day, civil.
  assert (Hr : 0 <= t mod daysPer400Years < 146097)
    by (unfold daysPer400Years; Z.div_mod_to_equations; lia).
  pose proof (cycle_check_ok _ Hr) as Hc. unfold cycle_check in Hc.
  destruct (cycleYearDay (t mod daysPer400Years)) as [y yday].
  replace (400 * (t / daysPer400Years) + y + 1)
    with (400 * (t / daysPer400Years) + (y + 1)) by lia.
  rewrite isLeap_cycle.
  destruct (monthDay (isLeap (y + 1)) yday) as [m d]. cbn [fst snd].
  repeat (apply andb_true_iff in Hc; destruct Hc as [Hc ?]).
  assert (Hm : 1 <= m <= 12) by lia.
  split; [exact Hm|]. split; [lia|].
  rewrite (Date_in_range _ _ _ Hm), daysSinceEpoch_cycle, isLeap_cycle.
  apply Z.eqb_eq in H.
  unfold daysPer400Years in *. Z.div_mod_to_equations. lia.
Qed.

Lemma Date_day_shift y m d k : Date y m (d + k) = Date y m d + k.
Proof. unfold Date. lia. Qed.

(** Moving by whole days is addition on day numbers. *)
Lemma AddDate_days t k : AddDate 0 0 k t = t + k.
Proof.
  unfold AddDate. rewrite !Z.add_0_r, Date_day_shift.
  destruct (civil_spec t) as (_ & _ & ->). reflexivity.
Qed.

End CalendarFacts.

Example partition_monthly :
  NewPartition (mkPeriod (Date 2021 11 15) (Date 2022 1 10)) Monthly 0
  = Returns (mkPartition (mkPeriod (Date 2021 11 15) (Date 2022 1 10)) Monthly
      [ mkPeriod zeroTime (Date 2021 11 14);
        mkPeriod (Date 2021 11 15) (Date 2021 11 30);
        mkPeriod (Date 2021 12 1) (Date 2021 12 31);
        mkPeriod (Date 2022 1 1) (Date 2022 1 10) ]).
Proof. vm_compute. reflexivity. Qed.

Example partition_weekly_last2 :
  match NewPartition (mkPeriod (Date 2022 1 1) (Date 2022 1 20)) Weekly 2
  with Returns part => EndDates part | _ => OutOfFuel end
  = Returns [Date 2022 1 16; Date 2022 1 20].
Proof. vm_compute. reflexivity. Qed.

Example align_monthly :
  match NewPartition (mkPeriod (Date 2021 11 15) (Date 2022 1 10)) Monthly 0
  with
  | Returns part =>
      (Align part (Date 2021 12 5), Align part (Date 2022 1 10),
       Align part (Date 2022 1 11), Align part (Date 2021 1 1))
  | _ => (OutOfFuel, OutOfFuel, OutOfFuel, OutOfFuel)
  end
  = (Returns (Date 2021 12 31), Returns (Date 2022 1 10),
     Returns zeroTime, Returns (Date 2021 11 14)).
Proof. vm_compute. reflexivity. Qed.


(** ** More calendar facts: [civil] inverts [Date] on calendar dates *)

Ltac month_cases m :=
  let H := fresh in
  assert (H : m = 1 \/ m = 2 \/ m = 3 \/ m = 4 \/ m = 5 \/ m = 6 \/ m = 7
              \/ m = 8 \/ m = 9 \/ m = 10 \/ m = 11 \/ m = 12) by lia;
  repeat (destruct H as [H|H]; [subst m|]); [..|subst m].

(** Evaluate the month tables and the tests on closed months. *)
Ltac eval_months :=
  repeat match goal with
  | |- context [daysBefore ?x] =>
      let v := eval vm_compute in (daysBefore x) in
      progress change (daysBefore x) with v
  | H : context [daysBefore ?x] |- _ =>
      let v := eval vm_compute in (daysBefore x) in
      progress change (daysBefore x) with v in H
  | |- context [if ?c then _ else _] =>
      let v := eval vm_compute in c in
      match v with true => idtac | false => idtac end;
      change c with v; cbv iota
  | H : context [if ?c then _ else _] |- _ =>
      let v := eval vm_compute in c in
      match v with true => idtac | false => idtac end;
      change c with v in H; cbv iota in H
  end.

Section CalendarInverse.

(** The day of the month never exceeds the length of the month. *)
Definition cycle_check_day (r : Z) : bool :=
  let '(y, yday) := cycleYearDay r in
  let '(m, d) := monthDay (isLeap (y + 1)) yday in
  d <=? parser.daysIn m (y + 1).

Lemma cycle_check_day_all :
  all_from (Z.to_nat daysPer400Years) 0 cycle_check_day = true.
Proof. vm_cast_no_check (eq_refl true). Qed.

Lemma daysIn_cycle m n y : parser.daysIn m (400 * n + y) = parser.daysIn m y.
Proof. unfold parser.daysIn. rewrite isLeap_cycle. reflexivity. Qed.

Lemma civil_day_bound t : Day t <= parser.daysIn (Month t) (Year t).
Proof.
  unfold Year, Month, Day, civil.
  assert (Hr : 0 <= t mod daysPer400Years < 0 + Z.of_nat (Z.to_nat daysPer400Years))
    by (unfold daysPer400Years; rewrite Z2Nat.id by lia;
        Z.div_mod_to_equations; lia).
  pose proof (all_from_spec _ 0 cycle_check_day cycle_check_day_all _ Hr) as Hc.
  unfold cycle_check_day in Hc.
  destruct (cycleYearDay (t mod daysPer400Years)) as [y yday].
  replace (400 * (t / daysPer400Years) + y + 1)
    with (400 * (t / daysPer400Years) + (y + 1)) by lia.
  rewrite isLeap_cycle.
  destruct (monthDay (isLeap (y + 1)) yday) as [m d]. cbn [fst snd].
  rewrite daysIn_cycle. apply Z.leb_le. exact Hc.
Qed.

(** A date of the calendar. *)
Definition validDate (y m d : Z) : Prop :=
  1 <= m <= 12 /\ 1 <= d <= parser.daysIn m y.

Lemma civil_valid t : validDate (Year t) (Month t) (Day t).
Proof.
  destruct (civil_spec t) as (Hm & Hd & _).
  pose proof (civil_day_bound t). unfold validDate. lia.
Qed.

Lemma isLeap_cases y :
  (isLeap y = true /\ (y mod 4 = 0 /\ (y mod 100 <> 0 \/ y mod 400 = 0)))
  \/ (isLeap y = false /\ (y mod 4 <> 0 \/ (y mod 100 = 0 /\ y mod 400 <> 0))).
Proof.
  unfold isLeap.
  destruct (Z.eqb_spec (y mod 4) 0), (Z.eqb_spec (y mod 100) 0),
    (Z.eqb_spec (y mod 400) 0); cbn; intuition lia.
Qed.

Lemma daysSinceEpoch_succ y :
  daysSinceEpoch (y + 1)
  = daysSinceEpoch y + (if isLeap y then 366 else 365).
Proof.
  unfold daysSinceEpoch. cbv zeta.
  replace (y + 1 - 1) with y by lia.
  destruct (isLeap_cases y) as [[-> H]|[-> H]];
    Z.div_mod_to_equations; lia.
Qed.

Lemma daysSinceEpoch_mono y y' :
  y < y' ->
  daysSinceEpoch y + (if isLeap y then 366 else 365) <= daysSinceEpoch y'.
Proof.
  intros H. rewrite <- daysSinceEpoch_succ.
  assert (Hs : forall k, 0 <= k ->
            daysSinceEpoch (y + 1) <= daysSinceEpoch (y + 1 + k)).
  { apply natlike_ind; [rewrite Z.add_0_r; lia|].
    intros k Hk IH. replace (y + 1 + Z.succ k) with (y + 1 + k + 1) by lia.
    rewrite (daysSinceEpoch_succ (y + 1 + k)).
    destruct (isLeap (y + 1 + k)); lia. }
  replace y' with (y + 1 + (y' - y - 1)) by lia. apply Hs. lia.
Qed.

(** The day of the year, from 0, of a calendar date. *)
Definition yearDay (y m d : Z) : Z :=
  daysBefore (m - 1) + (if isLeap y && (2 <=? m - 1) then 1 else 0) + (d - 1).

Lemma Date_yearDay y m d : 1 <= m <= 12 ->
  Date y m d = daysSinceEpoch y + yearDay y m d.
Proof. intros H. rewrite Date_in_range by exact H. unfold yearDay. lia. Qed.

Lemma yearDay_bounds y m d : validDate y m d ->
  0 <= yearDay y m d < (if isLeap y then 366 else 365).
Proof.
  intros [Hm Hd]. unfold yearDay, parser.daysIn in *.
  month_cases m; destruct (isLeap y); eval_months; lia.
Qed.

Lemma yearDay_lt y m d m' d' :
  validDate y m d -> validDate y m' d' ->
  m < m' \/ (m = m' /\ d < d') -> yearDay y m d < yearDay y m' d'.
Proof.
  intros [Hm Hd] [Hm' Hd'] Hlt. unfold yearDay, parser.daysIn in *.
  month_cases m; month_cases m'; destruct (isLeap y); eval_months; lia.
Qed.

(** [Date] is strictly increasing on calendar dates. *)
Lemma Date_lt y m d y' m' d' :
  validDate y m d -> validDate y' m' d' ->
  y < y' \/ (y = y' /\ (m < m' \/ (m = m' /\ d < d'))) ->
  Date y m d < Date y' m' d'.
Proof.
  intros V V' Hlt.
  rewrite (Date_yearDay y m d) by apply V.
  rewrite (Date_yearDay y' m' d') by apply V'.
  pose proof (yearDay_bounds _ _ _ V). pose proof (yearDay_bounds _ _ _ V').
  destruct Hlt as [Hy|[-> Hmd]].
  - pose proof (daysSinceEpoch_mono y y' Hy). lia.
  - pose proof (yearDay_lt _ _ _ _ _ V V' Hmd). lia.
Qed.

Lemma Date_inj y m d y' m' d' :
  validDate y m d -> validDate y' m' d' ->
  Date y m d = Date y' m' d' -> y = y' /\ m = m' /\ d = d'.
Proof.
  intros V V' E.
  destruct (Z.lt_trichotomy y y') as [H|[H|H]].
  - pose proof (Date_lt _ _ _ _ _ _ V V' (or_introl H)). lia.
  - subst y'. destruct (Z.lt_trichotomy m m') as [Hm|[Hm|Hm]].
    + pose proof (Date_lt _ _ _ _ _ _ V V'
                    (or_intror (conj eq_refl (or_introl Hm)))). lia.
    + subst m'. destruct (Z.lt_trichotomy d d') as [Hd|[Hd|Hd]].
      * pose proof (Date_lt _ _ _ _ _ _ V V'
          (or_intror (conj eq_refl (or_intror (conj eq_refl Hd))))). lia.
      * auto.
      * pose proof (Date_lt _ _ _ _ _ _ V' V
          (or_intror (conj eq_refl (or_intror (conj eq_refl Hd))))). lia.
    + pose proof (Date_lt _ _ _ _ _ _ V' V
                    (or_intror (conj eq_refl (or_introl Hm)))). lia.
  - pose proof (Date_lt _ _ _ _ _ _ V' V (or_introl H)). lia.
Qed.

(** Year, month and day of a calendar date are those it was made of. *)
Lemma civil_Date y m d :
  validDate y m d ->
  Year (Date y m d) = y /\ Month (Date y m d) = m /\ Day (Date y m d) = d.
Proof.
  intros V. set (t := Date y m d).
  destruct (civil_spec t) as (_ & _ & E).
  destruct (Date_inj _ _ _ _ _ _ (civil_valid t) V E) as (-> & -> & ->).
  auto.
Qed.

End CalendarInverse.
(** ** [StartOf] never moves forward *)

Section StartOfFacts.

Lemma Date_first_le t : Date (Year t) (Month t) 1 <= t.
Proof.
  destruct (civil_spec t) as (_ & Hd & Ht).
  replace (Day t) with (1 + (Day t - 1)) in Ht by lia.
  rewrite Date_day_shift in Ht. lia.
Qed.

(** Within a year, the first of an earlier month is not later. *)
Lemma Date_month_mono y m m' :
  1 <= m <= m' -> m' <= 12 -> Date y m 1 <= Date y m' 1.
Proof.
  intros H1 H2. rewrite !Date_in_range by lia.
  assert (Hc : m = 1 \/ m = 2 \/ m = 3 \/ m = 4 \/ m = 5 \/ m = 6 \/ m = 7
               \/ m = 8 \/ m = 9 \/ m = 10 \/ m = 11 \/ m = 12) by lia.
  assert (Hc' : m' = 1 \/ m' = 2 \/ m' = 3 \/ m' = 4 \/ m' = 5 \/ m' = 6
                \/ m' = 7 \/ m' = 8 \/ m' = 9 \/ m' = 10 \/ m' = 11
                \/ m' = 12) by lia.
  destruct (isLeap y);
    repeat (destruct Hc as [->|Hc]); try subst m;
    repeat (destruct Hc' as [->|Hc']); try subst m';
    cbn; lia.
Qed.

Lemma StartOf_le d p : StartOf d p <= d.
Proof.
  destruct (civil_spec d) as (Hm & _ & _).
  destruct p; cbn [StartOf]; try lia.
  - rewrite AddDate_days.
    assert (0 <= (Weekday d + 6) mod 7) by (apply Z.mod_pos_bound; lia). lia.
  - apply Date_first_le.
  - etransitivity; [|apply Date_first_le].
    apply Date_month_mono; Z.div_mod_to_equations; lia.
  - etransitivity; [|apply Date_first_le].
    apply Date_month_mono; lia.
Qed.

End StartOfFacts.


(** ** The intervals of the calendar *)

Section IntervalFacts.

Lemma daysIn_bounds m y : 1 <= m <= 12 -> 28 <= parser.daysIn m y <= 31.
Proof.
  intros Hm. unfold parser.daysIn.
  month_cases m; destruct (isLeap y); eval_months; lia.
Qed.

Lemma Date_13 y : Date y 13 1 = Date (y + 1) 1 1.
Proof.
  unfold Date. cbv zeta.
  change ((13 - 1) / 12) with 1. change ((13 - 1) mod 12) with 0.
  change ((1 - 1) / 12) with 0. change ((1 - 1) mod 12) with 0.
  rewrite !Z.add_0_r. reflexivity.
Qed.

Lemma Date_next_month y m :
  1 <= m <= 12 -> Date y (m + 1) 1 = Date y m 1 + parser.daysIn m y.
Proof.
  intros Hm. destruct (Z.eq_dec m 12) as [->|Hne].
  - change (12 + 1) with 13. rewrite Date_13.
    rewrite !Date_yearDay by lia. rewrite daysSinceEpoch_succ.
    unfold yearDay, parser.daysIn.
    destruct (isLeap (y + 1)); destruct (isLeap y); eval_months; lia.
  - rewrite !Date_yearDay by lia. unfold yearDay, parser.daysIn.
    month_cases m; try lia; destruct (isLeap y); eval_months; lia.
Qed.

(** The first of a month is not later than the first of a later one, the
    month after December included. *)
Lemma Date_month_mono13 y m m' :
  1 <= m <= m' -> m' <= 13 -> Date y m 1 <= Date y m' 1.
Proof.
  intros H1 H2. destruct (Z.eq_dec m' 13) as [->|Hne].
  - change 13 with (12 + 1). rewrite Date_next_month by lia.
    pose proof (daysIn_bounds 12 y).
    destruct (Z.eq_dec m 13) as [->|Hm].
    + change 13 with (12 + 1). rewrite Date_next_month by lia. lia.
    + pose proof (Date_month_mono y m 12). lia.
  - apply Date_month_mono; lia.
Qed.

Lemma civil_first y m :
  1 <= m <= 12 ->
  Year (Date y m 1) = y /\ Month (Date y m 1) = m /\ Day (Date y m 1) = 1.
Proof.
  intros Hm. apply civil_Date. pose proof (daysIn_bounds m y Hm).
  unfold validDate. lia.
Qed.

(** A time between the first of month [a] and the first of month [b] of the
    year [y] has the year [y] and a month from [a] to [b - 1]. *)
Lemma civil_bracket y a b t :
  1 <= a -> a < b -> b <= 13 -> Date y a 1 <= t < Date y b 1 ->
  Year t = y /\ a <= Month t < b.
Proof.
  intros Ha Hab Hb Ht.
  pose proof (civil_valid t) as V. destruct (civil_spec t) as (Hm & Hd & E).
  assert (Va : validDate y a 1).
  { pose proof (daysIn_bounds a y). unfold validDate. lia. }
  assert (V1 : forall z, validDate z 1 1).
  { intros z. pose proof (daysIn_bounds 1 z). unfold validDate. lia. }
  destruct (Z.lt_trichotomy (Year t) y) as [Hy|[Hy|Hy]].
  - pose proof (Date_lt _ _ _ _ _ _ V Va (or_introl Hy)). lia.
  - rewrite Hy in *. split; [reflexivity|]. split.
    + destruct (Z_lt_le_dec (Month t) a) as [Hlt|]; [|lia].
      pose proof (Date_lt _ _ _ _ _ _ V Va
                    (or_intror (conj eq_refl (or_introl Hlt)))). lia.
    + destruct (Z_lt_le_dec (Month t) b) as [|Hge]; [lia|].
      assert (Vb : validDate y b 1).
      { pose proof (daysIn_bounds b y). unfold validDate. lia. }
      assert (Date y b 1 <= Date y (Month t) (Day t)); [|lia].
      destruct (Z.eq_dec b (Month t)) as [->|Hne].
      * rewrite <- (Z.add_0_r (Date y (Month t) 1)).
        replace (Day t) with (1 + (Day t - 1)) by lia.
        rewrite Date_day_shift. lia.
      * assert (Hlt : b < Month t) by lia.
        pose proof (Date_lt _ _ _ _ _ _ Vb V
                      (or_intror (conj eq_refl (or_introl Hlt)))). lia.
  - assert (Date (y + 1) 1 1 <= Date (Year t) (Month t) (Day t)).
    { assert (Date (Year t) 1 1 <= Date (Year t) (Month t) (Day t)).
      { destruct (Z.eq_dec (Month t) 1) as [E1|].
        - rewrite E1. replace (Day t) with (1 + (Day t - 1)) by lia.
          rewrite Date_day_shift. lia.
        - assert (Hlt : 1 < Month t) by lia.
          pose proof (Date_lt _ _ _ _ _ _ (V1 (Year t)) V
                        (or_intror (conj eq_refl (or_introl Hlt)))). lia. }
      destruct (Z.eq_dec (Year t) (y + 1)) as [<-|]; [lia|].
      assert (Hlt : y + 1 < Year t) by lia.
      pose proof (Date_lt _ _ _ _ _ _ (V1 (y + 1)) (V1 (Year t))
                    (or_introl Hlt)). lia. }
    rewrite <- Date_13 in H.
    pose proof (Date_month_mono13 y b 13). lia.
Qed.

(** The first month of the interval holding month [m], and the number of
    months of an interval. *)
Definition firstMonth (p : Interval) (m : Z) : Z :=
  match p with
  | Quarterly => (m - 1) / 3 * 3 + 1
  | Yearly => 1
  | _ => m
  end.

Definition monthSpan (p : Interval) : Z :=
  match p with
  | Quarterly => 3
  | Yearly => 12
  | _ => 1
  end.

Definition calendarInterval (p : Interval) : Prop :=
  p = Monthly \/ p = Quarterly \/ p = Yearly.

Lemma firstMonth_bounds p m :
  1 <= m <= 12 ->
  1 <= firstMonth p m <= m /\ m < firstMonth p m + monthSpan p
  /\ firstMonth p m + monthSpan p <= 13.
Proof.
  intros Hm. destruct p; cbn [firstMonth monthSpan];
    try (Z.div_mod_to_equations; lia).
Qed.

Lemma firstMonth_same p m m' :
  1 <= m <= 12 ->
  firstMonth p m <= m' < firstMonth p m + monthSpan p ->
  firstMonth p m' = firstMonth p m.
Proof.
  intros Hm. destruct p; cbn [firstMonth monthSpan]; intros H;
    try (Z.div_mod_to_equations; lia).
Qed.

Lemma StartOf_calendar p d :
  calendarInterval p ->
  StartOf d p = Date (Year d) (firstMonth p (Month d)) 1.
Proof. intros [->|[->| ->]]; reflexivity. Qed.

Lemma EndOf_calendar p d :
  calendarInterval p ->
  EndOf d p
  = Date (Year d) (firstMonth p (Month d) + monthSpan p) 1 - 1.
Proof.
  destruct (civil_spec d) as (Hm & _ & _).
  intros [->|[->| ->]]; cbn [EndOf StartOf firstMonth monthSpan].
  - unfold AddDate.
    destruct (civil_first (Year d) (Month d) Hm) as (-> & -> & ->).
    rewrite Z.add_0_r. change (1 + -1) with (1 + (-1)).
    rewrite Date_day_shift. lia.
  - assert (Hq : 1 <= (Month d - 1) / 3 * 3 + 1 <= 12)
      by (Z.div_mod_to_equations; lia).
    rewrite AddDate_days. unfold AddDate.
    destruct (civil_first (Year d) _ Hq) as (-> & -> & ->).
    rewrite !Z.add_0_r. lia.
  - change (1 + 12) with (12 + 1). rewrite Date_next_month by lia.
    replace 31 with (1 + 30) at 1 by lia. rewrite Date_day_shift.
    unfold parser.daysIn. eval_months. lia.
Qed.

Lemma StartOf_Weekly d : StartOf d Weekly = d - d mod 7.
Proof.
  cbn [StartOf]. rewrite AddDate_days. unfold Weekday.
  Z.div_mod_to_equations. lia.
Qed.

Lemma EndOf_Weekly d : EndOf d Weekly = d - d mod 7 + 6.
Proof.
  cbn [EndOf]. rewrite AddDate_days. unfold Weekday.
  Z.div_mod_to_equations. lia.
Qed.

(** Every time lies in its own interval. *)
Lemma StartOf_EndOf_bounds d p : StartOf d p <= d <= EndOf d p.
Proof.
  split; [apply StartOf_le|].
  destruct (civil_spec d) as (Hm & Hd & E).
  destruct p; try (cbn [EndOf]; lia).
  - cbn [EndOf]. rewrite AddDate_days.
    assert (0 <= (7 - Weekday d) mod 7) by (apply Z.mod_pos_bound; lia). lia.
  - rewrite EndOf_calendar by (left; reflexivity).
    cbn [firstMonth monthSpan]. rewrite Date_next_month by exact Hm.
    pose proof (civil_day_bound d).
    rewrite <- E at 1. replace (Day d) with (1 + (Day d - 1)) at 1 by lia.
    rewrite Date_day_shift. lia.
  - rewrite EndOf_calendar by (right; left; reflexivity).
    destruct (firstMonth_bounds Quarterly (Month d) Hm) as (H1 & H2 & H3).
    pose proof (Date_month_mono13 (Year d) (Month d + 1)
                  (firstMonth Quarterly (Month d) + monthSpan Quarterly)).
    rewrite Date_next_month in H by exact Hm.
    pose proof (civil_day_bound d).
    rewrite <- E at 1. replace (Day d) with (1 + (Day d - 1)) at 1 by lia.
    rewrite Date_day_shift. lia.
  - rewrite EndOf_calendar by (right; right; reflexivity).
    destruct (firstMonth_bounds Yearly (Month d) Hm) as (H1 & H2 & H3).
    pose proof (Date_month_mono13 (Year d) (Month d + 1)
                  (firstMonth Yearly (Month d) + monthSpan Yearly)).
    rewrite Date_next_month in H by exact Hm.
    pose proof (civil_day_bound d).
    rewrite <- E at 1. replace (Day d) with (1 + (Day d - 1)) at 1 by lia.
    rewrite Date_day_shift. lia.
Qed.

(** A time inside the interval of [d] has the same interval. *)
Lemma interval_same d t p :
  StartOf d p <= t <= EndOf d p ->
  StartOf t p = StartOf d p /\ EndOf t p = EndOf d p.
Proof.
  intros Ht. destruct (civil_spec d) as (Hm & _ & _).
  assert (Hcal : calendarInterval p ->
            StartOf t p = StartOf d p /\ EndOf t p = EndOf d p).
  { intros Hc. rewrite (StartOf_calendar p d Hc) in Ht.
    rewrite (EndOf_calendar p d Hc) in Ht.
    destruct (firstMonth_bounds p (Month d) Hm) as (H1 & H2 & H3).
    destruct (civil_bracket (Year d) (firstMonth p (Month d))
                (firstMonth p (Month d) + monthSpan p) t) as [Hy Hmt];
      try lia.
    rewrite (StartOf_calendar p t Hc), (EndOf_calendar p t Hc),
      (StartOf_calendar p d Hc), (EndOf_calendar p d Hc).
    rewrite Hy, (firstMonth_same p (Month d) (Month t) Hm Hmt). auto. }
  destruct p; try (apply Hcal; unfold calendarInterval; auto; fail);
    clear Hcal.
  - cbn [StartOf EndOf] in Ht |- *. lia.
  - cbn [StartOf EndOf] in Ht |- *. lia.
  - rewrite (StartOf_Weekly d), (EndOf_Weekly d) in Ht.
    rewrite (StartOf_Weekly t), (EndOf_Weekly t), (StartOf_Weekly d),
      (EndOf_Weekly d).
    Z.div_mod_to_equations. lia.
Qed.

(** The day after the end of an interval starts the next interval, and the
    day before the start of an interval ends the one before. *)
Lemma interval_adjacent d p :
  StartOf (EndOf d p + 1) p = EndOf d p + 1
  /\ EndOf (StartOf d p - 1) p = StartOf d p - 1.
Proof.
  destruct (civil_spec d) as (Hm & _ & _).
  assert (Hcal : calendarInterval p ->
            StartOf (EndOf d p + 1) p = EndOf d p + 1
            /\ EndOf (StartOf d p - 1) p = StartOf d p - 1).
  { intros Hc.
    destruct (firstMonth_bounds p (Month d) Hm) as (H1 & H2 & H3).
    set (a := firstMonth p (Month d)) in *. set (n := monthSpan p) in *.
    assert (Hn : 1 <= n) by (unfold n; destruct p; cbn; lia).
    split.
    - rewrite (EndOf_calendar p d Hc). fold a n.
      replace (Date (Year d) (a + n) 1 - 1 + 1) with (Date (Year d) (a + n) 1)
        by lia.
      (* the first of the month after the interval *)
      assert (Hs : exists y' m', 1 <= m' <= 12
                /\ Date (Year d) (a + n) 1 = Date y' m' 1
                /\ firstMonth p m' = m').
      { destruct (Z.eq_dec (a + n) 13) as [E13|Hne].
        - exists (Year d + 1), 1. rewrite E13, Date_13.
          split; [lia|]. split; [reflexivity|].
          destruct p; cbn; reflexivity.
        - exists (Year d), (a + n). split; [lia|]. split; [reflexivity|].
          unfold a, n in *. destruct p; cbn [firstMonth monthSpan] in *;
            try reflexivity; Z.div_mod_to_equations; lia. }
      destruct Hs as (y' & m' & Hm' & -> & Hf).
      rewrite (StartOf_calendar p _ Hc).
      destruct (civil_first y' m' Hm') as (-> & -> & _).
      rewrite Hf. reflexivity.
    - rewrite (StartOf_calendar p d Hc). fold a.
      (* the month before the interval *)
      assert (Hs : exists y' m', 1 <= m' <= 12
                /\ Date (Year d) a 1 = Date y' (m' + 1) 1
                /\ firstMonth p m' + monthSpan p = m' + 1).
      { destruct (Z.eq_dec a 1) as [E1|Hne].
        - exists (Year d - 1), 12. rewrite E1. split; [lia|]. split.
          + change (12 + 1) with 13. rewrite Date_13. f_equal. lia.
          + destruct p; cbn; reflexivity.
        - exists (Year d), (a - 1). split; [lia|].
          split; [f_equal; lia|].
          unfold a in *. destruct p; cbn [firstMonth monthSpan] in *;
            try lia; Z.div_mod_to_equations; lia. }
      destruct Hs as (y' & m' & Hm' & -> & Hf).
      rewrite Date_next_month by exact Hm'.
      pose proof (daysIn_bounds m' y' Hm') as Hdi.
      replace (Date y' m' 1 + parser.daysIn m' y' - 1)
        with (Date y' m' (1 + (parser.daysIn m' y' - 1)))
        by (rewrite Date_day_shift; lia).
      assert (V : validDate y' m' (1 + (parser.daysIn m' y' - 1)))
        by (unfold validDate; lia).
      rewrite (EndOf_calendar p _ Hc).
      destruct (civil_Date _ _ _ V) as (-> & -> & _).
      rewrite Hf, Date_next_month by exact Hm'.
      rewrite Date_day_shift. lia. }
  destruct p; try (apply Hcal; unfold calendarInterval; auto; fail);
    clear Hcal.
  - cbn [StartOf EndOf]. lia.
  - cbn [StartOf EndOf]. lia.
  - rewrite (EndOf_Weekly (StartOf d Weekly - 1)), (StartOf_Weekly d),
      (StartOf_Weekly (EndOf d Weekly + 1)), (EndOf_Weekly d).
    Z.div_mod_to_equations. lia.
Qed.

End IntervalFacts.
(** ** The loop of [NewPartition] *)

Section PartitionLoop.

Variable period : Period.
Variable itv : Interval.

(** [descChain e l]: [l] lists contiguous periods downwards from one ending
    at [e] to one starting at [period.Start]. *)
Fixpoint descChain (e : Time) (l : list Period) : Prop :=
  match l with
  | [] => e = Start period - 1
  | q :: l' =>
      End q = e /\ Start period <= Start q <= End q
      /\ descChain (Start q - 1) l'
  end.

(** The start the loop body picks for the period ending at [e]. *)
Definition clampedStart (e : Time) : Time :=
  if Before (StartOf e itv) (Start period) then Start period
  else StartOf e itv.

Lemma clampedStart_bounds e :
  Start period <= e -> Start period <= clampedStart e <= e.
Proof.
  intros He. unfold clampedStart, Before.
  pose proof (StartOf_le e itv).
  destruct (Z.ltb_spec (StartOf e itv) (Start period)); lia.
Qed.

(** The loop returns whatever [last] is: each round moves [end_] down. *)
Lemma partitionLoop_returns last fuel : forall e counter acc,
  (Z.to_nat (e - Start period + 1) <= fuel)%nat ->
  exists l, partitionLoop fuel period itv last e counter acc = Some (acc ++ l).
Proof.
  induction fuel as [|fuel IH]; intros e counter acc Hf.
  - cbn [partitionLoop]. unfold Before.
    destruct (Z.ltb_spec e (Start period)); [|lia].
    exists []. cbn. now rewrite app_nil_r.
  - cbn [partitionLoop].
    destruct (negb (Before e (Start period))
              && negb ((last <=? counter) && (0 <? last))) eqn:Hc.
    + apply andb_true_iff in Hc as [Hc _].
      unfold Before in Hc. apply negb_true_iff, Z.ltb_ge in Hc.
      fold (clampedStart e). rewrite AddDate_days.
      pose proof (clampedStart_bounds e Hc).
      destruct (IH (clampedStart e + -1) (counter + 1)
                  (acc ++ [mkPeriod (clampedStart e) e])) as [l Hl]; [lia|].
      exists (mkPeriod (clampedStart e) e :: l).
      rewrite Hl, <- app_assoc. reflexivity.
    + exists []. now rewrite app_nil_r.
Qed.

(** Without a limit on the number of periods the loop walks down to
    [period.Start]. *)
Lemma partitionLoop_chain fuel : forall e counter acc,
  Start period - 1 <= e ->
  (Z.to_nat (e - Start period + 1) <= fuel)%nat ->
  exists l, partitionLoop fuel period itv 0 e counter acc = Some (acc ++ l)
            /\ descChain e l.
Proof.
  induction fuel as [|fuel IH]; intros e counter acc He Hf.
  - cbn [partitionLoop]. unfold Before.
    destruct (Z.ltb_spec e (Start period)); [|lia].
    exists []. cbn. rewrite app_nil_r. split; [reflexivity|lia].
  - cbn [partitionLoop]. rewrite andb_false_r, andb_true_r. unfold Before at 1.
    destruct (Z.ltb_spec e (Start period)) as [Hlt|Hge]; cbn [negb].
    + exists []. cbn. rewrite app_nil_r. split; [reflexivity|lia].
    + fold (clampedStart e). rewrite AddDate_days.
      pose proof (clampedStart_bounds e Hge).
      destruct (IH (clampedStart e + -1) (counter + 1)
                  (acc ++ [mkPeriod (clampedStart e) e])) as (l & Hl & Hch);
        [lia|lia|].
      exists (mkPeriod (clampedStart e) e :: l). split.
      * rewrite Hl, <- app_assoc. reflexivity.
      * cbn. repeat split; try lia.
        replace (clampedStart e - 1) with (clampedStart e + -1) by lia.
        exact Hch.
Qed.

End PartitionLoop.

(** ** Ascending chains of periods *)

Section Chains.

(** [ascChain s l e]: the periods of [l] are non-empty, follow one another
    without a gap and together run from [s] to [e]. *)
Fixpoint ascChain (s : Time) (l : list Period) (e : Time) : Prop :=
  match l with
  | [] => s = e + 1
  | q :: l' => Start q = s /\ s <= End q /\ ascChain (End q + 1) l' e
  end.

(** Each period's End plus one day is the next period's Start. *)
Fixpoint contiguous (l : list Period) : Prop :=
  match l with
  | a :: ((b :: _) as l') => AddDate 0 0 1 (End a) = Start b /\ contiguous l'
  | _ => True
  end.

Lemma ascChain_snoc l : forall s q e,
  ascChain s l (Start q - 1) -> Start q <= End q -> End q = e ->
  ascChain s (l ++ [q]) e.
Proof.
  induction l as [|a l IH]; intros s q e Hl Hq He; cbn in *.
  - repeat split; lia.
  - destruct Hl as (Ha & Hs & Hl). repeat split; auto.
Qed.

Lemma descChain_rev pd l : forall e,
  descChain pd e l -> ascChain (Start pd) (rev l) e.
Proof.
  induction l as [|q l IH]; intros e H; cbn in *.
  - lia.
  - destruct H as (He & Hq & Hl).
    apply ascChain_snoc; [apply IH; exact Hl|lia|exact He].
Qed.

Lemma ascChain_le l : forall s e, ascChain s l e -> s <= e + 1.
Proof.
  induction l as [|q l IH]; intros s e H; cbn in H; [lia|].
  destruct H as (_ & Hs & Hl). apply IH in Hl. lia.
Qed.

Lemma ascChain_nonempty l s e : ascChain s l e -> s <= e -> l <> [].
Proof. destruct l; cbn; [lia|discriminate]. Qed.

Lemma ascChain_hd l s e dflt :
  ascChain s l e -> l <> [] -> Start (hd dflt l) = s.
Proof. destruct l; cbn; [congruence|tauto]. Qed.

Lemma ascChain_last l : forall s e dflt,
  ascChain s l e -> l <> [] -> End (last l dflt) = e.
Proof.
  induction l as [|q l IH]; intros s e dflt H Hne; [congruence|].
  destruct H as (_ & _ & Hl). destruct l as [|b l].
  - cbn in *. lia.
  - change (last (q :: b :: l) dflt) with (last (b :: l) dflt).
    apply (IH _ _ _ Hl). discriminate.
Qed.

Lemma ascChain_periods_nonempty l : forall s e,
  ascChain s l e -> Forall (fun q => Start q <= End q) l.
Proof.
  induction l as [|q l IH]; intros s e H; constructor.
  - cbn in H. lia.
  - destruct H as (_ & _ & Hl). exact (IH _ _ Hl).
Qed.

Lemma ascChain_contiguous l : forall s e, ascChain s l e -> contiguous l.
Proof.
  induction l as [|a l IH]; intros s e H; [exact I|].
  destruct H as (_ & _ & Hl). destruct l as [|b l]; [exact I|].
  split; [|exact (IH _ _ Hl)].
  rewrite AddDate_days. destruct Hl as (Hb & _). lia.
Qed.

Lemma ascChain_ends_ge l : forall s e,
  ascChain s l e -> Forall (fun q => s <= End q) l.
Proof.
  induction l as [|q l IH]; intros s e H; constructor.
  - cbn in H. lia.
  - destruct H as (_ & Hs & Hl). apply IH in Hl.
    eapply Forall_impl; [|exact Hl]. cbn. intros. lia.
Qed.

Lemma ascChain_ends_le l : forall s e,
  ascChain s l e -> Forall (fun q => End q <= e) l.
Proof.
  induction l as [|q l IH]; intros s e H; constructor.
  - destruct H as (_ & _ & Hl). apply ascChain_le in Hl. lia.
  - destruct H as (_ & _ & Hl). exact (IH _ _ Hl).
Qed.

(** A date inside the chain falls into exactly one place of it. *)
Lemma ascChain_split l : forall s e d,
  ascChain s l e -> s <= d <= e ->
  exists pre q post,
    l = pre ++ q :: post
    /\ Forall (fun x => End x < d) pre
    /\ Start q <= d <= End q
    /\ Forall (fun x => d <= End x) (q :: post).
Proof.
  induction l as [|q l IH]; intros s e d H Hd; cbn in H; [lia|].
  destruct H as (Hq & Hs & Hl).
  destruct (Z_le_gt_dec d (End q)) as [Hle|Hgt].
  - exists [], q, l. repeat split; try lia; auto.
    constructor; [exact Hle|].
    apply ascChain_ends_ge in Hl.
    eapply Forall_impl; [|exact Hl]. cbn. intros. lia.
  - destruct (IH _ _ d Hl) as (pre & q' & post & -> & Hpre & Hq' & Hpost);
      [lia|].
    exists (q :: pre), q', post. repeat split; try lia; auto.
    constructor; [lia|exact Hpre].
Qed.

Lemma ascChain_covers l : forall s e d,
  ascChain s l e ->
  (exists q, In q l /\ Contains q d = true) <-> s <= d <= e.
Proof.
  assert (HC : forall q d, Contains q d = true <-> Start q <= d <= End q).
  { intros q d. unfold Contains, Before, After.
    rewrite andb_true_iff, !negb_true_iff, !Z.ltb_ge. tauto. }
  induction l as [|q l IH]; intros s e d H; cbn in H.
  - split; [intros (q & [] & _)|lia].
  - destruct H as (Hq & Hs & Hl). pose proof (ascChain_le _ _ _ Hl) as Hle.
    specialize (IH _ _ d Hl). split.
    + intros (x & [<-|Hin] & Hx).
      * apply HC in Hx. lia.
      * assert (End q + 1 <= d <= e) by (apply IH; eauto). lia.
    + intros Hd. destruct (Z_le_gt_dec d (End q)).
      * exists q. split; [now left|]. apply HC. lia.
      * destruct IH as [_ IH]. destruct IH as (x & Hin & Hx); [lia|].
        exists x. split; [now right|exact Hx].
Qed.

End Chains.

(** ** [sort.Search] finds the first index where the predicate holds *)

Section SearchFacts.

Variable n m : nat.
Variable f : nat -> outcome bool.
Variable g : nat -> bool.
Hypothesis f_total : forall h, (h < n)%nat -> f h = Returns (g h).
Hypothesis m_le : (m <= n)%nat.
Hypothesis g_below : forall i, (i < m)%nat -> g i = false.
Hypothesis g_above : forall i, (m <= i < n)%nat -> g i = true.

Lemma searchLoop_first fuel : forall i j,
  (i <= m <= j)%nat -> (j <= n)%nat -> (j - i <= fuel)%nat ->
  GoSort.searchLoop fuel f i j = Returns m.
Proof.
  induction fuel as [|fuel IH]; intros i j Hm Hj Hf; cbn [GoSort.searchLoop].
  - destruct (Nat.ltb_spec i j); [lia|]. f_equal. lia.
  - destruct (Nat.ltb_spec i j) as [Hlt|Hge]; [|f_equal; lia].
    assert (Hh : (i <= (i + j) / 2 < j)%nat).
    { pose proof (Nat.div_mod_eq (i + j) 2) as E.
      pose proof (Nat.mod_upper_bound (i + j) 2). lia. }
    rewrite f_total by lia.
    destruct (g ((i + j) / 2)) eqn:Hg.
    + apply IH; try lia.
      destruct (Nat.le_gt_cases m ((i + j) / 2)) as [|Hc]; [lia|].
      rewrite (g_below _ Hc) in Hg. discriminate.
    + apply IH; try lia.
      destruct (Nat.le_gt_cases m ((i + j) / 2)) as [Hc|]; [|lia].
      rewrite g_above in Hg by lia. discriminate.
Qed.

Lemma Search_first : GoSort.Search n f = Returns m.
Proof. unfold GoSort.Search. apply searchLoop_first; lia. Qed.

End SearchFacts.

(** ** [Align] on a list split at the date *)

Lemma Align_split part d A B :
  periods part = A ++ B ->
  Forall (fun x => End x < d) A ->
  Forall (fun x => d <= End x) B ->
  Align part d
  = Returns (match B with q :: _ => End q | [] => zeroTime end).
Proof.
  intros HP HA HB. unfold Align. rewrite HP.
  set (g := fun i => match nth_error (A ++ B) i with
                     | Some q => negb (Before (End q) d)
                     | None => false
                     end).
  rewrite (Search_first (List.length (A ++ B)) (List.length A) _ g).
  - destruct (Nat.ltb_spec (List.length A) (List.length (A ++ B))) as [Hlt|Hge].
    + rewrite nth_error_app2 by lia. rewrite Nat.sub_diag.
      destruct B; [rewrite length_app in Hlt; cbn in Hlt; lia|reflexivity].
    + rewrite length_app in Hge. destruct B; [reflexivity|cbn in Hge; lia].
  - intros h Hh. unfold g.
    destruct (nth_error (A ++ B) h) eqn:E; [reflexivity|].
    apply nth_error_None in E. lia.
  - rewrite length_app. lia.
  - intros i Hi. unfold g. rewrite nth_error_app1 by exact Hi.
    destruct (nth_error A i) eqn:E; [|reflexivity].
    apply nth_error_In in E. rewrite Forall_forall in HA.
    apply HA in E. unfold Before.
    apply negb_false_iff, Z.ltb_lt. exact E.
  - intros i Hi. unfold g. rewrite nth_error_app2 by lia.
    rewrite length_app in Hi.
    destruct (nth_error B (i - List.length A)) eqn:E.
    + apply nth_error_In in E. rewrite Forall_forall in HB.
      apply HB in E. unfold Before. apply negb_true_iff, Z.ltb_ge. exact E.
    + apply nth_error_None in E. lia.
Qed.

(** ** [NewPartition] and [Align] *)

(** The leading period: zero Start, ending the day before the span. *)
Definition beforePeriod (p : Period) : Period :=
  mkPeriod zeroTime (AddDate 0 0 (-1) (Start p)).

Lemma NewPartition_returns p itv last :
  Start p <> zeroTime ->
  exists real,
    NewPartition p itv last
    = Returns (mkPartition p itv (beforePeriod p :: real)).
Proof.
  intros Hz. unfold NewPartition, IsZero.
  destruct (Z.eqb_spec (Start p) 0) as [E|_]; [contradiction|].
  assert (Hl : exists l,
    match itv with
    | Once => Some [p]
    | _ => partitionLoop (partitionFuel p) p itv last (End p) 0 []
    end = Some l).
  { destruct itv; [eauto| | | | |];
      match goal with
      | |- context [partitionLoop _ _ ?i _ _ _ _] =>
          destruct (partitionLoop_returns p i last (partitionFuel p)
                      (End p) 0 []) as [l Hl];
          [unfold partitionFuel; lia|]; exists l; exact Hl
      end. }
  destruct Hl as [l ->]. exists (rev l).
  rewrite rev_app_distr. reflexivity.
Qed.

Lemma NewPartition_chain p itv :
  Start p <> zeroTime -> Start p <= End p ->
  exists real,
    NewPartition p itv 0
    = Returns (mkPartition p itv (beforePeriod p :: real))
    /\ ascChain (Start p) real (End p).
Proof.
  intros Hz Hle. unfold NewPartition, IsZero.
  destruct (Z.eqb_spec (Start p) 0) as [E|_]; [contradiction|].
  assert (Hl : exists l,
    match itv with
    | Once => Some [p]
    | _ => partitionLoop (partitionFuel p) p itv 0 (End p) 0 []
    end = Some l /\ descChain p (End p) l).
  { destruct itv;
      [exists [p]; cbn; repeat split; lia| | | | |];
      match goal with
      | |- context [partitionLoop _ _ ?i _ _ _ _] =>
          destruct (partitionLoop_chain p i (partitionFuel p) (End p) 0 [])
            as (l & Hl & Hc); [lia|unfold partitionFuel; lia|];
          exists l; split; [exact Hl|exact Hc]
      end. }
  destruct Hl as (l & -> & Hc). exists (rev l). split.
  - rewrite rev_app_distr. reflexivity.
  - apply descChain_rev. exact Hc.
Qed.

(** C1.  For a period [p] with non-zero Start not after End and any interval
    (Daily, Weekly, Monthly, Quarterly, Yearly, and Once as well),
    [NewPartition p itv 0] returns the leading 'before' period followed by a
    non-empty list [real] of periods such that: each period's End plus one
    day is the next period's Start; the first starts at [p.Start] and the
    last ends at [p.End]; a date lies in one of them exactly when it lies in
    [p.Start, p.End]; for such a date [Align] returns the End of the first
    period whose End is not before the date, and that period contains the
    date; every date after [p.End] is mapped to the zero time. *)
Theorem NewPartition_coverage (p : Period) (itv : Interval) :
  Start p <> zeroTime -> Start p <= End p ->
  exists real,
    let part := mkPartition p itv (beforePeriod p :: real) in
    NewPartition p itv 0 = Returns part
    /\ real <> []
    /\ contiguous (beforePeriod p :: real)
    /\ Start (hd (beforePeriod p) real) = Start p
    /\ End (last real (beforePeriod p)) = End p
    /\ (forall d, (exists q, In q real /\ Contains q d = true)
                  <-> Start p <= d <= End p)
    /\ (forall d, Start p <= d <= End p ->
          exists pre q post,
            real = pre ++ q :: post
            /\ Forall (fun x => Before (End x) d = true) (beforePeriod p :: pre)
            /\ Before (End q) d = false
            /\ Contains q d = true
            /\ Align part d = Returns (End q))
    /\ (forall d, End p < d -> Align part d = Returns zeroTime).
Proof.
  intros Hz Hle.
  destruct (NewPartition_chain p itv Hz Hle) as (real & HN & Hc).
  exists real. cbv zeta.
  pose proof (ascChain_nonempty _ _ _ Hc Hle) as Hne.
  pose proof (ascChain_hd _ _ _ (beforePeriod p) Hc Hne) as Hhd.
  split; [exact HN|]. split; [exact Hne|].
  split.
  { destruct real as [|q real]; [exact I|]. split.
    - cbn in Hhd. cbn [beforePeriod End]. rewrite !AddDate_days. lia.
    - exact (ascChain_contiguous _ _ _ Hc). }
  split; [exact Hhd|].
  split; [exact (ascChain_last _ _ _ _ Hc Hne)|].
  split; [intros d; apply (ascChain_covers _ _ _ d Hc)|].
  split.
  - intros d Hd.
    destruct (ascChain_split _ _ _ d Hc Hd)
      as (pre & q & post & E & Hpre & Hq & Hpost).
    exists pre, q, post.
    assert (Hb : End (beforePeriod p) < d)
      by (cbn [beforePeriod End]; rewrite AddDate_days; lia).
    split; [exact E|]. split.
    { constructor; [apply Z.ltb_lt; exact Hb|].
      eapply Forall_impl; [|exact Hpre]. intros a Ha. apply Z.ltb_lt, Ha. }
    split; [apply Z.ltb_ge; lia|]. split.
    { unfold Contains, Before, After.
      apply andb_true_iff. rewrite !negb_true_iff, !Z.ltb_ge. lia. }
    rewrite (Align_split _ d (beforePeriod p :: pre) (q :: post)).
    + reflexivity.
    + cbn [periods]. rewrite E. reflexivity.
    + constructor; [exact Hb|exact Hpre].
    + exact Hpost.
  - intros d Hd.
    rewrite (Align_split _ d (beforePeriod p :: real) []).
    + reflexivity.
    + cbn [periods]. now rewrite app_nil_r.
    + constructor.
      * cbn [beforePeriod End]. rewrite AddDate_days. lia.
      * pose proof (ascChain_ends_le _ _ _ Hc) as He.
        eapply Forall_impl; [|exact He]. cbn. intros. lia.
    + constructor.
Qed.

Definition witnessPeriod : Period :=
  mkPeriod (Date 2021 11 15) (Date 2022 1 10).

Lemma NewPartition_coverage_witness :
  Start witnessPeriod <> zeroTime /\ Start witnessPeriod <= End witnessPeriod
  /\ exists real,
       let part :=
         mkPartition witnessPeriod Monthly (beforePeriod witnessPeriod :: real)
       in
       NewPartition witnessPeriod Monthly 0 = Returns part
       /\ real <> []
       /\ contiguous (beforePeriod witnessPeriod :: real)
       /\ Start (hd (beforePeriod witnessPeriod) real) = Start witnessPeriod
       /\ End (last real (beforePeriod witnessPeriod)) = End witnessPeriod
       /\ (forall d, (exists q, In q real /\ Contains q d = true)
                     <-> Start witnessPeriod <= d <= End witnessPeriod)
       /\ (forall d, Start witnessPeriod <= d <= End witnessPeriod ->
             exists pre q post,
               real = pre ++ q :: post
               /\ Forall (fun x => Before (End x) d = true)
                    (beforePeriod witnessPeriod :: pre)
               /\ Before (End q) d = false
               /\ Contains q d = true
               /\ Align part d = Returns (End q))
       /\ (forall d, End witnessPeriod < d -> Align part d = Returns zeroTime).
Proof.
  split; [vm_compute; discriminate|].
  split; [vm_compute; discriminate|].
  apply (NewPartition_coverage witnessPeriod Monthly);
    vm_compute; discriminate.
Defined.

(** C9.  [NewPartition] panics whenever [period.Start] is the zero time, and
    for every period with a non-zero Start (whether or not Start is after
    End), every interval and every [last] it returns a partition whose list
    of periods begins with the 'before' period. *)
Theorem NewPartition_panics_iff_zero_start (p : Period) (itv : Interval)
    (last : Z) :
  (Start p = zeroTime ->
     NewPartition p itv last = Panics "can't create partition with zero time")
  /\ (Start p <> zeroTime ->
        exists real,
          NewPartition p itv last
          = Returns (mkPartition p itv (beforePeriod p :: real))).
Proof.
  split.
  - intros Hz. unfold NewPartition. rewrite Hz. reflexivity.
  - apply NewPartition_returns.
Qed.

Lemma NewPartition_panics_iff_zero_start_witness :
  NewPartition (mkPeriod zeroTime (Date 2022 1 10)) Monthly 3
  = Panics "can't create partition with zero time"
  /\ exists real,
       NewPartition witnessPeriod Weekly 3
       = Returns (mkPartition witnessPeriod Weekly
                    (beforePeriod witnessPeriod :: real)).
Proof.
  split.
  - apply (proj1 (NewPartition_panics_iff_zero_start
                    (mkPeriod zeroTime (Date 2022 1 10)) Monthly 3)).
    reflexivity.
  - apply (proj2 (NewPartition_panics_iff_zero_start witnessPeriod Weekly 3)).
    vm_compute. discriminate.
Defined.


(** ** More of lib/common/date: [Clip], [StartOf] and [EndOf], [Dates] *)

(** X1.  [Clip] is the intersection of the two periods: a time lies in
    [p.Clip(p2)] exactly when it lies in [p] and in [p2]. *)
Theorem Clip_Contains (p p2 : Period) (t : Time) :
  Contains (Clip p p2) t = Contains p t && Contains p2 t.
Proof.
  destruct p as [s e], p2 as [s2 e2].
  unfold Clip, Contains, After, Before. cbn [Start End].
  destruct (Z.ltb_spec s s2); cbn [Start End];
    destruct (Z.ltb_spec e2 e); cbn [Start End];
    repeat match goal with
    | |- context [?a <? ?b] => destruct (Z.ltb_spec a b)
    end; cbn; try reflexivity; lia.
Qed.

(** X2.  Every time lies in the interval [StartOf], [EndOf] give for it,
    for all six intervals. *)
Theorem StartOf_le_EndOf (d : Time) (p : Interval) :
  StartOf d p <= d <= EndOf d p
  /\ Contains (mkPeriod (StartOf d p) (EndOf d p)) d = true.
Proof.
  pose proof (StartOf_EndOf_bounds d p) as H. split; [exact H|].
  unfold Contains, Before, After. cbn [Start End].
  apply andb_true_iff. rewrite !negb_true_iff, !Z.ltb_ge. lia.
Qed.

(** X3.  The intervals tile the calendar: a time inside the interval of [d]
    has the same [StartOf] and [EndOf] as [d]; the day after [EndOf] is the
    [StartOf] of the next interval and the day before [StartOf] is the
    [EndOf] of the one before. *)
Theorem intervals_tile (d t : Time) (p : Interval) :
  (StartOf d p <= t <= EndOf d p ->
     StartOf t p = StartOf d p /\ EndOf t p = EndOf d p)
  /\ StartOf (AddDate 0 0 1 (EndOf d p)) p = AddDate 0 0 1 (EndOf d p)
  /\ EndOf (AddDate 0 0 (-1) (StartOf d p)) p
     = AddDate 0 0 (-1) (StartOf d p).
Proof.
  split; [apply interval_same|].
  rewrite !AddDate_days. apply interval_adjacent.
Qed.

Lemma intervals_tile_witness :
  let d := Date 2022 2 10 in
  let t := Date 2022 3 31 in
  StartOf d Quarterly <= t <= EndOf d Quarterly
  /\ StartOf t Quarterly = StartOf d Quarterly
  /\ EndOf t Quarterly = EndOf d Quarterly.
Proof.
  intros d t.
  assert (H : StartOf d Quarterly <= t <= EndOf d Quarterly)
    by (vm_compute; split; discriminate).
  split; [exact H|].
  exact (proj1 (intervals_tile d t Quarterly) H).
Defined.

Section DatesFacts.

Variable period : Period.
Variable itv : Interval.

(** [endsFrom s l]: the dates [l] ascend from [s] or later, a date before
    [period.End] being followed by more, and the last is [period.End]. *)
Fixpoint endsFrom (s : Time) (l : list Time) : Prop :=
  match l with
  | [] => End period < s
  | x :: l' =>
      s <= x <= End period
      /\ ((x = End period /\ l' = []) \/ (x < End period /\ endsFrom (x + 1) l'))
  end.

Lemma datesLoop_ends fuel : forall t res,
  (Z.to_nat (End period - t + 1) <= fuel)%nat ->
  exists l, datesLoop fuel period itv t res = Some (res ++ l)
            /\ endsFrom t l.
Proof.
  induction fuel as [|fuel IH]; intros t res Hf; cbn [datesLoop];
    unfold After at 1.
  - destruct (Z.ltb_spec (End period) t); [|lia].
    exists []. cbn. rewrite app_nil_r. auto.
  - destruct (Z.ltb_spec (End period) t) as [Hlt|Hge]; cbn [negb].
    + exists []. cbn. rewrite app_nil_r. auto.
    + rewrite AddDate_days.
      pose proof (StartOf_EndOf_bounds t itv) as [_ Hb].
      unfold After.
      destruct (Z.ltb_spec (End period) (EndOf t itv)) as [Hc|Hc].
      * destruct (IH (EndOf t itv + 1) (res ++ [End period]))
          as (l & Hl & Hch); [lia|].
        destruct l as [|x l]; [|cbn in Hch; lia].
        rewrite Hl. exists [End period]. rewrite app_nil_r.
        split; [reflexivity|]. cbn. split; [lia|]. left. auto.
      * destruct (IH (EndOf t itv + 1) (res ++ [EndOf t itv]))
          as (l & Hl & Hch); [lia|].
        rewrite Hl, <- app_assoc. exists (EndOf t itv :: l).
        split; [reflexivity|]. cbn. split; [lia|].
        destruct (Z.eq_dec (EndOf t itv) (End period)) as [E|Hne].
        -- left. split; [exact E|].
           destruct l as [|x l]; [reflexivity|]. cbn in Hch. lia.
        -- right. split; [lia|exact Hch].
Qed.

Lemma endsFrom_nonempty s l : endsFrom s l -> s <= End period -> l <> [].
Proof. destruct l; cbn; [lia|discriminate]. Qed.

Lemma endsFrom_empty s l : endsFrom s l -> End period < s -> l = [].
Proof. destruct l; cbn; [reflexivity|lia]. Qed.

Lemma endsFrom_bounds l : forall s,
  endsFrom s l -> Forall (fun x => s <= x <= End period) l.
Proof.
  induction l as [|x l IH]; intros s H; constructor.
  - cbn in H. lia.
  - destruct H as (Hx & [[_ ->]|[Hlt Hl]]); [constructor|].
    apply IH in Hl. eapply Forall_impl; [|exact Hl]. cbn. intros. lia.
Qed.

Lemma endsFrom_sorted l : forall s,
  endsFrom s l -> StronglySorted Z.lt l.
Proof.
  induction l as [|x l IH]; intros s H; constructor.
  - destruct H as (_ & [[_ ->]|[_ Hl]]); [constructor|exact (IH _ Hl)].
  - destruct H as (_ & [[_ ->]|[_ Hl]]); [constructor|].
    apply endsFrom_bounds in Hl.
    eapply Forall_impl; [|exact Hl]. cbn. intros. lia.
Qed.

Lemma endsFrom_last l : forall s dflt,
  endsFrom s l -> l <> [] -> last l dflt = End period.
Proof.
  induction l as [|x l IH]; intros s dflt H Hne; [congruence|].
  destruct H as (_ & [[-> ->]|[Hx Hl]]); [reflexivity|].
  destruct l as [|y l]; [cbn in Hl; lia|].
  change (last (x :: y :: l) dflt) with (last (y :: l) dflt).
  apply (IH _ _ Hl). discriminate.
Qed.

End DatesFacts.

Lemma skipn_last {A : Type} (l : list A) (k : nat) (dflt : A) :
  (k < List.length l)%nat -> last (skipn k l) dflt = last l dflt.
Proof.
  revert k. induction l as [|x l IH]; intros k Hk; [cbn in Hk; lia|].
  destruct k as [|k]; [reflexivity|]. cbn [skipn].
  rewrite IH by (cbn in Hk; lia).
  destruct l; [cbn in Hk; lia|reflexivity].
Qed.

Lemma skipn_StronglySorted {A : Type} (R : A -> A -> Prop) (l : list A) :
  forall k, StronglySorted R l -> StronglySorted R (skipn k l).
Proof.
  induction l as [|x l IH]; intros [|k] H; cbn [skipn]; try assumption.
  apply IH. apply StronglySorted_inv in H. tauto.
Qed.

Lemma skipn_Forall {A : Type} (P : A -> Prop) (l : list A) (k : nat) :
  Forall P l -> Forall P (skipn k l).
Proof.
  intros H. rewrite <- (firstn_skipn k l) in H.
  apply Forall_app in H. tauto.
Qed.

(** X4.  [Dates] always returns.  With [Once] it is the period's End alone.
    Otherwise, for a period with Start not after End, the dates are
    strictly ascending, lie between Start and End, end with the period's
    End, and are at most [n] when [n] is positive; for a period with Start
    after End there is none. *)
Theorem Dates_ascending_to_End (period : Period) (p : Interval) (n : Z) :
  exists l,
    Dates period p n = Returns l
    /\ (p = Once -> l = [End period])
    /\ (p <> Once -> Start period <= End period ->
          l <> [] /\ last l 0 = End period
          /\ StronglySorted Z.lt l
          /\ Forall (fun x => Start period <= x <= End period) l
          /\ (0 < n -> Z.of_nat (List.length l) <= n))
    /\ (p <> Once -> End period < Start period -> l = []).
Proof.
  unfold Dates. destruct (Interval_eqb p Once) eqn:Ep.
  - exists [End period]. split; [reflexivity|].
    assert (p = Once) by (destruct p; cbn in Ep; congruence).
    repeat split; congruence.
  - assert (Hp : p <> Once) by (intros ->; discriminate).
    destruct (datesLoop_ends period p (partitionFuel period) (Start period)
                []) as (l & -> & Hch); [unfold partitionFuel; lia|].
    cbn [app].
    destruct ((0 <? n) && (n <? Z.of_nat (List.length l))) eqn:En.
    + apply andb_true_iff in En as [En1 En2].
      apply Z.ltb_lt in En1, En2.
      exists (skipn (List.length l - Z.to_nat n) l).
      split; [reflexivity|]. split; [congruence|]. split.
      * intros _ Hse.
        assert (Hk : (List.length l - Z.to_nat n < List.length l)%nat)
          by lia.
        split.
        { intros E. apply (f_equal (@List.length _)) in E.
          rewrite length_skipn in E. cbn in E. lia. }
        split.
        { rewrite skipn_last by exact Hk.
          apply (endsFrom_last period _ _ _ Hch).
          apply (endsFrom_nonempty period _ _ Hch Hse). }
        split; [apply skipn_StronglySorted;
                exact (endsFrom_sorted period _ _ Hch)|].
        split; [apply skipn_Forall; exact (endsFrom_bounds period _ _ Hch)|].
        intros _. rewrite length_skipn. lia.
      * intros _ Hlt. rewrite (endsFrom_empty period _ _ Hch Hlt).
        apply skipn_nil.
    + exists l. split; [reflexivity|]. split; [congruence|]. split.
      * intros _ Hse. split; [exact (endsFrom_nonempty period _ _ Hch Hse)|].
        split.
        { apply (endsFrom_last period _ _ _ Hch).
          apply (endsFrom_nonempty period _ _ Hch Hse). }
        split; [exact (endsFrom_sorted period _ _ Hch)|].
        split; [exact (endsFrom_bounds period _ _ Hch)|].
        intros Hn. apply andb_false_iff in En as [En|En].
        -- apply Z.ltb_ge in En. lia.
        -- apply Z.ltb_ge in En. lia.
      * intros _ Hlt. exact (endsFrom_empty period _ _ Hch Hlt).
Qed.

Lemma Dates_ascending_to_End_witness :
  exists l,
    Dates witnessPeriod Weekly 3 = Returns l
    /\ l <> [] /\ last l 0 = End witnessPeriod
    /\ StronglySorted Z.lt l
    /\ Forall (fun x => Start witnessPeriod <= x <= End witnessPeriod) l
    /\ Z.of_nat (List.length l) <= 3.
Proof.
  destruct (Dates_ascending_to_End witnessPeriod Weekly 3)
    as (l & Hl & _ & H & _).
  exists l. split; [exact Hl|].
  destruct H as (H1 & H2 & H3 & H4 & H5);
    [discriminate|vm_compute; discriminate|].
  repeat split; auto. apply H5. lia.
Defined.

(** ** [NewPartition] with a limit on the number of periods *)

Lemma partitionLoop_prefix period itv last fuel : forall e c acc r,
  partitionLoop fuel period itv last e c acc = Some r ->
  exists l, r = acc ++ l.
Proof.
  induction fuel as [|fuel IH]; intros e c acc r H; cbn [partitionLoop] in H;
    destruct (negb (Before e (Start period))
              && negb ((last <=? c) && (0 <? last))).
  - discriminate.
  - injection H as <-. exists []. now rewrite app_nil_r.
  - apply IH in H as [l ->]. rewrite <- app_assoc. eauto.
  - injection H as <-. exists []. now rewrite app_nil_r.
Qed.

(** The limited loop finds the first periods the unlimited loop finds. *)
Lemma partitionLoop_limited period itv last fuel : forall e c acc c0 acc0 l,
  0 < last -> c <= last ->
  partitionLoop fuel period itv 0 e c0 acc0 = Some (acc0 ++ l) ->
  partitionLoop fuel period itv last e c acc
  = Some (acc ++ firstn (Z.to_nat (last - c)) l).
Proof.
  induction fuel as [|fuel IH]; intros e c acc c0 acc0 l Hl Hc H;
    cbn [partitionLoop] in *;
    rewrite andb_false_r, andb_true_r in H;
    destruct (negb (Before e (Start period))) eqn:Eb; cbn [andb] in *.
  - discriminate.
  - assert (E : acc0 ++ [] = acc0 ++ l) by (rewrite app_nil_r; congruence).
    apply app_inv_head in E. subst l.
    rewrite firstn_nil, app_nil_r. reflexivity.
  - destruct (partitionLoop_prefix _ _ _ _ _ _ _ _ H) as [l1 E].
    rewrite <- app_assoc in E. apply app_inv_head in E.
    subst l. rewrite app_assoc in H.
    destruct (Z.leb_spec last c) as [Hge|Hlt];
      destruct (Z.ltb_spec 0 last) as [_|]; try lia; cbn [andb negb].
    + replace (last - c) with 0 by lia. cbn. now rewrite app_nil_r.
    + rewrite (IH _ (c + 1) _ (c0 + 1) _ l1 Hl) by (try lia; exact H).
      rewrite <- app_assoc. cbn [app].
      replace (Z.to_nat (last - c)) with (S (Z.to_nat (last - (c + 1))))
        by lia.
      reflexivity.
  - assert (E : acc0 ++ [] = acc0 ++ l) by (rewrite app_nil_r; congruence).
    apply app_inv_head in E. subst l.
    rewrite firstn_nil, app_nil_r. reflexivity.
Qed.

Lemma rev_firstn_skipn {A : Type} (l : list A) (k : nat) :
  rev (firstn k l) = skipn (List.length l - k) (rev l).
Proof.
  destruct (le_lt_dec k (List.length l)) as [Hle|Hgt].
  - rewrite skipn_rev. f_equal. f_equal. lia.
  - rewrite firstn_all2 by lia.
    replace (List.length l - k)%nat with 0%nat by lia. reflexivity.
Qed.

Lemma NewPartition_limited (p : Period) (itv : Interval) (last : Z)
    (real : list Period) :
  0 < last ->
  NewPartition p itv 0 = Returns (mkPartition p itv (beforePeriod p :: real)) ->
  NewPartition p itv last
  = Returns (mkPartition p itv
               (beforePeriod p
                :: skipn (List.length real - Z.to_nat last) real)).
Proof.
  intros Hl H. unfold NewPartition in *.
  destruct (IsZero (Start p)); [discriminate|].
  destruct itv.
  1:{ cbn [app rev] in H. injection H as <-. cbn [List.length app rev].
      replace (1 - Z.to_nat last)%nat with 0%nat by lia. reflexivity. }
  all: match type of H with
       | context [partitionLoop ?f ?pp ?i 0 ?e 0 []] =>
           destruct (partitionLoop f pp i 0 e 0 []) as [l|] eqn:El;
           [|discriminate];
           rewrite (partitionLoop_limited pp i last f e 0 [] 0 [] l Hl
                      ltac:(lia) El)
       end;
    injection H as H; rewrite rev_app_distr in H; cbn [rev app] in H;
    injection H as <-;
    cbn [app]; rewrite rev_app_distr; cbn [rev app];
    rewrite rev_firstn_skipn, length_rev, Z.sub_0_r; reflexivity.
Qed.

Lemma partitionLoop_nonpos period itv last fuel : forall e c acc,
  last <= 0 ->
  partitionLoop fuel period itv last e c acc
  = partitionLoop fuel period itv 0 e c acc.
Proof.
  induction fuel as [|fuel IH]; intros e c acc Hl; cbn [partitionLoop];
    destruct (Z.ltb_spec 0 last) as [|_]; try lia;
    rewrite !andb_false_r; [reflexivity|].
  destruct (negb (Before e (Start period)) && negb false); [|reflexivity].
  apply IH. exact Hl.
Qed.

Lemma NewPartition_nonpos p itv last :
  last <= 0 -> NewPartition p itv last = NewPartition p itv 0.
Proof.
  intros Hl. unfold NewPartition.
  destruct (IsZero (Start p)); [reflexivity|].
  destruct itv; try reflexivity;
    rewrite (partitionLoop_nonpos _ _ last) by exact Hl; reflexivity.
Qed.

(** X5.  A positive [last] keeps the last [last] periods of the partition
    that [last] = 0 gives, after the same leading period (all of them when
    there are no more than [last]); a negative [last] is no limit, as 0. *)
Theorem NewPartition_keeps_last (p : Period) (itv : Interval) (last : Z)
    (real : list Period) :
  NewPartition p itv 0 = Returns (mkPartition p itv (beforePeriod p :: real)) ->
  NewPartition p itv last
  = Returns (mkPartition p itv
               (beforePeriod p
                :: (if 0 <? last
                    then skipn (List.length real - Z.to_nat last) real
                    else real))).
Proof.
  intros H. destruct (Z.ltb_spec 0 last) as [Hl|Hl].
  - apply NewPartition_limited; assumption.
  - rewrite NewPartition_nonpos by exact Hl. exact H.
Qed.

Lemma NewPartition_keeps_last_witness :
  NewPartition witnessPeriod Monthly 2
  = Returns (mkPartition witnessPeriod Monthly
      [ beforePeriod witnessPeriod;
        mkPeriod (Date 2021 12 1) (Date 2021 12 31);
        mkPeriod (Date 2022 1 1) (Date 2022 1 10) ]).
Proof.
  apply (NewPartition_keeps_last witnessPeriod Monthly 2
           [ mkPeriod (Date 2021 11 15) (Date 2021 11 30);
             mkPeriod (Date 2021 12 1) (Date 2021 12 31);
             mkPeriod (Date 2022 1 1) (Date 2022 1 10) ]).
  vm_compute. reflexivity.
Defined.

(** ** [Dates] and the ends of the periods of [NewPartition] *)

Section DatesOfPartition.

Variable period : Period.
Variable itv : Interval.

(** A period ends with the interval of its Start, or with the span. *)
Definition endsInterval (q : Period) : Prop :=
  End q = Z.min (EndOf (Start q) itv) (End period).

Lemma partitionLoop_endsInterval fuel : forall e c acc l,
  partitionLoop fuel period itv 0 e c acc = Some (acc ++ l) ->
  e <= End period ->
  (Start period <= e -> EndOf e itv = e \/ e = End period) ->
  Forall endsInterval l.
Proof.
  induction fuel as [|fuel IH]; intros e c acc l H He Hal;
    cbn [partitionLoop] in H; rewrite andb_false_r, andb_true_r in H;
    unfold Before in H at 1;
    destruct (Z.ltb_spec e (Start period)) as [Hlt|Hge]; cbn [negb] in H;
    try discriminate;
    try (assert (E : acc ++ [] = acc ++ l)
           by (rewrite app_nil_r; congruence);
         apply app_inv_head in E; subst l; constructor).
  fold (clampedStart period itv e) in H. rewrite AddDate_days in H.
  pose proof (clampedStart_bounds period itv e Hge) as Hb.
  destruct (partitionLoop_prefix _ _ _ _ _ _ _ _ H) as [l1 E].
  rewrite <- app_assoc in E. apply app_inv_head in E. subst l.
  rewrite app_assoc in H.
  assert (Hs : StartOf e itv <= clampedStart period itv e <= EndOf e itv).
  { pose proof (StartOf_EndOf_bounds e itv). unfold clampedStart, Before.
    destruct (Z.ltb_spec (StartOf e itv) (Start period)); lia. }
  constructor.
  - unfold endsInterval. cbn [Start End].
    destruct (interval_same e (clampedStart period itv e) itv Hs) as [_ ->].
    pose proof (StartOf_EndOf_bounds e itv).
    destruct (Hal Hge) as [E|E]; lia.
  - apply (IH _ _ _ _ H); [lia|].
    intros Hge'. left.
    assert (Hc : clampedStart period itv e = StartOf e itv).
    { unfold clampedStart, Before in *.
      destruct (Z.ltb_spec (StartOf e itv) (Start period)); [lia|reflexivity]. }
    rewrite Hc.
    replace (StartOf e itv + -1) with (StartOf e itv - 1) by lia.
    apply interval_adjacent.
Qed.

(** Walking forward, [Dates] meets the ends of an ascending chain of
    periods that end with their intervals. *)
Lemma datesLoop_chain real : forall fuel s res,
  ascChain s real (End period) -> Forall endsInterval real ->
  (Z.to_nat (End period - s + 1) <= fuel)%nat ->
  datesLoop fuel period itv s res = Some (res ++ map End real).
Proof.
  induction real as [|q real IH]; intros fuel s res Hc Ha Hf.
  - cbn in Hc. destruct fuel; cbn [datesLoop]; unfold After;
      destruct (Z.ltb_spec (End period) s); try lia;
      cbn; now rewrite app_nil_r.
  - destruct Hc as (Hq & Hs & Hc). apply Forall_cons_iff in Ha as [Hq' Ha].
    pose proof (ascChain_le _ _ _ Hc) as Hle.
    destruct fuel as [|fuel]; [lia|]. cbn [datesLoop]. unfold After at 1.
    destruct (Z.ltb_spec (End period) s) as [|_]; [lia|]. cbn [negb].
    unfold endsInterval in Hq'. rewrite Hq in Hq'.
    rewrite AddDate_days. unfold After.
    destruct (Z.ltb_spec (End period) (EndOf s itv)) as [Hlt|Hge].
    + assert (Eq : End q = End period) by lia.
      assert (real = []).
      { destruct real as [|q' real]; [reflexivity|].
        destruct Hc as (Hs' & Hle' & Hc). apply ascChain_le in Hc. lia. }
      subst real. cbn [map]. rewrite Eq.
      destruct fuel; cbn [datesLoop]; unfold After;
        destruct (Z.ltb_spec (End period) (EndOf s itv + 1)); try lia;
        reflexivity.
    + assert (Eq : End q = EndOf s itv) by lia.
      rewrite <- Eq.
      rewrite (IH fuel (End q + 1) (res ++ [End q]) Hc Ha) by lia.
      rewrite <- app_assoc. reflexivity.
Qed.

End DatesOfPartition.

Lemma Dates_of_chain p itv real :
  itv <> Once -> ascChain (Start p) real (End p) ->
  Forall (endsInterval p itv) real ->
  forall n,
    Dates p itv n
    = Returns (if (0 <? n) && (n <? Z.of_nat (List.length real))
               then skipn (List.length real - Z.to_nat n) (map End real)
               else map End real).
Proof.
  intros Hi Hc Ha n. unfold Dates.
  replace (Interval_eqb itv Once) with false
    by (destruct itv; try reflexivity; contradiction).
  rewrite (datesLoop_chain p itv real _ (Start p) [] Hc Ha)
    by (unfold partitionFuel; lia).
  cbn [app]. rewrite length_map.
  destruct ((0 <? n) && (n <? Z.of_nat (List.length real))); reflexivity.
Qed.

Lemma NewPartition_aligned p itv :
  Start p <> zeroTime -> Start p <= End p -> itv <> Once ->
  exists real,
    NewPartition p itv 0
    = Returns (mkPartition p itv (beforePeriod p :: real))
    /\ ascChain (Start p) real (End p)
    /\ Forall (endsInterval p itv) real.
Proof.
  intros Hz Hle Hi. unfold NewPartition, IsZero.
  destruct (Z.eqb_spec (Start p) 0) as [|_]; [contradiction|].
  destruct (partitionLoop_chain p itv (partitionFuel p) (End p) 0 [])
    as (l & Hl & Hc); [lia|unfold partitionFuel; lia|].
  pose proof (partitionLoop_endsInterval p itv _ _ _ _ _ Hl (Z.le_refl _)
                (fun _ => or_intror eq_refl)) as Ha.
  exists (rev l). split; [|split].
  - destruct itv; try congruence; rewrite Hl, rev_app_distr; reflexivity.
  - apply descChain_rev. exact Hc.
  - apply Forall_rev. exact Ha.
Qed.

(** X6.  For a period with non-zero Start not after End, the dates of
    [Dates] are the End dates of the periods of [NewPartition], for the
    same interval and the same limit. *)
Theorem Dates_are_partition_EndDates (p : Period) (itv : Interval) (n : Z) :
  Start p <> zeroTime -> Start p <= End p ->
  exists part,
    NewPartition p itv n = Returns part
    /\ EndDates part = Dates p itv n.
Proof.
  intros Hz Hle.
  destruct (Interval_eqb itv Once) eqn:Ei.
  { assert (itv = Once) by (destruct itv; cbn in Ei; congruence). subst itv.
    unfold NewPartition, IsZero.
    destruct (Z.eqb_spec (Start p) 0) as [|_]; [contradiction|].
    eexists. split; [reflexivity|]. reflexivity. }
  assert (Hi : itv <> Once) by (intros ->; discriminate).
  destruct (NewPartition_aligned p itv Hz Hle Hi) as (real & HN & Hc & Ha).
  rewrite (Dates_of_chain p itv real Hi Hc Ha n).
  destruct (Z.ltb_spec 0 n) as [Hn|Hn]; cbn [andb].
  - rewrite (NewPartition_limited p itv n real Hn HN).
    eexists. split; [reflexivity|].
    unfold EndDates. cbn [periods].
    destruct (Z.ltb_spec n (Z.of_nat (List.length real))).
    + rewrite skipn_map. reflexivity.
    + replace (List.length real - Z.to_nat n)%nat with 0%nat by lia.
      reflexivity.
  - rewrite (NewPartition_nonpos p itv n Hn), HN.
    eexists. split; reflexivity.
Qed.

Lemma Dates_are_partition_EndDates_witness :
  exists part,
    NewPartition witnessPeriod Quarterly 2 = Returns part
    /\ EndDates part = Dates witnessPeriod Quarterly 2.
Proof.
  apply (Dates_are_partition_EndDates witnessPeriod Quarterly 2);
    vm_compute; discriminate.
Defined.

(** X7.  On the partition that [NewPartition] gives without a limit, for
    an interval other than Once, [Align] sends a date before the span to
    the day before [p.Start] (the End of the leading period), a date of the
    span to the end of its own interval, or to [p.End] when the interval
    ends later, and a date after the span to the zero time. *)
Theorem Align_interval_end (p : Period) (itv : Interval) (d : Time) :
  Start p <> zeroTime -> Start p <= End p -> itv <> Once ->
  exists part,
    NewPartition p itv 0 = Returns part
    /\ Align part d
       = Returns (if Before d (Start p) then AddDate 0 0 (-1) (Start p)
                  else if After d (End p) then zeroTime
                  else if After (EndOf d itv) (End p) then End p
                  else EndOf d itv).
Proof.
  intros Hz Hle Hi.
  destruct (NewPartition_aligned p itv Hz Hle Hi) as (real & HN & Hc & Ha).
  eexists. split; [exact HN|].
  unfold Before, After.
  destruct (Z.ltb_spec d (Start p)) as [Hlt|Hge].
  - rewrite (Align_split _ d [] (beforePeriod p :: real)).
    + reflexivity.
    + reflexivity.
    + constructor.
    + constructor.
      * cbn [beforePeriod End]. rewrite AddDate_days. lia.
      * pose proof (ascChain_ends_ge _ _ _ Hc) as He.
        eapply Forall_impl; [|exact He]. cbn. intros. lia.
  - destruct (Z.ltb_spec (End p) d) as [Hgt|Hin].
    + rewrite (Align_split _ d (beforePeriod p :: real) []).
      * reflexivity.
      * cbn [periods]. now rewrite app_nil_r.
      * constructor.
        -- cbn [beforePeriod End]. rewrite AddDate_days. lia.
        -- pose proof (ascChain_ends_le _ _ _ Hc) as He.
           eapply Forall_impl; [|exact He]. cbn. intros. lia.
      * constructor.
    + destruct (ascChain_split _ _ _ d Hc (conj Hge Hin))
        as (pre & q & post & E & Hpre & Hq & Hpost).
      rewrite (Align_split _ d (beforePeriod p :: pre) (q :: post)).
      * f_equal.
        assert (Hqa : endsInterval p itv q).
        { rewrite Forall_forall in Ha. apply Ha. rewrite E.
          apply in_or_app. right. left. reflexivity. }
        unfold endsInterval in Hqa.
        assert (Hsame : EndOf d itv = EndOf (Start q) itv).
        { pose proof (StartOf_EndOf_bounds (Start q) itv).
          apply (interval_same (Start q) d itv). lia. }
        rewrite Hsame.
        destruct (Z.ltb_spec (End p) (EndOf (Start q) itv)); lia.
      * cbn [periods]. rewrite E. reflexivity.
      * constructor; [|exact Hpre].
        cbn [beforePeriod End]. rewrite AddDate_days. lia.
      * exact Hpost.
Qed.

Lemma Align_interval_end_witness :
  exists part,
    NewPartition witnessPeriod Monthly 0 = Returns part
    /\ Align part (Date 2021 12 5)
       = Returns (if Before (Date 2021 12 5) (Start witnessPeriod)
                  then AddDate 0 0 (-1) (Start witnessPeriod)
                  else if After (Date 2021 12 5) (End witnessPeriod)
                       then zeroTime
                  else if After (EndOf (Date 2021 12 5) Monthly)
                            (End witnessPeriod)
                       then End witnessPeriod
                  else EndOf (Date 2021 12 5) Monthly).
Proof.
  apply (Align_interval_end witnessPeriod Monthly (Date 2021 12 5));
    vm_compute; discriminate.
Defined.

Lemma ascChain_skipn l : forall s e m,
  ascChain s l e -> (m < List.length l)%nat ->
  exists q rest,
    skipn m l = q :: rest /\ s <= Start q
    /\ ascChain (Start q) (q :: rest) e.
Proof.
  induction l as [|a l IH]; intros s e m H Hm; cbn in Hm; [lia|].
  destruct m as [|m].
  - exists a, l. cbn [skipn]. destruct H as (Ha & Hs & Hl).
    split; [reflexivity|]. split; [lia|].
    cbn. repeat split; [lia|exact Hl].
  - destruct H as (Ha & Hs & Hl).
    destruct (IH _ _ m Hl) as (q & rest & E & Hq & Hc); [lia|].
    exists q, rest. cbn [skipn]. split; [exact E|]. split; [lia|exact Hc].
Qed.

(** X18.  With a limit [last] > 0 and an interval other than Once, the
    partition keeps its leading period and at least one more; [Align]
    then sends a date of the span to the end of its own interval (or to
    [p.End] when the interval ends later) when that is in a period kept,
    and every earlier date of the span to the End of the first period
    kept, not to the leading period. *)
Theorem Align_with_limit (p : Period) (itv : Interval) (last : Z)
    (d : Time) :
  Start p <> zeroTime -> Start p <= End p -> itv <> Once -> 0 < last ->
  Start p <= d <= End p ->
  exists q rest,
    NewPartition p itv last
    = Returns (mkPartition p itv (beforePeriod p :: q :: rest))
    /\ Start p <= Start q
    /\ Align (mkPartition p itv (beforePeriod p :: q :: rest)) d
       = Returns (Z.max (End q) (Z.min (EndOf d itv) (End p))).
Proof.
  intros Hz Hle Hi Hl Hd.
  destruct (NewPartition_aligned p itv Hz Hle Hi) as (real & HN & Hc & Ha).
  pose proof (ascChain_nonempty _ _ _ Hc Hle) as Hne.
  destruct (ascChain_skipn real _ _
              (List.length real - Z.to_nat last) Hc)
    as (q & rest & Es & Hq & Hcq).
  { destruct real; [congruence|]. cbn [List.length]. lia. }
  exists q, rest.
  split; [rewrite (NewPartition_limited p itv last real Hl HN), Es;
          reflexivity|].
  split; [exact Hq|].
  assert (Ha' : Forall (endsInterval p itv) (q :: rest))
    by (rewrite <- Es; apply skipn_Forall; exact Ha).
  assert (Hb : End (beforePeriod p) < d)
    by (cbn [beforePeriod End]; rewrite AddDate_days; lia).
  destruct (Z_lt_ge_dec d (Start q)) as [Hlt|Hge].
  - rewrite (Align_split _ d [beforePeriod p] (q :: rest)).
    + f_equal. apply Forall_cons_iff in Ha' as [Hqa _].
      unfold endsInterval in Hqa.
      pose proof (StartOf_EndOf_bounds d itv) as Hbd.
      destruct (Z_lt_ge_dec (EndOf d itv) (Start q)) as [Hbefore|Hover].
      * destruct Hcq as (_ & Hsq & _). lia.
      * destruct (interval_same d (Start q) itv) as [_ Hsame]; [lia|].
        rewrite Hsame in Hqa. lia.
    + reflexivity.
    + constructor; [exact Hb|constructor].
    + pose proof (ascChain_ends_ge _ _ _ Hcq) as He.
      eapply Forall_impl; [|exact He]. cbn beta. intros. lia.
  - destruct (ascChain_split _ _ _ d Hcq)
      as (pre & q' & post & E & Hpre & Hq' & Hpost); [lia|].
    rewrite (Align_split _ d (beforePeriod p :: pre) (q' :: post)).
    + f_equal.
      assert (Hqa : endsInterval p itv q').
      { rewrite Forall_forall in Ha'. apply Ha'. rewrite E.
        apply in_or_app. right. left. reflexivity. }
      unfold endsInterval in Hqa.
      assert (Hsame : EndOf d itv = EndOf (Start q') itv).
      { pose proof (StartOf_EndOf_bounds (Start q') itv).
        apply (interval_same (Start q') d itv). lia. }
      rewrite Hsame.
      assert (Hfirst : End q <= End q').
      { destruct pre as [|a pre]; cbn [app] in E.
        - injection E as -> _. lia.
        - injection E as -> _. apply Forall_cons_iff in Hpre as [Hpa _]. lia. }
      lia.
    + cbn [periods]. rewrite E. reflexivity.
    + constructor; [exact Hb|exact Hpre].
    + exact Hpost.
Qed.

Lemma Align_with_limit_witness :
  exists q rest,
    NewPartition witnessPeriod Monthly 2
    = Returns (mkPartition witnessPeriod Monthly
                 (beforePeriod witnessPeriod :: q :: rest))
    /\ Start witnessPeriod <= Start q
    /\ Align (mkPartition witnessPeriod Monthly
                (beforePeriod witnessPeriod :: q :: rest)) (Date 2021 11 20)
       = Returns (Z.max (End q)
                    (Z.min (EndOf (Date 2021 11 20) Monthly)
                       (End witnessPeriod))).
Proof.
  apply (Align_with_limit witnessPeriod Monthly 2 (Date 2021 11 20));
    vm_compute; try discriminate; split; discriminate.
Defined.

Example align_monthly_last2 :
  match NewPartition witnessPeriod Monthly 2 with
  | Returns part => (Align part (Date 2021 11 20), Align part (Date 2021 12 5))
  | _ => (OutOfFuel, OutOfFuel)
  end
  = (Returns (Date 2021 12 31), Returns (Date 2021 12 31)).
Proof. vm_compute. reflexivity. Qed.
(** ** The period filter on the scenario of [TestPeriodFilter] *)

Module PeriodFilterScenario.

(** A transaction of the test carries only its date. *)
Definition Transaction : Type := Time.
(** [amounts.Amounts]: (account, commodity) keys with their value. *)
Definition Amounts : Type := list (string * string * Z).

Definition datedTrx (y m d : Z) : Transaction := Date y m d.

Definition day (y m d : Z) (v : Z) (trx : list Transaction)
  : ast.Day Transaction Amounts :=
  ast.mkDay (Date y m d) trx [] [("account1"%string, "commodity1"%string, v)].

Definition sut : process.PeriodFilter :=
  process.mkPeriodFilter zeroTime (Date 2022 1 10) Monthly 5.

Definition input : list (ast.Day Transaction Amounts) :=
  [ day 2021 1 1 100 [datedTrx 2021 1 1];
    day 2022 1 1 200 [datedTrx 2022 1 1];
    day 2022 1 4 300 [datedTrx 2022 1 4] ].

(** The calendar month [m] of year [y]. *)
Definition month (y m : Z) : date.Period :=
  date.mkPeriod (Date y m 1) (AddDate 0 1 (-1) (Date y m 1)).

Definition months2021 : list date.Period :=
  map (month 2021) [1; 2; 3; 4; 5; 6; 7; 8; 9; 10; 11; 12] ++ [month 2022 1].

Definition value (v : Z) : Amounts := [("account1"%string, "commodity1"%string, v)].

End PeriodFilterScenario.

Import PeriodFilterScenario.

Example specPeriods_scenario :
  specPeriods (Date 2021 1 1) (Date 2022 1 10) Monthly = months2021.
Proof. vm_compute. reflexivity. Qed.

(** [Process] reads [date.Periods] only through its values. *)
Section PeriodsExt.

Variable Transaction Amounts : Type.
Variable nilAmounts : Amounts.
Variable P P' : Time -> Time -> Interval -> list date.Period.
Variable today : Time.
Hypothesis P_eq : forall from to itv, P from to itv = P' from to itv.

Lemma computeDates_ext pf t :
  process.computeDates P today pf t = process.computeDates P' today pf t.
Proof. unfold process.computeDates. rewrite P_eq. reflexivity. Qed.

Lemma step_ext pf day st out :
  process.step Transaction Amounts nilAmounts P today pf day st out
  = process.step Transaction Amounts nilAmounts P' today pf day st out.
Proof. unfold process.step. rewrite computeDates_ext. reflexivity. Qed.

Lemma run_ext pf input : forall st out,
  process.run Transaction Amounts nilAmounts P today pf input st out
  = process.run Transaction Amounts nilAmounts P' today pf input st out.
Proof.
  induction input as [|day rest IH]; intros st out; cbn [process.run].
  - reflexivity.
  - rewrite step_ext.
    destruct (process.step _ _ _ _ _ _ _ _ _) as [[st' out']| |];
      [apply IH|reflexivity|reflexivity].
Qed.

End PeriodsExt.

(** C2.  Monthly interval, To = 2022-01-10, Last = 5, transactions on
    2021-01-01 (value 100), 2022-01-01 (200) and 2022-01-04 (300): provided
    [date.Periods] yields the calendar months January 2021 to January 2022
    for the clamped range, [Process] pushes exactly five Periods, ending
    2021-09-30, 2021-10-31, 2021-11-30, 2021-12-31 and 2022-01-31, with
    Values 100, 100, 100, 100 and 300: a period without activity carries
    the last snapshot forward. *)
Theorem PeriodFilter_carry_forward
    (Periods : Time -> Time -> Interval -> list date.Period) (today : Time) :
  Periods (Date 2021 1 1) (Date 2022 1 10) Monthly = months2021 ->
  exists out,
    process.Process Transaction Amounts [] Periods today sut input
    = Returns out
    /\ map (fun a => End (ast.Period_ a)) out
       = [Date 2021 9 30; Date 2021 10 31; Date 2021 11 30; Date 2021 12 31;
          Date 2022 1 31]
    /\ map ast.Values out
       = [value 100; value 100; value 100; value 100; value 300]
    /\ map ast.PrevValues out
       = [value 100; value 100; value 100; value 100; value 100]
    /\ map (fun a => map ast.Date (ast.Days a)) out
       = [[]; []; []; []; [Date 2022 1 1; Date 2022 1 4]].
Proof.
  intros HP.
  set (P' := fun from to itv =>
    if (from =? Date 2021 1 1) && (to =? Date 2022 1 10)
       && Interval_eqb itv Monthly
    then months2021 else Periods from to itv).
  assert (HP' : forall from to itv, Periods from to itv = P' from to itv).
  { intros from to itv. unfold P'.
    destruct (Z.eqb_spec from (Date 2021 1 1)) as [->|]; [|reflexivity].
    destruct (Z.eqb_spec to (Date 2022 1 10)) as [->|]; [|reflexivity].
    destruct itv; try reflexivity. exact HP. }
  unfold process.Process.
  rewrite (run_ext _ _ _ Periods P' today HP').
  eexists. split; [vm_compute; reflexivity|].
  vm_compute. repeat split.
Qed.

Lemma PeriodFilter_carry_forward_witness :
  specPeriods (Date 2021 1 1) (Date 2022 1 10) Monthly = months2021
  /\ exists out,
       process.Process Transaction Amounts [] specPeriods zeroTime sut input
       = Returns out
       /\ map (fun a => End (ast.Period_ a)) out
          = [Date 2021 9 30; Date 2021 10 31; Date 2021 11 30;
             Date 2021 12 31; Date 2022 1 31]
       /\ map ast.Values out
          = [value 100; value 100; value 100; value 100; value 300]
       /\ map ast.PrevValues out
          = [value 100; value 100; value 100; value 100; value 100]
       /\ map (fun a => map ast.Date (ast.Days a)) out
          = [[]; []; []; []; [Date 2022 1 1; Date 2022 1 4]].
Proof.
  split; [vm_compute; reflexivity|].
  apply (PeriodFilter_carry_forward specPeriods zeroTime).
  vm_compute. reflexivity.
Defined.

(** ** The period filter in general *)


Section PeriodFilterFacts.

Variable Transaction Amounts : Type.
Variable nilAmounts : Amounts.
Variable Periods : Time -> Time -> Interval -> list date.Period.
Variable today : Time.

Let Day := ast.Day Transaction Amounts.
Let PeriodAgg := ast.Period Transaction Amounts.
Let locals := process.locals Transaction Amounts.
Let computeDates := process.computeDates Periods today.
Let emitLoop := process.emitLoop Transaction Amounts.
Let step := process.step Transaction Amounts nilAmounts Periods today.
Let run := process.run Transaction Amounts nilAmounts Periods today.
Let Process := process.Process Transaction Amounts nilAmounts Periods today.


Lemma emitLoop_spec fuel : forall ok dd (st : locals) out,
  (List.length (process.periods st) - process.current st <= fuel)%nat ->
  process.latest st <> None -> process.previous st <> None ->
  exists st' new,
    emitLoop fuel ok dd st out = Returns (st', out ++ new)
    /\ process.periods st' = process.periods st
    /\ process.init st' = process.init st
    /\ process.latest st' = process.latest st
    /\ process.previous st' <> None
    /\ Forall (fun a : PeriodAgg => In (ast.Period_ a) (process.periods st))
         new.
Proof.
  induction fuel as [|fuel IH]; intros ok dd st out Hf Hl Hp;
    unfold emitLoop; cbn [process.emitLoop].
  - destruct (nth_error (process.periods st) (process.current st)) eqn:E.
    + assert (process.current st < List.length (process.periods st))%nat
        by (apply nth_error_Some; congruence).
      lia.
    + exists st, []. rewrite app_nil_r. repeat split; auto.
  - destruct (nth_error (process.periods st) (process.current st)) as [p|]
      eqn:E.
    2:{ exists st, []. rewrite app_nil_r. repeat split; auto. }
    destruct (negb ok || Before (End p) dd).
    2:{ exists st, []. rewrite app_nil_r. repeat split; auto. }
    destruct (process.latest st) as [l|] eqn:El; [|congruence].
    destruct (process.previous st) as [pr|] eqn:Epr; [|congruence].
    edestruct (IH ok dd
      (process.mkLocals (process.periods st) [] (S (process.current st))
         (process.init st) (Some l) (Some l))) as
      (st' & new & Hr & H1 & H2 & H3 & H4 & H5);
      [cbn; lia|cbn; congruence|cbn; congruence|].
    unfold emitLoop in Hr. rewrite Hr. cbn in H1, H2, H3, H5.
    eexists st', (_ :: new). rewrite <- app_assoc. cbn [app].
    split; [reflexivity|]. repeat split; auto.
    constructor; [|exact H5]. cbn. eapply nth_error_In. exact E.
Qed.

Lemma step_skip pf (day : Day) st out :
  process.init st = false -> ast.Transactions day = [] ->
  step pf day st out = Returns (st, out).
Proof.
  intros Hi Ht. unfold step, process.step. rewrite Hi, Ht. reflexivity.
Qed.

Lemma step_spec pf (day : Day) st out :
  (process.init st = true ->
     process.latest st <> None /\ process.previous st <> None) ->
  (process.init st = false -> ast.Transactions day <> []) ->
  exists st' new,
    step pf day st out = Returns (st', out ++ new)
    /\ process.periods st'
       = (if process.init st then process.periods st
          else fst (computeDates pf (ast.Date day)))
    /\ process.init st' = true
    /\ process.latest st' <> None /\ process.previous st' <> None
    /\ Forall (fun a : PeriodAgg => In (ast.Period_ a) (process.periods st'))
         new.
Proof.
  intros Hinit Hnew. unfold step, process.step.
  set (st1 := if negb (process.init st) then _ else st).
  assert (H1 : process.periods st1
               = (if process.init st then process.periods st
                  else fst (computeDates pf (ast.Date day)))
               /\ process.init st1 = true
               /\ process.latest st1 <> None /\ process.previous st1 <> None).
  { unfold st1. destruct (process.init st) eqn:Ei; cbn.
    - destruct Hinit; auto.
    - repeat split; congruence. }
  destruct H1 as (Hp & Hi & Hl & Hpr).
  replace (negb (process.init st)
           && (List.length (ast.Transactions day) =? 0)%nat) with false.
  2:{ destruct (process.init st) eqn:Ei; [reflexivity|]. cbn.
      specialize (Hnew eq_refl).
      destruct (ast.Transactions day); [congruence|reflexivity]. }
  destruct (emitLoop_spec (process.emitFuel Transaction Amounts st1) true
              (ast.Date day) st1 out) as (st2 & new & Hr & E1 & E2 & E3 & E4 & E5);
    [unfold process.emitFuel; lia|exact Hl|exact Hpr|].
  unfold emitLoop in Hr. rewrite Hr.
  destruct (nth_error (process.periods st2) (process.current st2)) as [p|].
  - eexists _, new. split; [reflexivity|].
    destruct (Contains p (ast.Date day));
      cbn [process.periods process.init process.latest process.previous];
      (split; [rewrite E1; exact Hp|]);
      (split; [congruence|]); (split; [congruence|]);
      (split; [congruence|]); rewrite E1; exact E5.
  - exists st2, new. split; [reflexivity|].
    split; [rewrite E1; exact Hp|].
    split; [congruence|]. split; [congruence|]. split; [exact E4|].
    rewrite E1. exact E5.
Qed.


End PeriodFilterFacts.





(** ** What the period filter pushes, and in which order *)

Lemma firstn_S_nth_error {A} (l : list A) : forall c p,
  nth_error l c = Some p -> firstn (S c) l = firstn c l ++ [p].
Proof.
  induction l as [|x l IH]; intros [|c] p H; cbn in H; try discriminate.
  - injection H as ->. reflexivity.
  - cbn [firstn app]. f_equal. apply IH. exact H.
Qed.

Section PeriodFilterOrder.

Variable Transaction Amounts : Type.
Variable nilAmounts : Amounts.
Variable Periods : Time -> Time -> Interval -> list date.Period.
Variable today : Time.

Let Day := ast.Day Transaction Amounts.
Let PeriodAgg := ast.Period Transaction Amounts.
Let locals := process.locals Transaction Amounts.
Let computeDates := process.computeDates Periods today.
Let emitLoop := process.emitLoop Transaction Amounts.
Let step := process.step Transaction Amounts nilAmounts Periods today.
Let run := process.run Transaction Amounts nilAmounts Periods today.
Let Process := process.Process Transaction Amounts nilAmounts Periods today.

(** The Days delivered so far. *)
Variable seen : Day -> Prop.

(** The Days of a pushed Period were delivered and are dated within it. *)
Definition daysWithin (a : PeriodAgg) : Prop :=
  Forall (fun d => seen d /\ Contains (ast.Period_ a) (ast.Date d) = true)
    (ast.Days a).

(** What holds between the rounds of [Process]: the periods before
    [current] have been pushed, one Period each and in their order, and the
    Days collected belong to the period at [current]. *)
Definition filterInv (st : locals) (out : list PeriodAgg) : Prop :=
  map ast.Period_ out = firstn (process.current st) (process.periods st)
  /\ (process.current st <= List.length (process.periods st))%nat
  /\ Forall (fun d => seen d
               /\ exists p,
                    nth_error (process.periods st) (process.current st)
                    = Some p
                    /\ Contains p (ast.Date d) = true) (process.days st)
  /\ Forall daysWithin out.

Lemma emitLoop_inv fuel : forall ok dd (st : locals) out st' out',
  emitLoop fuel ok dd st out = Returns (st', out') ->
  filterInv st out ->
  filterInv st' out'
  /\ (ok = false ->
      (List.length (process.periods st') <= process.current st')%nat).
Proof.
  induction fuel as [|fuel IH]; intros ok dd st out st' out' H Hinv;
    unfold emitLoop in H; cbn [process.emitLoop] in H;
    destruct (nth_error (process.periods st) (process.current st)) as [p|]
      eqn:E;
    try (injection H as <- <-; split; [exact Hinv|];
         intros _; apply nth_error_None; exact E);
    destruct (negb ok || Before (End p) dd) eqn:C;
    try discriminate;
    try (injection H as <- <-; split; [exact Hinv|];
         intros ->; cbn in C; discriminate).
  destruct (process.latest st) as [l|]; [|discriminate].
  destruct (process.previous st) as [pr|]; [|discriminate].
  apply IH in H; [exact H|].
  destruct Hinv as (H1 & H2 & H3 & H4).
  unfold filterInv. cbn [process.periods process.current process.days].
  split; [|split; [|split]].
  - rewrite map_app, H1. cbn [map ast.Period_].
    symmetry. apply firstn_S_nth_error. exact E.
  - apply Nat.le_succ_l. apply nth_error_Some. congruence.
  - constructor.
  - apply Forall_app. split; [exact H4|]. constructor; [|constructor].
    unfold daysWithin. cbn [ast.Days ast.Period_].
    eapply Forall_impl; [|exact H3]. cbn beta.
    intros d (Hs & q & Hq & Hc). split; [exact Hs|]. congruence.
Qed.

Lemma step_inv pf (day : Day) st out st' out' :
  step pf day st out = Returns (st', out') ->
  seen day ->
  (process.init st = true /\ filterInv st out)
  \/ (st = process.initial /\ out = []
      /\ negb (List.length (ast.Transactions day) =? 0)%nat = true) ->
  filterInv st' out'.
Proof.
  intros H Hday Hst. unfold step, process.step in H.
  set (st1 := if negb (process.init st) then _ else st) in H.
  assert (Hskip : negb (process.init st)
                  && (List.length (ast.Transactions day) =? 0)%nat = false).
  { destruct Hst as [(-> & _)|(-> & _ & Ht)]; [reflexivity|].
    cbn. apply negb_true_iff. exact Ht. }
  rewrite Hskip in H.
  assert (H1 : filterInv st1 out).
  { unfold st1. destruct Hst as [(-> & Hinv)|(-> & -> & _)];
      [exact Hinv|].
    cbn. unfold filterInv. cbn. repeat split; try constructor. lia. }
  destruct (process.emitLoop Transaction Amounts
              (process.emitFuel Transaction Amounts st1) true
              (ast.Date day) st1 out) as [[st2 out2]| |] eqn:E;
    try discriminate.
  apply (emitLoop_inv _ _ _ _ _ _ _ E) in H1.
  destruct H1 as (Hinv2 & _).
  destruct (nth_error (process.periods st2) (process.current st2)) as [p|]
    eqn:En.
  2:{ injection H as <- <-. exact Hinv2. }
  injection H as <- <-. destruct Hinv2 as (I1 & I2 & I3 & I4).
  destruct (Contains p (ast.Date day)) eqn:C;
    unfold filterInv;
    cbn [process.periods process.current process.days];
    (split; [exact I1|]); (split; [exact I2|]); (split; [|exact I4]);
    [|exact I3].
  apply Forall_app. split; [exact I3|].
  constructor; [|constructor]. split; [exact Hday|]. exists p. auto.
Qed.

Lemma run_inv pf input : forall st out,
  process.init st = true ->
  process.latest st <> None -> process.previous st <> None ->
  filterInv st out -> Forall seen input ->
  exists out',
    run pf input st out = Returns out'
    /\ map ast.Period_ out' = process.periods st
    /\ Forall daysWithin out'.
Proof.
  induction input as [|day rest IH]; intros st out Hi Hl Hp Hinv Hseen;
    unfold run; cbn [process.run].
  - destruct (emitLoop_spec _ _ (process.emitFuel Transaction Amounts st)
                false zeroTime st out) as (st2 & new & Hr & E1 & _);
      [unfold process.emitFuel; lia|exact Hl|exact Hp|].
    rewrite Hr. eexists. split; [reflexivity|].
    destruct (emitLoop_inv _ _ _ _ _ _ _ Hr Hinv)
      as ((I1 & I2 & _ & I4) & I5).
    split; [|exact I4].
    rewrite I1, <- E1. apply firstn_all2. apply I5. reflexivity.
  - apply Forall_cons_iff in Hseen as [Hday Hseen].
    destruct (step_spec _ _ nilAmounts Periods today pf day st out) as
      (st' & new & Hs & E1 & E2 & E3 & E4 & _); [auto|congruence|].
    rewrite Hs. rewrite Hi in E1.
    assert (Hinv' : filterInv st' (out ++ new)).
    { apply (step_inv pf day st out); auto. }
    destruct (IH st' (out ++ new) E2 E3 E4 Hinv' Hseen)
      as (out' & Hr & Ho & Hd).
    exists out'. split; [exact Hr|]. split; [congruence|exact Hd].
Qed.

(** The first Day that carries a Transaction. *)
Definition firstActive (input : list Day) : option Day :=
  find (fun d => negb (List.length (ast.Transactions d) =? 0)%nat) input.

Lemma Process_inv pf input :
  Forall seen input ->
  exists out,
    Process pf input = Returns out
    /\ map ast.Period_ out
       = match firstActive input with
         | Some day => fst (computeDates pf (ast.Date day))
         | None => []
         end
    /\ Forall daysWithin out.
Proof.
  unfold Process, process.Process, firstActive.
  induction input as [|day rest IH]; intros Hseen.
  - exists []. repeat split. constructor.
  - apply Forall_cons_iff in Hseen as [Hday Hseen]. cbn [find process.run].
    destruct (negb (List.length (ast.Transactions day) =? 0)%nat) eqn:Ht.
    + destruct (step_spec _ _ nilAmounts Periods today pf day
                  process.initial [])
        as (st & new & Hs & E1 & E2 & E3 & E4 & _).
      * cbn. congruence.
      * intros _ E. rewrite E in Ht. discriminate.
      * rewrite Hs. cbn [process.init process.initial] in E1.
        assert (Hinv : filterInv st ([] ++ new)).
        { apply (step_inv pf day process.initial []); auto. }
        destruct (run_inv pf rest st ([] ++ new) E2 E3 E4 Hinv Hseen)
          as (out & Hr & Ho & Hd).
        exists out. split; [exact Hr|]. split; [|exact Hd].
        rewrite Ho. exact E1.
    + rewrite (step_skip _ _ nilAmounts Periods today pf day).
      * apply IH. exact Hseen.
      * reflexivity.
      * apply negb_false_iff in Ht.
        destruct (ast.Transactions day); [reflexivity|discriminate].
Qed.

End PeriodFilterOrder.

(** X8.  [Process] always returns.  It pushes nothing when no Day carries
    a Transaction; otherwise it pushes exactly one Period for each period
    that [computeDates] gives at the first Day with a Transaction, in the
    order of that list, whatever Days follow. *)
Theorem Process_pushes_every_period_once
    (Transaction Amounts : Type) (nilAmounts : Amounts)
    (Periods : Time -> Time -> Interval -> list date.Period) (today : Time)
    (pf : process.PeriodFilter)
    (input : list (ast.Day Transaction Amounts)) :
  exists out,
    process.Process Transaction Amounts nilAmounts Periods today pf input
    = Returns out
    /\ map ast.Period_ out
       = match firstActive Transaction Amounts input with
         | Some day =>
             fst (process.computeDates Periods today pf (ast.Date day))
         | None => []
         end.
Proof.
  destruct (Process_inv Transaction Amounts nilAmounts Periods today
              (fun _ => True) pf input) as (out & H1 & H2 & _).
  - apply Forall_forall. auto.
  - exists out. auto.
Qed.

(** X9.  Every Day that [Process] hands on in the Days of a pushed Period
    is a Day of the input, and its date lies within that Period. *)
Theorem Process_days_lie_in_their_period
    (Transaction Amounts : Type) (nilAmounts : Amounts)
    (Periods : Time -> Time -> Interval -> list date.Period) (today : Time)
    (pf : process.PeriodFilter)
    (input : list (ast.Day Transaction Amounts)) :
  exists out,
    process.Process Transaction Amounts nilAmounts Periods today pf input
    = Returns out
    /\ forall a d, In a out -> In d (ast.Days a) ->
         In d input /\ Contains (ast.Period_ a) (ast.Date d) = true.
Proof.
  destruct (Process_inv Transaction Amounts nilAmounts Periods today
              (fun d => In d input) pf input) as (out & H1 & _ & H3).
  - apply Forall_forall. auto.
  - exists out. split; [exact H1|]. intros a d Ha Hd.
    rewrite Forall_forall in H3. specialize (H3 a Ha).
    unfold daysWithin in H3. rewrite Forall_forall in H3.
    exact (H3 d Hd).
Qed.
(** ** Sorting with a comparison that may panic *)

Section SortFacts.

Variable V : Type.
Variable c : V -> V -> outcome compare.Order.
(** The values on which the comparison is defined. *)
Variable D : V -> Prop.
Hypothesis c_returns : forall x y, D x -> D y -> exists o, c x y = Returns o.

(** [x] is placed before [y]. *)
Definition notGreater (x y : V) : Prop :=
  c x y = Returns compare.Smaller \/ c x y = Returns compare.Equal.

Lemma insertSorted_returns x l :
  D x -> Forall D l ->
  exists r, compare.insertSorted c x l = Returns r /\ Permutation (x :: l) r.
Proof.
  intros Hx Hl. induction Hl as [|y l Hy Hl IH]; cbn [compare.insertSorted].
  - exists [x]. split; [reflexivity|apply Permutation_refl].
  - destruct (c_returns x y Hx Hy) as [o ->].
    destruct IH as (r & -> & Hp).
    destruct o; eexists; (split; [reflexivity|]);
      try apply Permutation_refl.
    eapply perm_trans; [apply perm_swap|]. apply perm_skip. exact Hp.
Qed.

Lemma Sort_returns l :
  Forall D l ->
  exists s, compare.Sort c l = Returns s /\ Permutation l s.
Proof.
  intros Hl. induction Hl as [|x l Hx Hl IH]; cbn [compare.Sort].
  - exists []. split; [reflexivity|apply perm_nil].
  - destruct IH as (s & -> & Hp).
    destruct (insertSorted_returns x s Hx) as (r & Hr & Hpr).
    + eapply Permutation_Forall; [exact Hp|exact Hl].
    + exists r. split; [exact Hr|].
      eapply perm_trans; [apply perm_skip; exact Hp|exact Hpr].
Qed.

Hypothesis c_total : forall x y, D x -> D y ->
  c x y = Returns compare.Greater -> notGreater y x.
Hypothesis c_trans : forall x y z, D x -> D y -> D z ->
  notGreater x y -> notGreater y z -> notGreater x z.

Lemma insertSorted_sorted x l :
  D x -> Forall D l -> StronglySorted notGreater l ->
  exists r, compare.insertSorted c x l = Returns r
            /\ Permutation (x :: l) r /\ StronglySorted notGreater r.
Proof.
  intros Hx Hl Hs. induction Hl as [|y l Hy Hl IH];
    cbn [compare.insertSorted].
  - exists [x]. split; [reflexivity|]. split; [apply Permutation_refl|].
    repeat constructor.
  - apply StronglySorted_inv in Hs as [Hs Hyl].
    assert (Hxl : notGreater x y -> Forall (notGreater x) (y :: l)).
    { intros Hxy. constructor; [exact Hxy|].
      rewrite Forall_forall in *. intros z Hz.
      apply (c_trans x y z); auto. }
    destruct (c_returns x y Hx Hy) as [o Ho]. rewrite Ho.
    destruct o.
    + exists (x :: y :: l). split; [reflexivity|].
      split; [apply Permutation_refl|].
      constructor; [constructor; assumption|apply Hxl; now left].
    + exists (x :: y :: l). split; [reflexivity|].
      split; [apply Permutation_refl|].
      constructor; [constructor; assumption|apply Hxl; now right].
    + destruct (IH Hs) as (r & -> & Hp & Hr).
      exists (y :: r). split; [reflexivity|]. split.
      * eapply perm_trans; [apply perm_swap|]. apply perm_skip. exact Hp.
      * constructor; [exact Hr|].
        eapply Permutation_Forall; [exact Hp|].
        constructor; [apply c_total; assumption|exact Hyl].
Qed.

Lemma Sort_sorted l :
  Forall D l ->
  exists s, compare.Sort c l = Returns s
            /\ Permutation l s /\ StronglySorted notGreater s.
Proof.
  intros Hl. induction Hl as [|x l Hx Hl IH]; cbn [compare.Sort].
  - exists []. split; [reflexivity|]. split; [apply perm_nil|constructor].
  - destruct IH as (s & -> & Hp & Hs).
    destruct (insertSorted_sorted x s Hx) as (r & Hr & Hpr & Hsr).
    + eapply Permutation_Forall; [exact Hp|exact Hl].
    + exact Hs.
    + exists r. split; [exact Hr|]. split; [|exact Hsr].
      eapply perm_trans; [apply perm_skip; exact Hp|exact Hpr].
Qed.

End SortFacts.

(** ** The report tree *)

Section ReportFacts.

Variable decimal : Type.
Variable dzero : decimal.
Variable dadd : decimal -> decimal -> decimal.
Variable dabs : decimal -> decimal.
Variable float64 : Type.
Variable fzero : float64.
Variable fadd fsub : float64 -> float64 -> float64.
Variable toFloat64 : decimal -> float64.
Context {float64_Ordered : compare.Ordered float64}.
Variable Ancestors : model.Account -> list model.Account.

Let Node := report.Node decimal float64.
Let computeWeights : Node -> outcome Node :=
  report.computeWeights decimal dzero dadd dabs float64 fzero fadd fsub
    toFloat64.

(** Induction on a tree with the property available for all children. *)
Lemma Node_children_ind (P : Node -> Prop) :
  (forall a cs am w,
     Forall (fun kv => P (snd kv)) cs -> P (report.mkNode a cs am w)) ->
  forall n, P n.
Proof.
  intros H.
  refine (fix IH (n : Node) : P n :=
    match n with
    | report.mkNode a cs am w =>
        H a cs am w
          ((fix go (cs : list (model.Account * Node))
              : Forall (fun kv => P (snd kv)) cs :=
              match cs with
              | [] => Forall_nil _
              | kv :: cs' => Forall_cons _ (IH (snd kv)) (go cs')
              end) cs)
    end).
Qed.

(** The weight a node contributes by itself: minus the magnitude of the
    sum of its valued amounts. *)
Definition ownWeight (n : Node) : float64 :=
  fsub fzero
    (toFloat64 (dabs (journal.SumOver decimal dzero dadd (report.Amounts_ n)
                        report.keysWithVal))).

(** The weight of a node is its own weight plus the weights of its
    children, added one after the other. *)
Definition weightEq (n : Node) : Prop :=
  report.weight n
  = fold_left (fun acc kv => fadd acc (report.weight (snd kv)))
      (report.children n) (ownWeight n).

(** A tree with all weights reset: what [computeWeights] must not touch. *)
Fixpoint eraseWeights (n : Node) : Node :=
  report.mkNode (report.Account n)
    (map (fun kv => (fst kv, eraseWeights (snd kv))) (report.children n))
    (report.Amounts_ n) fzero.

(** Every child node, at any depth, has an account. *)
Definition childrenNamed (n : Node) : Prop :=
  Forall (fun m => Forall (fun kv => report.Account (snd kv) <> None)
                     (report.children m)) (report.nodes n).

(** The fork over the children, as [computeWeights] runs it. *)
Fixpoint forAllChildren (cs : list (model.Account * Node))
  : outcome (list (model.Account * Node)) :=
  match cs with
  | [] => Returns []
  | kv :: cs' =>
      match computeWeights (snd kv) with
      | Returns sn =>
          match forAllChildren cs' with
          | Returns r => Returns ((fst kv, sn) :: r)
          | Panics msg => Panics msg
          | OutOfFuel => OutOfFuel
          end
      | Panics msg => Panics msg
      | OutOfFuel => OutOfFuel
      end
  end.

Lemma computeWeights_unfold n :
  computeWeights n
  = match report.Children n with
    | Returns _ =>
        match forAllChildren (report.children n) with
        | Returns children' =>
            Returns (report.mkNode (report.Account n) children'
                       (report.Amounts_ n)
                       (fold_left
                          (fun acc kv => fadd acc (report.weight (snd kv)))
                          children' (ownWeight n)))
        | Panics msg => Panics msg
        | OutOfFuel => OutOfFuel
        end
    | Panics msg => Panics msg
    | OutOfFuel => OutOfFuel
    end.
Proof. destruct n. reflexivity. Qed.


Lemma compareNodes_returns (n1 n2 : Node) :
  report.Account n1 <> None -> report.Account n2 <> None ->
  exists o, report.compareNodes n1 n2 = Returns o.
Proof.
  intros H1 H2. unfold report.compareNodes.
  destruct (report.Account n1); [|congruence].
  destruct (report.Account n2); [|congruence].
  destruct (negb _); [eauto|]. destruct (negb _); eauto.
Qed.

Lemma Children_returns (n : Node) :
  Forall (fun kv => report.Account (snd kv) <> None) (report.children n) ->
  exists s, report.Children n = Returns s
            /\ Permutation (map snd (report.children n)) s.
Proof.
  intros H. unfold report.Children, dict.SortedValues.
  apply (Sort_returns _ _ (fun m : Node => report.Account m <> None)).
  - intros x y. apply compareNodes_returns.
  - apply Forall_map. exact H.
Qed.

(** What [computeWeights] establishes going from [n] to [n']. *)
Definition weighted (n n' : Node) : Prop :=
  Forall weightEq (report.nodes n') /\ eraseWeights n' = eraseWeights n.

Lemma forAllChildren_weighted cs :
  Forall (fun kv => forall n', computeWeights (snd kv) = Returns n' ->
                               weighted (snd kv) n') cs ->
  forall r, forAllChildren cs = Returns r ->
    Forall weightEq (flat_map (fun kv => report.nodes (snd kv)) r)
    /\ map (fun kv => (fst kv, eraseWeights (snd kv))) r
       = map (fun kv => (fst kv, eraseWeights (snd kv))) cs.
Proof.
  induction 1 as [|kv cs Hkv _ IH]; intros r Hr; cbn [forAllChildren] in Hr.
  - injection Hr as <-. split; [constructor|reflexivity].
  - destruct (computeWeights (snd kv)) as [sn| |] eqn:E; try discriminate.
    destruct (forAllChildren cs) as [r'| |]; try discriminate.
    injection Hr as <-. destruct (Hkv sn eq_refl) as [H1 H2].
    destruct (IH r' eq_refl) as [H3 H4]. split.
    + cbn [flat_map snd]. apply Forall_app. split; assumption.
    + cbn [map fst snd]. rewrite H2, H4. reflexivity.
Qed.

Lemma computeWeights_weighted : forall n n',
  computeWeights n = Returns n' -> weighted n n'.
Proof.
  induction n as [a cs am w IH] using Node_children_ind. intros n' Hn.
  rewrite computeWeights_unfold in Hn.
  destruct (report.Children _); try discriminate.
  cbn [report.children report.Account report.Amounts_] in Hn.
  destruct (forAllChildren cs) as [r| |] eqn:E; try discriminate.
  injection Hn as <-.
  destruct (forAllChildren_weighted cs IH r E) as [H1 H2].
  split.
  - cbn [report.nodes report.children]. constructor; [reflexivity|exact H1].
  - cbn [eraseWeights report.children report.Account report.Amounts_].
    rewrite H2. reflexivity.
Qed.

Lemma childrenNamed_inv a cs am w :
  childrenNamed (report.mkNode a cs am w) ->
  Forall (fun kv => report.Account (snd kv) <> None) cs
  /\ Forall (fun kv => childrenNamed (snd kv)) cs.
Proof.
  unfold childrenNamed. cbn [report.nodes report.children].
  intros H. apply Forall_cons_iff in H as [H1 H2]. split; [exact H1|].
  clear H1. induction cs as [|kv cs IH]; [constructor|].
  cbn [flat_map] in H2. apply Forall_app in H2 as [H2 H3].
  constructor; [exact H2|exact (IH H3)].
Qed.

Lemma computeWeights_returns : forall n,
  childrenNamed n -> exists n', computeWeights n = Returns n'.
Proof.
  induction n as [a cs am w IH] using Node_children_ind. intros Hn.
  apply childrenNamed_inv in Hn as [H1 H2].
  rewrite computeWeights_unfold.
  destruct (Children_returns (report.mkNode a cs am w) H1) as (s & -> & _).
  cbn [report.children].
  assert (Hr : exists r, forAllChildren cs = Returns r).
  { clear H1. induction cs as [|kv cs IHcs]; [eexists; reflexivity|].
    apply Forall_cons_iff in IH as [IH1 IH2].
    apply Forall_cons_iff in H2 as [H2 H3].
    cbn [forAllChildren]. destruct (IH1 H2) as [sn ->].
    destruct (IHcs IH2 H3) as [r ->]. eexists; reflexivity. }
  destruct Hr as [r ->]. eexists; reflexivity.
Qed.

End ReportFacts.

(** ** Laws of ordered types *)

(** What [==] and [<] satisfy on Go's integers and strings, and on float64
    values other than NaN. *)
Class OrderedLaws (T : Type) {O : compare.Ordered T} : Prop := {
  eqb_refl : forall x, compare.eqb x x = true;
  eqb_sym : forall x y, compare.eqb x y = compare.eqb y x;
  eqb_trans : forall x y z,
    compare.eqb x y = true -> compare.eqb y z = true ->
    compare.eqb x z = true;
  ltb_trans : forall x y z,
    compare.ltb x y = true -> compare.ltb y z = true ->
    compare.ltb x z = true;
  ltb_eqb_l : forall x y z,
    compare.eqb x y = true -> compare.ltb y z = true ->
    compare.ltb x z = true;
  ltb_eqb_r : forall x y z,
    compare.ltb x y = true -> compare.eqb y z = true ->
    compare.ltb x z = true;
  ltb_neq : forall x y, compare.ltb x y = true -> compare.eqb x y = false;
  ltb_total : forall x y,
    compare.eqb x y = false -> compare.ltb x y = false ->
    compare.ltb y x = true
}.

#[global] Instance Z_OrderedLaws : OrderedLaws Z.
Proof.
  constructor; cbn [compare.eqb compare.ltb compare.Z_Ordered]; intros;
    repeat match goal with
    | H : (_ =? _) = true |- _ => apply Z.eqb_eq in H
    | H : (_ =? _) = false |- _ => apply Z.eqb_neq in H
    | H : (_ <? _) = true |- _ => apply Z.ltb_lt in H
    | H : (_ <? _) = false |- _ => apply Z.ltb_ge in H
    end;
    try (apply Z.eqb_eq; lia); try (apply Z.eqb_neq; lia);
    try (apply Z.ltb_lt; lia).
  apply Z.eqb_sym.
Qed.

Lemma ascii_compare_lt_trans a b c :
  Ascii.compare a b = Lt -> Ascii.compare b c = Lt -> Ascii.compare a c = Lt.
Proof.
  unfold Ascii.compare. rewrite !N.compare_lt_iff. apply N.lt_trans.
Qed.

Lemma string_compare_refl s : String.compare s s = Eq.
Proof.
  induction s as [|a s IH]; [reflexivity|]. cbn.
  unfold Ascii.compare. rewrite N.compare_refl. exact IH.
Qed.

Lemma string_compare_lt_trans x : forall y z,
  String.compare x y = Lt -> String.compare y z = Lt ->
  String.compare x z = Lt.
Proof.
  induction x as [|a x IH]; intros [|b y] [|c z]; cbn; try congruence.
  destruct (Ascii.compare a b) eqn:Eab; try discriminate.
  - apply Ascii.compare_eq_iff in Eab. subst b.
    destruct (Ascii.compare a c); try congruence. apply IH.
  - intros _. destruct (Ascii.compare b c) eqn:Ebc; try discriminate.
    + apply Ascii.compare_eq_iff in Ebc. subst c. rewrite Eab. reflexivity.
    + intros _. rewrite (ascii_compare_lt_trans a b c Eab Ebc). reflexivity.
Qed.

#[global] Instance string_OrderedLaws : OrderedLaws string.
Proof.
  constructor; cbn [compare.eqb compare.ltb compare.string_Ordered];
    unfold String.ltb.
  - apply String.eqb_refl.
  - apply String.eqb_sym.
  - intros x y z H1 H2. apply String.eqb_eq in H1, H2. subst.
    apply String.eqb_refl.
  - intros x y z H1 H2.
    destruct (String.compare x y) eqn:E1; try discriminate.
    destruct (String.compare y z) eqn:E2; try discriminate.
    rewrite (string_compare_lt_trans x y z E1 E2). reflexivity.
  - intros x y z H1 H2. apply String.eqb_eq in H1. subst. exact H2.
  - intros x y z H1 H2. apply String.eqb_eq in H2. subst. exact H1.
  - intros x y H. apply String.eqb_neq. intros ->.
    rewrite string_compare_refl in H. discriminate.
  - intros x y H1 H2. apply String.eqb_neq in H1.
    rewrite String.compare_antisym.
    destruct (String.compare x y) eqn:E; try discriminate; [|reflexivity].
    apply String.compare_eq_iff in E. contradiction.
Qed.

Section OrderedFacts.

Context {T : Type} {O : compare.Ordered T} {OL : OrderedLaws T}.

Lemma ltb_asym x y : compare.ltb x y = true -> compare.ltb y x = false.
Proof.
  intros H. destruct (compare.ltb y x) eqn:E; [|reflexivity].
  pose proof (ltb_neq _ _ (ltb_trans _ _ _ H E)) as Hn.
  rewrite eqb_refl in Hn. discriminate.
Qed.

(** [x] is not after [y]: smaller, or equal. *)
Definition leO (x y : T) : Prop :=
  compare.ltb x y = true \/ compare.eqb x y = true.

Lemma leO_trans x y z : leO x y -> leO y z -> leO x z.
Proof.
  intros [H1|H1] [H2|H2].
  - left. eapply ltb_trans; eassumption.
  - left. eapply ltb_eqb_r; eassumption.
  - left. eapply ltb_eqb_l; eassumption.
  - right. eapply eqb_trans; eassumption.
Qed.

Lemma Ordered_not_greater x y :
  compare.Ordered_ x y <> compare.Greater <-> leO x y.
Proof.
  unfold compare.Ordered_, leO.
  destruct (compare.eqb x y), (compare.ltb x y); split; intros H;
    try congruence; auto; destruct H; congruence.
Qed.

End OrderedFacts.

(** Lexicographic order: first by the key, then by [R]. *)
Section Lexicographic.

Context {T : Type} {O : compare.Ordered T} {OL : OrderedLaws T}.
Variable B : Type.
Variable R : B -> B -> Prop.
Hypothesis R_trans : forall x y z, R x y -> R y z -> R x z.

Definition lexO (p q : T * B) : Prop :=
  compare.ltb (fst p) (fst q) = true
  \/ (compare.eqb (fst p) (fst q) = true /\ R (snd p) (snd q)).

Lemma lexO_trans p q r : lexO p q -> lexO q r -> lexO p r.
Proof.
  intros [H1|[H1 H1']] [H2|[H2 H2']].
  - left. eapply ltb_trans; eassumption.
  - left. eapply ltb_eqb_r; eassumption.
  - left. eapply ltb_eqb_l; eassumption.
  - right. split; [eapply eqb_trans; eassumption|eapply R_trans; eassumption].
Qed.

End Lexicographic.

(** ** The order of [compareNodes] *)

Lemma StronglySorted_impl {A : Type} (R R' : A -> A -> Prop) (l : list A) :
  (forall x y, R x y -> R' x y) ->
  StronglySorted R l -> StronglySorted R' l.
Proof.
  intros H. induction 1 as [|x l Hs IH Hx]; constructor; [exact IH|].
  eapply Forall_impl; [|exact Hx]. intros y. apply H.
Qed.

Section CompareNodesFacts.

Variable decimal float64 : Type.
Context {O : compare.Ordered float64} {OL : OrderedLaws float64}.

Let Node := report.Node decimal float64.

(** Ascending by account type, then weight, then account name. *)
Definition nodeLe (n1 n2 : Node) : Prop :=
  exists a1 a2,
    report.Account n1 = Some a1 /\ report.Account n2 = Some a2
    /\ (compare.ltb (model.Type_ a1) (model.Type_ a2) = true
        \/ (compare.eqb (model.Type_ a1) (model.Type_ a2) = true
            /\ (compare.ltb (report.weight n1) (report.weight n2) = true
                \/ (compare.eqb (report.weight n1) (report.weight n2) = true
                    /\ (compare.ltb (model.Name a1) (model.Name a2) = true
                        \/ compare.eqb (model.Name a1) (model.Name a2)
                           = true))))).

Definition sortKey (n : Node) (a : model.Account)
  : Z * (float64 * string) :=
  (model.Type_ a, (report.weight n, model.Name a)).

Definition keyLe : Z * (float64 * string) -> Z * (float64 * string) -> Prop :=
  lexO (float64 * string) (lexO string leO).

Lemma keyLe_trans p q r : keyLe p q -> keyLe q r -> keyLe p r.
Proof.
  apply lexO_trans. intros x y z. apply lexO_trans.
  intros a b c. apply leO_trans.
Qed.

Lemma compareNodes_notGreater (n1 n2 : Node) a1 a2 :
  report.Account n1 = Some a1 -> report.Account n2 = Some a2 ->
  (notGreater _ report.compareNodes n1 n2
   <-> keyLe (sortKey n1 a1) (sortKey n2 a2)).
Proof.
  intros E1 E2.
  unfold notGreater, report.compareNodes, keyLe, lexO, leO, sortKey,
    compare.Ordered_.
  rewrite E1, E2. cbn [fst snd]. unfold model.AccountType.
  pose proof (ltb_neq (T:=Z) (model.Type_ a1) (model.Type_ a2)) as Ht.
  pose proof (ltb_neq (report.weight n1) (report.weight n2)) as Hw.
  pose proof (ltb_neq (model.Name a1) (model.Name a2)) as Hn.
  destruct (@compare.eqb Z _ (model.Type_ a1) (model.Type_ a2)),
           (@compare.ltb Z _ (model.Type_ a1) (model.Type_ a2)),
           (compare.eqb (report.weight n1) (report.weight n2)),
           (compare.ltb (report.weight n1) (report.weight n2)),
           (compare.eqb (model.Name a1) (model.Name a2)),
           (compare.ltb (model.Name a1) (model.Name a2));
    cbn [negb];
    repeat match goal with
    | H : true = true -> _ |- _ => specialize (H eq_refl)
    | H : false = true -> _ |- _ => clear H
    end;
    try discriminate; intuition congruence.
Qed.

Lemma notGreater_nodeLe (n1 n2 : Node) :
  notGreater _ report.compareNodes n1 n2 -> nodeLe n1 n2.
Proof.
  intros H.
  destruct (report.Account n1) as [a1|] eqn:E1.
  2:{ unfold notGreater, report.compareNodes in H. rewrite E1 in H.
      destruct H; discriminate. }
  destruct (report.Account n2) as [a2|] eqn:E2.
  2:{ unfold notGreater, report.compareNodes in H. rewrite E1, E2 in H.
      destruct H; discriminate. }
  exists a1, a2. split; [exact E1|]. split; [exact E2|].
  apply (compareNodes_notGreater n1 n2 a1 a2 E1 E2) in H. exact H.
Qed.

Lemma compareNodes_total (n1 n2 : Node) :
  report.Account n1 <> None -> report.Account n2 <> None ->
  report.compareNodes n1 n2 = Returns compare.Greater ->
  notGreater _ report.compareNodes n2 n1.
Proof.
  intros H1 H2.
  destruct (report.Account n1) as [a1|] eqn:E1; [|congruence].
  destruct (report.Account n2) as [a2|] eqn:E2; [|congruence].
  unfold notGreater, report.compareNodes, compare.Ordered_.
  rewrite E1, E2. unfold model.AccountType.
  rewrite (eqb_sym (T:=Z) (model.Type_ a2)), (eqb_sym (report.weight n2)),
    (eqb_sym (model.Name a2)).
  pose proof (ltb_total (T:=Z) (model.Type_ a1) (model.Type_ a2)) as Ht.
  pose proof (ltb_total (report.weight n1) (report.weight n2)) as Hw.
  pose proof (ltb_total (model.Name a1) (model.Name a2)) as Hn.
  destruct (@compare.eqb Z _ (model.Type_ a1) (model.Type_ a2)),
           (@compare.ltb Z _ (model.Type_ a1) (model.Type_ a2)),
           (compare.eqb (report.weight n1) (report.weight n2)),
           (compare.ltb (report.weight n1) (report.weight n2)),
           (compare.eqb (model.Name a1) (model.Name a2)),
           (compare.ltb (model.Name a1) (model.Name a2));
    cbn [negb]; intros H; try discriminate;
    try rewrite (Ht eq_refl eq_refl); try rewrite (Hw eq_refl eq_refl);
    try rewrite (Hn eq_refl eq_refl); auto.
Qed.

Lemma compareNodes_trans (n1 n2 n3 : Node) :
  report.Account n1 <> None -> report.Account n2 <> None ->
  report.Account n3 <> None ->
  notGreater _ report.compareNodes n1 n2 ->
  notGreater _ report.compareNodes n2 n3 ->
  notGreater _ report.compareNodes n1 n3.
Proof.
  intros H1 H2 H3.
  destruct (report.Account n1) as [a1|] eqn:E1; [|congruence].
  destruct (report.Account n2) as [a2|] eqn:E2; [|congruence].
  destruct (report.Account n3) as [a3|] eqn:E3; [|congruence].
  rewrite (compareNodes_notGreater n1 n2 a1 a2 E1 E2),
    (compareNodes_notGreater n2 n3 a2 a3 E2 E3),
    (compareNodes_notGreater n1 n3 a1 a3 E1 E3).
  apply keyLe_trans.
Qed.

Lemma Children_sorted_perm (n : Node) :
  Forall (fun kv => report.Account (snd kv) <> None) (report.children n) ->
  exists s,
    report.Children n = Returns s
    /\ Permutation (map snd (report.children n)) s
    /\ StronglySorted nodeLe s.
Proof.
  intros H. unfold report.Children, dict.SortedValues.
  destruct (Sort_sorted Node report.compareNodes
              (fun m => report.Account m <> None)
              (compareNodes_returns decimal float64)
              compareNodes_total compareNodes_trans
              (map snd (report.children n)))
    as (s & Hs & Hp & Hsorted).
  - apply Forall_map. exact H.
  - exists s. split; [exact Hs|]. split; [exact Hp|].
    eapply StronglySorted_impl; [|exact Hsorted].
    exact notGreater_nodeLe.
Qed.

(** Two siblings of the same account type come out lighter weight first,
    whatever the iteration order of the map. *)
Lemma Children_pair (n a b : Node) (ka kb acc_a acc_b : model.Account) :
  report.children n = [(ka, a); (kb, b)]
  \/ report.children n = [(kb, b); (ka, a)] ->
  report.Account a = Some acc_a -> report.Account b = Some acc_b ->
  model.Type_ acc_a = model.Type_ acc_b ->
  compare.ltb (report.weight a) (report.weight b) = true ->
  report.Children n = Returns [a; b].
Proof.
  intros Hn Ea Eb Et Hw.
  assert (Hab : report.compareNodes a b = Returns compare.Smaller).
  { unfold report.compareNodes, compare.Ordered_. rewrite Ea, Eb, Et.
    unfold model.AccountType.
    rewrite (eqb_refl (T:=Z) (model.Type_ acc_b)), (ltb_neq _ _ Hw), Hw.
    reflexivity. }
  assert (Hba : report.compareNodes b a = Returns compare.Greater).
  { unfold report.compareNodes, compare.Ordered_. rewrite Ea, Eb, Et.
    unfold model.AccountType.
    rewrite (eqb_refl (T:=Z) (model.Type_ acc_b)), eqb_sym, (ltb_neq _ _ Hw),
      (ltb_asym _ _ Hw).
    reflexivity. }
  unfold report.Children, dict.SortedValues.
  destruct Hn as [-> | ->];
    cbn [map snd compare.Sort compare.insertSorted];
    [rewrite Hab|rewrite Hba]; reflexivity.
Qed.

End CompareNodesFacts.

(** ** A small report tree with integer amounts and weights *)

Module ReportExample.

Definition accA : model.Account := model.mkAccount model.ASSETS "Assets:A".
Definition accB : model.Account := model.mkAccount model.ASSETS "Assets:B".

(** A valued key of an account: the valuation commodity is set. *)
Definition valued (a : model.Account) : journal.Key :=
  journal.mkKey (Date 2022 1 1) (Some a) None (Some "CHF"%string)
    (Some "USD"%string) "".

Definition leaf (a : model.Account) (amount weight : Z) : report.Node Z Z :=
  report.mkNode (Some a) [] [(valued a, amount)] weight.

Definition root (wA wB : Z) : report.Node Z Z :=
  report.mkNode None [(accB, leaf accB 10 wB); (accA, leaf accA 50 wA)] [] 0.

Definition computeWeights : report.Node Z Z -> outcome (report.Node Z Z) :=
  report.computeWeights Z 0 Z.add Z.abs Z 0 Z.add Z.sub (fun d => d).

Definition nilAccountKey : journal.Key :=
  journal.mkKey (Date 2022 1 1) None None (Some "CHF"%string) None "".

Definition Ancestors (a : model.Account) : list model.Account := [a].

End ReportExample.

Example computeWeights_example :
  ReportExample.computeWeights (ReportExample.root 0 0)
  = Returns (report.mkNode None
      [ (ReportExample.accB, ReportExample.leaf ReportExample.accB 10 (-10));
        (ReportExample.accA, ReportExample.leaf ReportExample.accA 50 (-50)) ]
      [] (-60)).
Proof. vm_compute. reflexivity. Qed.

Example Children_example :
  report.Children (ReportExample.root (-50) (-10))
  = Returns [ ReportExample.leaf ReportExample.accA 50 (-50);
              ReportExample.leaf ReportExample.accB 10 (-10) ].
Proof. vm_compute. reflexivity. Qed.

(** C4.  When [computeWeights] has completed on a tree, at every node of
    the resulting tree the weight is the negated magnitude of the sum of
    the node's own valued amounts (the amounts whose key has a Valuation)
    with the weights of its children added to it, the children being nodes
    of the result themselves, so weighted before the parent; accounts,
    amounts and the shape of the tree are unchanged.  It does complete
    whenever every child node has an account. *)
Theorem computeWeights_weights
    (decimal : Type) (dzero : decimal) (dadd : decimal -> decimal -> decimal)
    (dabs : decimal -> decimal)
    (float64 : Type) (fzero : float64)
    (fadd fsub : float64 -> float64 -> float64)
    (toFloat64 : decimal -> float64)
    {float64_Ordered : compare.Ordered float64}
    (n : report.Node decimal float64) :
  let computeWeights :=
    report.computeWeights decimal dzero dadd dabs float64 fzero fadd fsub
      toFloat64 in
  (childrenNamed decimal float64 n ->
     exists n', computeWeights n = Returns n')
  /\ forall n', computeWeights n = Returns n' ->
       Forall (fun m =>
                 report.weight m
                 = fold_left
                     (fun acc kv => fadd acc (report.weight (snd kv)))
                     (report.children m)
                     (fsub fzero
                        (toFloat64
                           (dabs (journal.SumOver decimal dzero dadd
                                    (report.Amounts_ m)
                                    report.keysWithVal)))))
         (report.nodes n')
       /\ eraseWeights decimal float64 fzero n'
          = eraseWeights decimal float64 fzero n.
Proof.
  intros computeWeights. split.
  - apply computeWeights_returns.
  - intros n' Hn. apply computeWeights_weighted in Hn. exact Hn.
Qed.

Lemma computeWeights_weights_witness :
  childrenNamed Z Z (ReportExample.root 0 0)
  /\ exists n',
       ReportExample.computeWeights (ReportExample.root 0 0) = Returns n'
       /\ map report.weight (report.nodes n') = [-60; -10; -50].
Proof.
  split; [repeat constructor; discriminate|].
  destruct (proj1 (computeWeights_weights Z 0 Z.add Z.abs Z 0 Z.add Z.sub
                     (fun d => d) (ReportExample.root 0 0))) as [n' Hn].
  - repeat constructor; discriminate.
  - exists n'. split; [exact Hn|].
    change (ReportExample.computeWeights (ReportExample.root 0 0)
            = Returns n') in Hn.
    rewrite computeWeights_example in Hn. injection Hn as <-. reflexivity.
Defined.

(** C5.  [Children] returns the children of a node (each with an account)
    as a permutation of the map's values sorted ascending by account type,
    then weight, then account name, provided [==] and [<] on the weights
    form a total order (float64 without NaN); so of two siblings with the
    same account type the one with the smaller weight, -50 against -10,
    comes first, in whichever order the map holds them. *)
Theorem Children_sorted
    (decimal float64 : Type) {O : compare.Ordered float64}
    {OL : OrderedLaws float64} (n : report.Node decimal float64) :
  Forall (fun kv => report.Account (snd kv) <> None) (report.children n) ->
  (exists s,
     report.Children n = Returns s
     /\ Permutation (map snd (report.children n)) s
     /\ StronglySorted (nodeLe decimal float64) s)
  /\ (forall a b ka kb acc_a acc_b,
        report.children n = [(ka, a); (kb, b)]
        \/ report.children n = [(kb, b); (ka, a)] ->
        report.Account a = Some acc_a -> report.Account b = Some acc_b ->
        model.Type_ acc_a = model.Type_ acc_b ->
        compare.ltb (report.weight a) (report.weight b) = true ->
        report.Children n = Returns [a; b]).
Proof.
  intros H. split.
  - exact (Children_sorted_perm decimal float64 n H).
  - intros a b ka kb acc_a acc_b.
    exact (Children_pair decimal float64 n a b ka kb acc_a acc_b).
Qed.

Lemma Children_sorted_witness :
  let n := ReportExample.root (-50) (-10) in
  let a := ReportExample.leaf ReportExample.accA 50 (-50) in
  let b := ReportExample.leaf ReportExample.accB 10 (-10) in
  Forall (fun kv => report.Account (snd kv) <> None) (report.children n)
  /\ (exists s,
        report.Children n = Returns s
        /\ Permutation (map snd (report.children n)) s
        /\ StronglySorted (nodeLe Z Z) s)
  /\ report.Children n = Returns [a; b].
Proof.
  intros n a b.
  assert (H : Forall (fun kv => report.Account (snd kv) <> None)
                (report.children n))
    by (repeat constructor; discriminate).
  split; [exact H|].
  destruct (Children_sorted Z Z n H) as [H1 H2].
  split; [exact H1|].
  apply (H2 a b ReportExample.accA ReportExample.accB
            ReportExample.accA ReportExample.accB);
    [right; reflexivity|reflexivity|reflexivity|reflexivity|reflexivity].
Defined.

(** C10.  [Insert] with a key whose Account is nil returns the report as
    it was: both trees, the cache and the dates are unchanged. *)
Theorem Insert_nil_account
    (decimal : Type) (dzero : decimal) (dadd : decimal -> decimal -> decimal)
    (float64 : Type) (fzero : float64)
    (Ancestors : model.Account -> list model.Account)
    (r : report.Report decimal float64) (k : journal.Key) (v : decimal) :
  journal.Account k = None ->
  report.Insert decimal dzero dadd float64 fzero Ancestors r k v = r.
Proof.
  intros Hk. unfold report.Insert. rewrite Hk. reflexivity.
Qed.

Lemma Insert_nil_account_witness :
  let r := report.Insert Z 0 Z.add Z 0 ReportExample.Ancestors
             (report.NewReport Z Z 0
                (mkPartition witnessPeriod Monthly []))
             (ReportExample.valued ReportExample.accA) 50 in
  journal.Account ReportExample.nilAccountKey = None
  /\ report.Insert Z 0 Z.add Z 0 ReportExample.Ancestors r
       ReportExample.nilAccountKey 7 = r.
Proof.
  intros r. split; [reflexivity|].
  apply (Insert_nil_account Z 0 Z.add Z 0 ReportExample.Ancestors r
           ReportExample.nilAccountKey 7).
  reflexivity.
Defined.

Example Insert_example :
  report.AL (report.Insert Z 0 Z.add Z 0 ReportExample.Ancestors
               (report.NewReport Z Z 0 (mkPartition witnessPeriod Monthly []))
               (ReportExample.valued ReportExample.accA) 50)
  = report.mkNode None
      [(ReportExample.accA, ReportExample.leaf ReportExample.accA 50 0)] [] 0.
Proof. vm_compute. reflexivity. Qed.

(** ** Weights computed anew *)

Lemma map_eq_Forall2 {A B : Type} (f : A -> B) (l : list A) : forall l',
  map f l' = map f l -> Forall2 (fun x y => f x = f y) l' l.
Proof.
  induction l as [|x l IH]; intros [|y l'] H; cbn in H; try discriminate.
  - constructor.
  - injection H as H1 H2. constructor; [exact H1|exact (IH _ H2)].
Qed.

Section ReportWeightsAnew.

Variable decimal : Type.
Variable dzero : decimal.
Variable dadd : decimal -> decimal -> decimal.
Variable dabs : decimal -> decimal.
Variable float64 : Type.
Variable fzero : float64.
Variable fadd fsub : float64 -> float64 -> float64.
Variable toFloat64 : decimal -> float64.
Context {float64_Ordered : compare.Ordered float64}.

Let Node := report.Node decimal float64.
Let erase : Node -> Node := eraseWeights decimal float64 fzero.
Let named : Node -> Prop := childrenNamed decimal float64.
Let weq : Node -> Prop :=
  weightEq decimal dzero dadd dabs float64 fzero fadd fsub toFloat64.

Lemma eraseWeights_inv a cs am w a' cs' am' w' :
  erase (report.mkNode a' cs' am' w')
  = erase (report.mkNode a cs am w) ->
  a' = a /\ am' = am
  /\ Forall2 (fun x y : model.Account * Node =>
                fst x = fst y /\ erase (snd x) = erase (snd y))
       cs' cs.
Proof.
  unfold erase. cbn [eraseWeights report.Account
    report.children report.Amounts_].
  intros H. injection H as H1 H2 H3. split; [exact H1|]. split; [exact H3|].
  apply map_eq_Forall2 in H2.
  eapply Forall2_impl; [|exact H2]. cbn beta.
  intros x y E. injection E as E1 E2. split; assumption.
Qed.

Lemma eraseWeights_Account (n m : Node) :
  erase m = erase n -> report.Account m = report.Account n.
Proof.
  destruct n, m. intros H. apply eraseWeights_inv in H. apply H.
Qed.

Lemma childrenNamed_intro a cs am w :
  Forall (fun kv : model.Account * Node => report.Account (snd kv) <> None)
    cs ->
  Forall (fun kv : model.Account * Node => named (snd kv)) cs ->
  named (report.mkNode a cs am w).
Proof.
  unfold named, childrenNamed.
  cbn [report.nodes report.children]. intros H1 H2.
  constructor; [exact H1|]. clear H1.
  induction H2 as [|kv cs Hkv _ IH]; [constructor|].
  cbn [flat_map]. apply Forall_app. split; assumption.
Qed.

Lemma childrenNamed_erased : forall n m : Node,
  erase m = erase n -> named n -> named m.
Proof.
  induction n as [a cs am w IH] using Node_children_ind.
  intros [a' cs' am' w'] E Hn.
  apply eraseWeights_inv in E as (_ & _ & E).
  apply childrenNamed_inv in Hn as [H1 H2].
  apply childrenNamed_intro.
  - clear IH H2. induction E as [|x y cs' cs [_ Exy] _ IHE];
      [constructor|].
    apply Forall_cons_iff in H1 as [H1 H1'].
    constructor; [|exact (IHE H1')].
    rewrite (eraseWeights_Account _ _ Exy). exact H1.
  - clear H1. induction E as [|x y cs' cs [_ Exy] _ IHE]; [constructor|].
    apply Forall_cons_iff in H2 as [H2 H2'].
    apply Forall_cons_iff in IH as [IH IH'].
    constructor; [exact (IH _ Exy H2)|exact (IHE IH' H2')].
Qed.

(** The weights of a tree are fixed by its accounts, amounts and shape. *)
Lemma weightEq_unique : forall n m : Node,
  erase m = erase n ->
  Forall weq (report.nodes n) -> Forall weq (report.nodes m) ->
  m = n.
Proof.
  induction n as [a cs am w IH] using Node_children_ind.
  intros [a' cs' am' w'] E Hn Hm.
  apply eraseWeights_inv in E as (-> & -> & E).
  cbn [report.nodes report.children] in Hn, Hm.
  apply Forall_cons_iff in Hn as [Hw Hn].
  apply Forall_cons_iff in Hm as [Hw' Hm].
  assert (Hcs : cs' = cs).
  { clear Hw Hw'. induction E as [|x y cs' cs [Ef Exy] _ IHE];
      [reflexivity|].
    cbn [flat_map] in Hn, Hm.
    apply Forall_app in Hn as [Hn Hn'].
    apply Forall_app in Hm as [Hm Hm'].
    apply Forall_cons_iff in IH as [IH IH'].
    f_equal; [|exact (IHE IH' Hn' Hm')].
    destruct x as [kx nx], y as [ky ny]. cbn [fst snd] in *.
    f_equal; [exact Ef|exact (IH _ Exy Hn Hm)]. }
  subst cs'. f_equal.
  unfold weq, weightEq, ownWeight in Hw, Hw'.
  cbn [report.weight report.children report.Amounts_] in Hw, Hw'.
  congruence.
Qed.

End ReportWeightsAnew.

(** X10.  [computeWeights] does not read the weights a tree holds: on
    two trees (every child node with an account) that differ in their
    weights only it returns the same tree, and run again on its own result
    it returns that result. *)
Theorem computeWeights_ignores_old_weights
    (decimal : Type) (dzero : decimal) (dadd : decimal -> decimal -> decimal)
    (dabs : decimal -> decimal)
    (float64 : Type) (fzero : float64)
    (fadd fsub : float64 -> float64 -> float64)
    (toFloat64 : decimal -> float64)
    {float64_Ordered : compare.Ordered float64}
    (n m : report.Node decimal float64) :
  let computeWeights :=
    report.computeWeights decimal dzero dadd dabs float64 fzero fadd fsub
      toFloat64 in
  childrenNamed decimal float64 n ->
  eraseWeights decimal float64 fzero m = eraseWeights decimal float64 fzero n ->
  exists n',
    computeWeights n = Returns n'
    /\ computeWeights m = Returns n'
    /\ computeWeights n' = Returns n'.
Proof.
  intros computeWeights Hn E.
  destruct (computeWeights_returns decimal dzero dadd dabs float64 fzero
              fadd fsub toFloat64 n Hn) as [n' Hn'].
  pose proof (computeWeights_weighted _ _ _ _ _ _ _ _ _ _ _ Hn') as [W1 E1].
  assert (Hagain : forall k,
            eraseWeights decimal float64 fzero k
            = eraseWeights decimal float64 fzero n ->
            computeWeights k = Returns n').
  { intros k Ek.
    destruct (computeWeights_returns decimal dzero dadd dabs float64 fzero
                fadd fsub toFloat64 k) as [k' Hk'].
    - apply (childrenNamed_erased decimal float64 fzero n k Ek Hn).
    - pose proof (computeWeights_weighted _ _ _ _ _ _ _ _ _ _ _ Hk')
        as [W2 E2].
      unfold computeWeights. rewrite Hk'. f_equal.
      apply (weightEq_unique decimal dzero dadd dabs float64 fzero fadd fsub
               toFloat64 n' k'); [congruence|exact W1|exact W2]. }
  exists n'. split; [exact Hn'|]. split; [exact (Hagain m E)|].
  exact (Hagain n' E1).
Qed.

Lemma computeWeights_ignores_old_weights_witness :
  exists n',
    ReportExample.computeWeights (ReportExample.root 0 0) = Returns n'
    /\ ReportExample.computeWeights (ReportExample.root (-7) 3) = Returns n'
    /\ ReportExample.computeWeights n' = Returns n'.
Proof.
  apply (computeWeights_ignores_old_weights Z 0 Z.add Z.abs Z 0 Z.add Z.sub
           (fun d => d) (ReportExample.root 0 0) (ReportExample.root (-7) 3)).
  - repeat constructor; discriminate.
  - reflexivity.
Defined.
(** ** The journal parser on concrete texts *)

Module ParserExample.

(** A context that interns every name as itself. *)
Definition GetAccount (s : string) : parser.res string := parser.Ok s.
Definition GetCommodity (s : string) : parser.res string := parser.Ok s.

Definition nl : string := String (ascii_of_nat 10) "".

Definition parseAddons : parser.M (parser.addon string string) :=
  parser.parseAddons string string GetAccount GetCommodity.

Definition twoAccruals : string :=
  ("@accrue daily 2023-01-01 2023-12-31 B" ++ nl
   ++ "@accrue monthly 2024-01-01 2024-12-31 C")%string.

Definition twoPerformances : string :=
  ("@performance(USD)" ++ nl ++ "@performance(CHF)")%string.

(** What a function returned, without the parser state. *)
Definition value {A : Type} (o : outcome (parser.res A * parser.Parser))
  : outcome (parser.res A) :=
  match o with
  | Returns (r, _) => Returns r
  | Panics msg => Panics msg
  | OutOfFuel => OutOfFuel
  end.

End ParserExample.

Example parseDate_valid :
  ParserExample.value (parser.parseDate (parser.NewParser "2023-05-31" ""))
  = Returns (parser.Ok (Date 2023 5 31)).
Proof. vm_compute. reflexivity. Qed.

Example parseDate_consumes_ten :
  match parser.parseDate (parser.NewParser "2023-05-31 open A" "") with
  | Returns (_, p) =>
      scanner.BytePos (scanner.Location_ (parser.scanner_ p)) = 10
  | _ => False
  end.
Proof. vm_compute. reflexivity. Qed.

Example parseDate_bad_shape :
  ParserExample.value (parser.parseDate (parser.NewParser "20205-31 x" ""))
  = Returns (parser.Err (parser.ErrTimeParse "20205-31 x")).
Proof. vm_compute. reflexivity. Qed.

Example parseDate_bad_calendar_date :
  ParserExample.value (parser.parseDate (parser.NewParser "2023-02-29 x" ""))
  = Returns (parser.Err (parser.ErrTimeParse "2023-02-29")).
Proof. vm_compute. reflexivity. Qed.

(** *** [parseDate] where ten ASCII characters are left *)

Section ReadTen.

Import utf8 scanner.

Lemma bytes_app a b : bytes (a ++ b) = (bytes a ++ bytes b)%list.
Proof.
  unfold bytes. induction a as [|c a IH]; [reflexivity|].
  cbn. f_equal. exact IH.
Qed.

Lemma bytes_length s : List.length (bytes s) = String.length s.
Proof.
  unfold bytes. rewrite length_map.
  induction s as [|c s IH]; [reflexivity|]. cbn. f_equal. exact IH.
Qed.

Lemma bytes_nonneg s : Forall (fun b => 0 <= b) (bytes s).
Proof.
  unfold bytes. apply Forall_map. apply Forall_forall. intros a _. lia.
Qed.

Lemma substring_prefix d : forall rest,
  substring 0 (String.length d) (d ++ rest) = d.
Proof.
  induction d as [|c d IH]; intros rest; cbn.
  - destruct rest; reflexivity.
  - f_equal. apply IH.
Qed.

Lemma skipn_nth_error {A : Type} (l : list A) : forall k x,
  nth_error l k = Some x -> skipn k l = x :: skipn (S k) l.
Proof.
  induction l as [|y l IH]; intros [|k] x H; cbn in *; try discriminate.
  - congruence.
  - apply IH. exact H.
Qed.

(** The scanner stands at byte [k] of the text [T]. *)
Definition positioned (T : string) (k : nat) (s : Scanner) : Prop :=
  text s = T /\ BytePos (Location_ s) = Z.of_nat k
  /\ (current s, reader s) = readRune (skipn k (bytes T)).

Lemma New_positioned T path : positioned T 0 (New T path).
Proof.
  unfold positioned, New. cbn [skipn].
  destruct (readRune (bytes T)) as [ch rest]. cbn. auto.
Qed.

Lemma Advance_positioned T k s b :
  positioned T k s -> nth_error (bytes T) k = Some b -> 0 <= b < 128 ->
  positioned T (S k) (Advance s).
Proof.
  intros (Ht & Hb & Hr) Hn Hlt.
  rewrite (skipn_nth_error _ _ _ Hn) in Hr.
  remember (skipn (S k) (bytes T)) as tl eqn:Etl.
  unfold readRune, DecodeRune in Hr.
  destruct (Z.ltb_spec b 128) as [_|]; [|lia].
  cbn [skipn] in Hr. injection Hr as Hc Hrd.
  unfold positioned, Advance. rewrite Hrd, <- Etl.
  destruct (readRune tl) as [ch rest] eqn:E.
  assert (HL : RuneLen (current s) = 1).
  { rewrite Hc. unfold RuneLen.
    destruct (Z.ltb_spec b 0); [lia|].
    destruct (Z.leb_spec b 127); [reflexivity|lia]. }
  destruct (current s =? 10); cbn; rewrite HL, Hb;
    (split; [exact Ht|split; [lia|reflexivity]]).
Qed.

Lemma readNLoop_positioned T n : forall k p,
  positioned T k (parser.scanner_ p) ->
  (forall i, (k <= i < k + n)%nat ->
     exists b, nth_error (bytes T) i = Some b /\ 0 <= b < 128) ->
  exists p',
    parser.readNLoop n p = Returns (parser.Ok tt, p')
    /\ positioned T (k + n) (parser.scanner_ p').
Proof.
  induction n as [|n IH]; intros k p Hp Hb; cbn [parser.readNLoop].
  - exists p. rewrite Nat.add_0_r. split; [reflexivity|exact Hp].
  - destruct (Hb k) as (b & Hn & Hlt); [lia|].
    unfold parser.bind at 1. unfold parser.advance at 1.
    destruct (IH (S k)
                (parser.mkParser (Advance (parser.scanner_ p))
                   (parser.startPos p))) as (p' & Hr & Hp').
    + cbn. eapply Advance_positioned; eassumption.
    + intros i Hi. apply Hb. lia.
    + exists p'. split; [exact Hr|].
      replace (k + S n)%nat with (S k + n)%nat by lia. exact Hp'.
Qed.

(** With ten ASCII characters [d] at the head of the text, [parseDate]
    consumes exactly these ten and answers what [time.Parse] makes of
    them. *)
Lemma parseDate_ten_ascii (d rest path : string) :
  String.length d = 10%nat ->
  Forall (fun b => b < 128) (bytes d) ->
  exists p',
    parser.parseDate (parser.NewParser (d ++ rest) path)
    = Returns (parser.timeParseDate d, p')
    /\ BytePos (Location_ (parser.scanner_ p')) = 10.
Proof.
  intros Hlen Hascii.
  set (T := (d ++ rest)%string).
  destruct (readNLoop_positioned T 10 0 (parser.NewParser T path))
    as (p' & Hr & (Ht & Hb & _)).
  { apply New_positioned. }
  { intros i Hi. unfold T. rewrite bytes_app.
    assert (Hi' : (i < List.length (bytes d))%nat)
      by (rewrite bytes_length; lia).
    rewrite nth_error_app1 by exact Hi'.
    destruct (nth_error (bytes d) i) as [b|] eqn:E;
      [|apply nth_error_None in E; lia].
    exists b. split; [reflexivity|].
    pose proof (bytes_nonneg d) as Hnn.
    apply nth_error_In in E. rewrite Forall_forall in Hascii, Hnn.
    split; [apply Hnn|apply Hascii]; exact E. }
  exists p'. split; [|exact Hb].
  unfold parser.parseDate, parser.ReadN.
  unfold parser.bind at 1. unfold parser.bind at 1.
  unfold parser.bytePos at 1. cbn [parser.NewParser parser.scanner_].
  replace (BytePos (Location_ (New T path))) with 0
    by (destruct (New_positioned T path) as (_ & -> & _); reflexivity).
  unfold parser.bind at 1.
  change (parser.mkParser (New T path) (mkLocation 0 0 0 0))
    with (parser.NewParser T path).
  rewrite Hr. unfold parser.sliceFrom, slice. rewrite Ht, Hb.
  assert (HT : (10 <= String.length T)%nat).
  { unfold T. rewrite <- bytes_length, bytes_app, length_app, bytes_length.
    lia. }
  change (Z.of_nat (0 + 10)) with 10.
  replace (10 <=? Z.of_nat (String.length T)) with true
    by (symmetry; apply Z.leb_le; lia).
  change (Z.to_nat (10 - 0)) with 10%nat. change (Z.to_nat 0) with 0%nat.
  cbn [Z.leb Z.compare andb].
  replace (substring 0 10 T) with d
    by (unfold T; rewrite <- Hlen; symmetry; apply substring_prefix).
  unfold parser.lift. destruct (parser.timeParseDate d); reflexivity.
Qed.

End ReadTen.

(** C8 (the code departs from the claim).  On a text shorter than ten
    characters, here the "202-05-31" of [TestParseDate], [ReadN(10)]
    advances past the end of the text, counting the EOF rune as one byte,
    and slicing the text up to byte 10 panics: [parseDate] yields neither a
    date nor a parse error. *)
Theorem parseDate_short_input_panics :
  parser.parseDate (parser.NewParser "202-05-31" "")
  = Panics "slice bounds out of range".
Proof. vm_compute. reflexivity. Qed.

(** C7 (the code departs from the claim).  With two [@accrue] annotations,
    or two [@performance] annotations, [parseAddons] reports no error: the
    second annotation replaces the first. *)
Theorem parseAddons_duplicate_overwrites :
  (exists r,
     ParserExample.value
       (ParserExample.parseAddons
          (parser.NewParser ParserExample.twoAccruals ""))
     = Returns (parser.Ok
         (parser.mkAddon string string (Some r)
            (Some (parser.mkAccrual string
                     (date.mkPeriod (Date 2024 1 1) (Date 2024 12 31))
                     Monthly "C"%string))
            None)))
  /\ (exists r,
        ParserExample.value
          (ParserExample.parseAddons
             (parser.NewParser ParserExample.twoPerformances ""))
        = Returns (parser.Ok
            (parser.mkAddon string string (Some r) None
               (Some ["CHF"%string])))).
Proof. split; eexists; vm_compute; reflexivity. Qed.

(** ** The scanner on ASCII text *)

Section ScannerAscii.

Import utf8 scanner.

Variable T : string.
Hypothesis T_ascii : Forall (fun b => b < 128) (bytes T).

(** The rune at byte [i] of an ASCII text; [EOF] past its end. *)
Definition runeAt (i : nat) : rune := nth i (bytes T) EOF.

Lemma runeAt_range i : 0 <= runeAt i < 128.
Proof.
  unfold runeAt. destruct (nth_error (bytes T) i) as [b|] eqn:E.
  - rewrite (nth_error_nth _ _ _ E). apply nth_error_In in E.
    pose proof (bytes_nonneg T) as Hnn.
    rewrite Forall_forall in T_ascii, Hnn.
    split; [apply Hnn|apply T_ascii]; exact E.
  - apply nth_error_None in E. rewrite nth_overflow by exact E.
    unfold EOF. lia.
Qed.

Lemma runeAt_end i : (String.length T <= i)%nat -> runeAt i = EOF.
Proof.
  intros H. unfold runeAt. apply nth_overflow. rewrite bytes_length. exact H.
Qed.

Lemma readRune_at k :
  readRune (skipn k (bytes T)) = (runeAt k, skipn (S k) (bytes T)).
Proof.
  unfold runeAt. destruct (nth_error (bytes T) k) as [b|] eqn:E.
  - rewrite (skipn_nth_error _ _ _ E), (nth_error_nth _ _ _ E).
    assert (Hb : b < 128).
    { apply nth_error_In in E. rewrite Forall_forall in T_ascii.
      apply T_ascii. exact E. }
    generalize (skipn (S k) (bytes T)). intros tl.
    unfold readRune, DecodeRune.
    destruct (Z.ltb_spec b 128); [reflexivity|lia].
  - apply nth_error_None in E.
    rewrite (skipn_all2 _ E), (skipn_all2 (n:=S k)) by lia.
    rewrite nth_overflow by exact E. reflexivity.
Qed.

Lemma positioned_current k s :
  positioned T k s ->
  current s = runeAt k /\ reader s = skipn (S k) (bytes T).
Proof.
  intros (_ & _ & H). rewrite readRune_at in H. injection H as -> ->.
  split; reflexivity.
Qed.

Lemma Advance_ascii k s : positioned T k s -> positioned T (S k) (Advance s).
Proof.
  intros Hp. destruct (positioned_current k s Hp) as [Hc Hr].
  destruct Hp as (Ht & Hb & _).
  unfold positioned, Advance. rewrite Hr, (readRune_at (S k)).
  assert (HL : RuneLen (current s) = 1).
  { rewrite Hc. pose proof (runeAt_range k). unfold RuneLen.
    destruct (Z.ltb_spec (runeAt k) 0); [lia|].
    destruct (Z.leb_spec (runeAt k) 127); [reflexivity|lia]. }
  destruct (current s =? 10); cbn; rewrite HL, Hb;
    (split; [exact Ht|split; [lia|reflexivity]]).
Qed.

Lemma Advance_line_column k s :
  positioned T k s ->
  Line (Location_ (Advance s))
  = (if runeAt k =? 10 then Line (Location_ s) + 1 else Line (Location_ s))
  /\ Column (Location_ (Advance s))
     = (if runeAt k =? 10 then 1 else Column (Location_ s) + 1).
Proof.
  intros Hp. destruct (positioned_current k s Hp) as [Hc _].
  unfold Advance. destruct (readRune (reader s)) as [ch rest].
  rewrite Hc. destruct (runeAt k =? 10); split; reflexivity.
Qed.

Lemma readNLoop_ascii n : forall k p,
  positioned T k (parser.scanner_ p) ->
  exists p',
    parser.readNLoop n p = Returns (parser.Ok tt, p')
    /\ positioned T (k + n) (parser.scanner_ p').
Proof.
  induction n as [|n IH]; intros k p Hp; cbn [parser.readNLoop].
  - exists p. rewrite Nat.add_0_r. split; [reflexivity|exact Hp].
  - unfold parser.bind at 1. unfold parser.advance at 1.
    destruct (IH (S k)
                (parser.mkParser (Advance (parser.scanner_ p))
                   (parser.startPos p))) as (p' & Hr & Hp').
    + cbn. apply Advance_ascii. exact Hp.
    + exists p'. split; [exact Hr|].
      replace (k + S n)%nat with (S k + n)%nat by lia. exact Hp'.
Qed.

(** A loop that advances while [cond] holds stops at the first byte
    where it does not. *)
Lemma whileLoop_stops cond : forall fuel k j p,
  positioned T k (parser.scanner_ p) ->
  (forall i, (k <= i < j)%nat -> cond (runeAt i) = true) ->
  cond (runeAt j) = false -> (k <= j)%nat -> (j - k <= fuel)%nat ->
  exists p',
    parser.whileLoop fuel cond p = Returns (parser.Ok tt, p')
    /\ positioned T j (parser.scanner_ p')
    /\ parser.startPos p' = parser.startPos p.
Proof.
  induction fuel as [|fuel IH]; intros k j p Hp Hrun Hj Hkj Hf;
    cbn [parser.whileLoop]; unfold parser.bind at 1;
    unfold parser.current_ at 1, Current;
    rewrite (proj1 (positioned_current _ _ Hp)).
  - assert (j = k) by lia. subst j. rewrite Hj.
    exists p. split; [reflexivity|]. split; [exact Hp|reflexivity].
  - destruct (Nat.eq_dec j k) as [->|Hne].
    + rewrite Hj. exists p. split; [reflexivity|].
      split; [exact Hp|reflexivity].
    + rewrite (Hrun k) by lia.
      unfold parser.bind at 1. unfold parser.advance at 1.
      destruct (IH (S k) j
                  (parser.mkParser (Advance (parser.scanner_ p))
                     (parser.startPos p))) as (p' & Hr & Hp' & Hs).
      * cbn. apply Advance_ascii. exact Hp.
      * intros i Hi. apply Hrun. lia.
      * exact Hj.
      * lia.
      * lia.
      * exists p'. split; [exact Hr|]. split; [exact Hp'|exact Hs].
Qed.

(** It goes on for ever when [cond] holds from the current byte on. *)
Lemma whileLoop_runs_on cond : forall fuel k p,
  positioned T k (parser.scanner_ p) ->
  (forall i, (k <= i)%nat -> cond (runeAt i) = true) ->
  parser.whileLoop fuel cond p = OutOfFuel.
Proof.
  induction fuel as [|fuel IH]; intros k p Hp Hrun;
    cbn [parser.whileLoop]; unfold parser.bind at 1;
    unfold parser.current_ at 1, Current;
    rewrite (proj1 (positioned_current _ _ Hp)), (Hrun k) by lia.
  - reflexivity.
  - unfold parser.bind at 1. unfold parser.advance at 1.
    apply (IH (S k)).
    + cbn. apply Advance_ascii. exact Hp.
    + intros i Hi. apply Hrun. lia.
Qed.

Lemma positioned_fuel k j s :
  positioned T k s -> (k <= j <= String.length T)%nat ->
  (j - k <= S (S (List.length (reader s))))%nat.
Proof.
  intros Hp Hj. destruct (positioned_current _ _ Hp) as [_ ->].
  rewrite length_skipn, bytes_length. lia.
Qed.

End ScannerAscii.
Section ScannerAsciiMore.

Import utf8 scanner.

Variable T : string.
Hypothesis T_ascii : Forall (fun b => b < 128) (bytes T).

Lemma stop_fuel cond k j s :
  positioned T k s ->
  (forall i, (k <= i < j)%nat -> cond (runeAt T i) = true) ->
  cond (runeAt T j) = false -> (k <= j)%nat ->
  (j - k <= S (S (List.length (reader s))))%nat.
Proof.
  intros Hp Hrun Hj Hkj.
  destruct (Nat.le_gt_cases j (String.length T)) as [Hle|Hgt].
  - apply (positioned_fuel T T_ascii k j s Hp). lia.
  - destruct (Nat.eq_dec j k) as [->|Hne]; [lia|].
    exfalso.
    assert (Hi : cond (runeAt T (Nat.max k (String.length T))) = true)
      by (apply Hrun; lia).
    rewrite (runeAt_end T) in Hi by lia.
    rewrite (runeAt_end T) in Hj by lia. congruence.
Qed.

Lemma DecodeRune_at o :
  (o < String.length T)%nat ->
  DecodeRune (skipn o (bytes T)) = Some (runeAt T o, 1%nat).
Proof.
  intros Ho. unfold runeAt.
  destruct (nth_error (bytes T) o) as [b|] eqn:E.
  2:{ apply nth_error_None in E. rewrite bytes_length in E. lia. }
  rewrite (skipn_nth_error _ _ _ E), (nth_error_nth _ _ _ E).
  assert (Hb : b < 128).
  { apply nth_error_In in E. rewrite Forall_forall in T_ascii.
    apply T_ascii. exact E. }
  unfold DecodeRune. destruct (Z.ltb_spec b 128); [reflexivity|lia].
Qed.

Lemma findLoop_ascii n : forall o res s fuel,
  positioned T o s -> (o + n <= String.length T)%nat -> (n <= fuel)%nat ->
  Line res = Line (Location_ s) -> Column res = Column (Location_ s) ->
  findLoop fuel (skipn o (bytes T)) (Z.of_nat o) (Z.of_nat (o + n)) res
  = Returns (mkLocation (BytePos res) (RunePos res)
               (Line (Location_ (Nat.iter n Advance s)))
               (Column (Location_ (Nat.iter n Advance s))), None).
Proof.
  induction n as [|n IH]; intros o res s fuel Hp Hn Hf Hl Hc.
  - rewrite Nat.add_0_r. cbn [Nat.iter nat_rect].
    destruct fuel; cbn [findLoop]; rewrite Z.ltb_irrefl;
      destruct res; cbn in *; subst; reflexivity.
  - destruct fuel as [|fuel]; [lia|]. cbn [findLoop].
    destruct (Z.ltb_spec (Z.of_nat o) (Z.of_nat (o + S n))) as [_|]; [|lia].
    rewrite DecodeRune_at by lia.
    rewrite skipn_skipn. cbn [Nat.add].
    replace (Z.of_nat o + Z.of_nat 1) with (Z.of_nat (S o)) by lia.
    replace (o + S n)%nat with (S o + n)%nat by lia.
    destruct (Advance_line_column T T_ascii o s Hp) as [HL HC].
    rewrite Nat.iter_succ_r.
    rewrite (IH (S o) _ (Advance s) fuel).
    + destruct (runeAt T o =? 10); reflexivity.
    + apply (Advance_ascii T T_ascii). exact Hp.
    + lia.
    + lia.
    + rewrite HL. destruct (runeAt T o =? 10); cbn [Line]; lia.
    + rewrite HC. destruct (runeAt T o =? 10); cbn [Column]; lia.
Qed.

End ScannerAsciiMore.

(** X11.  On ASCII text, with the scanner at byte [k]: [ReadN n] returns
    the [n] characters from byte [k] on and leaves the scanner at byte
    [k + n] when the text has that many; when fewer than [n] characters
    remain it panics with a slice out of range, and does not return an
    error. *)
Theorem ReadN_returns_or_panics (T : string) (k n : nat)
    (p : parser.Parser) :
  Forall (fun b => b < 128) (utf8.bytes T) ->
  positioned T k (parser.scanner_ p) ->
  ((k + n <= String.length T)%nat ->
     exists p',
       parser.ReadN n p = Returns (parser.Ok (substring k n T), p')
       /\ positioned T (k + n) (parser.scanner_ p'))
  /\ ((String.length T < k + n)%nat ->
      parser.ReadN n p = Panics "slice bounds out of range").
Proof.
  intros Hascii Hp.
  destruct (readNLoop_ascii T Hascii n k p Hp) as (p' & Hr & Hp').
  assert (HR : parser.ReadN n p
               = parser.sliceFrom (Z.of_nat k) p').
  { unfold parser.ReadN. unfold parser.bind at 1.
    unfold parser.bytePos at 1. destruct Hp as (_ & -> & _).
    unfold parser.bind at 1. rewrite Hr. reflexivity. }
  rewrite HR. unfold parser.sliceFrom, scanner.slice.
  pose proof Hp' as (Ht & Hb & _). rewrite Ht, Hb.
  split; intros H.
  - exists p'.
    replace ((0 <=? Z.of_nat k) && (Z.of_nat k <=? Z.of_nat (k + n))
             && (Z.of_nat (k + n) <=? Z.of_nat (String.length T)))
      with true
      by (symmetry; rewrite !andb_true_iff, !Z.leb_le; lia).
    rewrite Nat2Z.id.
    replace (Z.to_nat (Z.of_nat (k + n) - Z.of_nat k)) with n by lia.
    split; [reflexivity|exact Hp'].
  - replace (Z.of_nat (k + n) <=? Z.of_nat (String.length T)) with false
      by (symmetry; apply Z.leb_gt; lia).
    rewrite andb_false_r. reflexivity.
Qed.

Lemma ReadN_returns_or_panics_witness :
  (exists p',
     parser.ReadN 10 (parser.NewParser "2022-01-04 open" "")
     = Returns (parser.Ok "2022-01-04"%string, p')
     /\ positioned "2022-01-04 open" 10 (parser.scanner_ p'))
  /\ parser.ReadN 16 (parser.NewParser "2022-01-04 open" "")
     = Panics "slice bounds out of range".
Proof.
  split.
  - apply (ReadN_returns_or_panics "2022-01-04 open" 0 10
             (parser.NewParser "2022-01-04 open" "")).
    + vm_compute. repeat constructor.
    + vm_compute. repeat split.
    + vm_compute. repeat constructor.
  - apply (ReadN_returns_or_panics "2022-01-04 open" 0 16
             (parser.NewParser "2022-01-04 open" "")).
    + vm_compute. repeat constructor.
    + vm_compute. repeat split.
    + vm_compute. repeat constructor.
Defined.

(** X12.  On ASCII text, with the scanner at byte [k] of the text:
    [ReadWhile pred] returns the longest run of characters from byte [k]
    on that satisfy [pred] and are not the NUL character (which the
    scanner takes for the end of the text), and leaves the scanner on the
    byte after the run; it neither fails nor panics. *)
Theorem ReadWhile_longest_run (T : string) (pred : utf8.rune -> bool)
    (k j : nat) (p : parser.Parser) :
  Forall (fun b => b < 128) (utf8.bytes T) ->
  positioned T k (parser.scanner_ p) ->
  (k <= j)%nat -> (k <= String.length T)%nat ->
  (forall i, (k <= i < j)%nat ->
     pred (runeAt T i) = true /\ runeAt T i <> scanner.EOF) ->
  pred (runeAt T j) = false \/ runeAt T j = scanner.EOF ->
  exists p',
    parser.ReadWhile pred p = Returns (parser.Ok (substring k (j - k) T), p')
    /\ positioned T j (parser.scanner_ p').
Proof.
  intros Hascii Hp Hkj Hk Hrun Hj.
  set (cond := fun c => pred c && negb (c =? scanner.EOF)).
  assert (Hrun' : forall i, (k <= i < j)%nat -> cond (runeAt T i) = true).
  { intros i Hi. destruct (Hrun i Hi) as [H1 H2]. unfold cond.
    rewrite H1. cbn [andb]. apply negb_true_iff, Z.eqb_neq. exact H2. }
  assert (Hj' : cond (runeAt T j) = false).
  { unfold cond. destruct Hj as [->| ->]; [reflexivity|].
    rewrite Z.eqb_refl. apply andb_false_r. }
  assert (Hjl : (j <= String.length T)%nat).
  { destruct (Nat.le_gt_cases j (String.length T)) as [|Hgt]; [assumption|].
    exfalso. destruct (Hrun (String.length T)) as [_ H]; [lia|].
    apply H. apply runeAt_end. lia. }
  destruct (whileLoop_stops T Hascii cond
              (S (S (List.length (scanner.reader (parser.scanner_ p)))))
              k j p Hp Hrun' Hj' Hkj) as (p' & Hr & Hp' & _).
  { apply (stop_fuel T Hascii cond k j _ Hp Hrun' Hj' Hkj). }
  exists p'. split; [|exact Hp'].
  unfold parser.ReadWhile. unfold parser.bind at 1.
  unfold parser.bytePos at 1. destruct Hp as (_ & -> & _).
  unfold parser.bind at 1. unfold parser.withFuel. fold cond. rewrite Hr.
  unfold parser.sliceFrom, scanner.slice.
  destruct Hp' as (-> & -> & _).
  replace ((0 <=? Z.of_nat k) && (Z.of_nat k <=? Z.of_nat j)
           && (Z.of_nat j <=? Z.of_nat (String.length T)))
    with true
    by (symmetry; rewrite !andb_true_iff, !Z.leb_le; lia).
  rewrite Nat2Z.id.
  replace (Z.to_nat (Z.of_nat j - Z.of_nat k)) with (j - k)%nat by lia.
  reflexivity.
Qed.

Lemma ReadWhile_longest_run_witness :
  exists p',
    parser.ReadWhile utf8.IsLetter (parser.NewParser "monthly 2022" "")
    = Returns (parser.Ok "monthly"%string, p')
    /\ positioned "monthly 2022" 7 (parser.scanner_ p').
Proof.
  apply (ReadWhile_longest_run "monthly 2022" utf8.IsLetter 0 7
           (parser.NewParser "monthly 2022" "")).
  - vm_compute. repeat constructor.
  - vm_compute. repeat split.
  - lia.
  - vm_compute. repeat constructor.
  - intros i Hi.
    do 7 (destruct i as [|i]; [vm_compute; split; [reflexivity|discriminate]|]).
    lia.
  - left. reflexivity.
Defined.

(** X13.  On ASCII text, with the scanner at byte [k]: [ConsumeUntil pred]
    stops on the first character from byte [k] on that satisfies [pred];
    when no character of the rest of the text satisfies it, and the EOF
    rune does not either, the loop never ends, however many rounds it is
    given. *)
Theorem ConsumeUntil_stops_or_runs_on (T : string)
    (pred : utf8.rune -> bool) (k : nat) (p : parser.Parser) :
  Forall (fun b => b < 128) (utf8.bytes T) ->
  positioned T k (parser.scanner_ p) ->
  (forall j, (k <= j)%nat ->
     (forall i, (k <= i < j)%nat -> pred (runeAt T i) = false) ->
     pred (runeAt T j) = true ->
     exists p',
       parser.ConsumeUntil pred p = Returns (parser.Ok tt, p')
       /\ positioned T j (parser.scanner_ p'))
  /\ ((forall i, (k <= i)%nat -> pred (runeAt T i) = false) ->
      parser.ConsumeUntil pred p = OutOfFuel
      /\ forall fuel,
           parser.whileLoop fuel (fun c => negb (pred c)) p = OutOfFuel).
Proof.
  intros Hascii Hp. split.
  - intros j Hkj Hrun Hj.
    set (cond := fun c => negb (pred c)).
    assert (Hrun' : forall i, (k <= i < j)%nat -> cond (runeAt T i) = true)
      by (intros i Hi; unfold cond; rewrite (Hrun i Hi); reflexivity).
    assert (Hj' : cond (runeAt T j) = false)
      by (unfold cond; rewrite Hj; reflexivity).
    destruct (whileLoop_stops T Hascii cond
                (S (S (List.length (scanner.reader (parser.scanner_ p)))))
                k j p Hp Hrun' Hj' Hkj) as (p' & Hr & Hp' & _).
    { apply (stop_fuel T Hascii cond k j _ Hp Hrun' Hj' Hkj). }
    exists p'. split; [exact Hr|exact Hp'].
  - intros Hrun.
    assert (H : forall fuel,
              parser.whileLoop fuel (fun c => negb (pred c)) p = OutOfFuel).
    { intros fuel. apply (whileLoop_runs_on T Hascii _ fuel k p Hp).
      intros i Hi. rewrite (Hrun i Hi). reflexivity. }
    split; [apply H|exact H].
Qed.

Lemma ConsumeUntil_stops_or_runs_on_witness :
  (exists p',
     parser.ConsumeUntil parser.isNewline
       (parser.NewParser ("# a" ++ String (ascii_of_nat 10) "b") "")
     = Returns (parser.Ok tt, p')
     /\ positioned ("# a" ++ String (ascii_of_nat 10) "b") 3
          (parser.scanner_ p'))
  /\ parser.ConsumeUntil parser.isNewline (parser.NewParser "# a" "")
     = OutOfFuel.
Proof.
  split.
  - apply (ConsumeUntil_stops_or_runs_on
             ("# a" ++ String (ascii_of_nat 10) "b") parser.isNewline 0
             (parser.NewParser ("# a" ++ String (ascii_of_nat 10) "b") "")).
    + vm_compute. repeat constructor.
    + vm_compute. repeat split.
    + lia.
    + intros i Hi. do 3 (destruct i as [|i]; [reflexivity|]). lia.
    + reflexivity.
  - apply (ConsumeUntil_stops_or_runs_on "# a" parser.isNewline 0
             (parser.NewParser "# a" "")).
    + vm_compute. repeat constructor.
    + vm_compute. repeat split.
    + intros i _. do 3 (destruct i as [|i]; [reflexivity|]).
      destruct i; reflexivity.
Defined.

(** X14.  On ASCII text, [FindLocation] at a byte position within the text
    gives the line and the column at which the scanner stands after as
    many [Advance] steps from the start (it leaves BytePos and RunePos
    zero); a position beyond the length of the text is an error, and a
    position that is not positive gives line 1, column 1. *)
Theorem FindLocation_agrees_with_Advance (T path : string) (k : nat) :
  Forall (fun b => b < 128) (utf8.bytes T) ->
  (k <= String.length T)%nat ->
  let at_k := scanner.Location_ (Nat.iter k scanner.Advance
                                   (scanner.New T path)) in
  scanner.FindLocation T (Z.of_nat k)
  = Returns (scanner.mkLocation 0 0 (scanner.Line at_k)
               (scanner.Column at_k), None)
  /\ (forall pos, Z.of_nat (String.length T) < pos ->
        scanner.FindLocation T pos
        = Returns (scanner.mkLocation 0 0 1 1,
                   Some (scanner.ErrInvalidPos pos
                           (Z.of_nat (String.length T)))))
  /\ (forall pos, pos <= 0 ->
        scanner.FindLocation T pos
        = Returns (scanner.mkLocation 0 0 1 1, None)).
Proof.
  intros Hascii Hk at_k. split; [|split].
  - unfold scanner.FindLocation.
    destruct (Z.ltb_spec (Z.of_nat (String.length T)) (Z.of_nat k));
      [lia|].
    rewrite Nat2Z.id.
    apply (findLoop_ascii T Hascii k 0 (scanner.mkLocation 0 0 1 1)
             (scanner.New T path) k).
    + apply New_positioned.
    + exact Hk.
    + lia.
    + unfold scanner.New. destruct (scanner.readRune _). reflexivity.
    + unfold scanner.New. destruct (scanner.readRune _). reflexivity.
  - intros pos Hpos. unfold scanner.FindLocation.
    destruct (Z.ltb_spec (Z.of_nat (String.length T)) pos); [|lia].
    reflexivity.
  - intros pos Hpos. unfold scanner.FindLocation.
    destruct (Z.ltb_spec (Z.of_nat (String.length T)) pos); [lia|].
    destruct (Z.to_nat pos); cbn [scanner.findLoop];
      destruct (Z.ltb_spec 0 pos); try lia; reflexivity.
Qed.

Lemma FindLocation_agrees_with_Advance_witness :
  let T := ("ab" ++ String (ascii_of_nat 10) "cd")%string in
  scanner.FindLocation T 4 = Returns (scanner.mkLocation 0 0 2 2, None).
Proof.
  intros T.
  apply (FindLocation_agrees_with_Advance T "" 4).
  - vm_compute. repeat constructor.
  - vm_compute. repeat constructor.
Defined.

(** X15.  The interval names that [parseAccrual] accepts are those that
    [Interval.String] prints: an interval's name is read back as that
    interval, and a name read as an interval is the name of it. *)
Theorem parseInterval_Interval_String (i : Interval) (s : string) :
  parser.parseInterval (Interval_String i) = parser.Ok i
  /\ (parser.parseInterval s = parser.Ok i -> s = Interval_String i).
Proof.
  split; [destruct i; reflexivity|].
  unfold parser.parseInterval.
  repeat match goal with
         | |- (if String.eqb s ?c then _ else _) = _ -> _ =>
             destruct (String.eqb_spec s c) as [->|_];
             [intros [= <-]; reflexivity|]
         end.
  discriminate.
Qed.
Section ParseStringAscii.

Import utf8 scanner.

Variable T : string.
Hypothesis T_ascii : Forall (fun b => b < 128) (bytes T).
Variable str : string.
Variable k : nat.

(** Byte [i] of the text after byte [k] is byte [i] of [str]. *)
Definition agrees (i : nat) : Prop :=
  runeAt T (k + i) = nth i (bytes str) EOF.

Lemma parseStringLoop_ascii chs : forall i p,
  skipn i (bytes str) = chs -> (i <= List.length (bytes str))%nat ->
  positioned T (k + i) (parser.scanner_ p) ->
  (forall n, (i <= n < List.length (bytes str))%nat -> agrees n) ->
  exists p',
    parser.parseStringLoop str (Z.of_nat k) chs p
    = Returns (parser.Ok tt, p')
    /\ positioned T (k + List.length (bytes str)) (parser.scanner_ p').
Proof.
  induction chs as [|ch chs IH]; intros i p Hs Hil Hp Hag;
    cbn [parser.parseStringLoop].
  - exists p. split; [reflexivity|].
    apply (f_equal (@List.length _)) in Hs.
    rewrite length_skipn in Hs. cbn in Hs.
    replace (List.length (bytes str)) with i by lia. exact Hp.
  - assert (Hn : nth_error (bytes str) i = Some ch).
    { rewrite <- (firstn_skipn i (bytes str)) at 1. rewrite Hs.
      rewrite nth_error_app2 by (rewrite length_firstn; lia).
      rewrite length_firstn.
      replace (i - Nat.min i (List.length (bytes str)))%nat with 0%nat
        by lia.
      reflexivity. }
    assert (Hlt : (i < List.length (bytes str))%nat)
      by (apply nth_error_Some; congruence).
    unfold parser.bind at 1. unfold parser.current_ at 1, Current.
    rewrite (proj1 (positioned_current T T_ascii _ _ Hp)).
    pose proof (Hag i (conj (Nat.le_refl _) Hlt)) as Hi.
    unfold agrees in Hi. rewrite (nth_error_nth _ _ _ Hn) in Hi.
    rewrite Hi, Z.eqb_refl. cbn [negb].
    unfold parser.bind at 1. unfold parser.advance at 1.
    apply (IH (S i)).
    + rewrite (skipn_nth_error _ _ _ Hn) in Hs. congruence.
    + lia.
    + cbn [parser.scanner_]. rewrite Nat.add_succ_r.
      apply (Advance_ascii T T_ascii). exact Hp.
    + intros n Hn'. apply Hag. lia.
Qed.

Lemma parseStringLoop_mismatch j : forall chs i p,
  skipn i (bytes str) = chs ->
  positioned T (k + i) (parser.scanner_ p) ->
  (i <= j < List.length (bytes str))%nat ->
  (forall n, (i <= n < j)%nat -> agrees n) -> ~ agrees j ->
  (k + j <= String.length T)%nat ->
  exists p',
    parser.parseStringLoop str (Z.of_nat k) chs p
    = Returns (parser.Err (parser.ErrExpectedString str (substring k j T)),
               p')
    /\ positioned T (k + j) (parser.scanner_ p').
Proof.
  intros chs. induction chs as [|ch chs IH]; intros i p Hs Hp Hij Hag Hj Hlen.
  - apply (f_equal (@List.length _)) in Hs. rewrite length_skipn in Hs.
    cbn in Hs. lia.
  - assert (Hn : nth_error (bytes str) i = Some ch).
    { rewrite <- (firstn_skipn i (bytes str)) at 1. rewrite Hs.
      rewrite nth_error_app2 by (rewrite length_firstn; lia).
      rewrite length_firstn.
      replace (i - Nat.min i (List.length (bytes str)))%nat with 0%nat
        by lia.
      reflexivity. }
    cbn [parser.parseStringLoop].
    unfold parser.bind at 1. unfold parser.current_ at 1, Current.
    rewrite (proj1 (positioned_current T T_ascii _ _ Hp)).
    destruct (Nat.eq_dec i j) as [->|Hne].
    + assert (Hneq : (ch =? runeAt T (k + j)) = false).
      { apply Z.eqb_neq. intros E. apply Hj. unfold agrees.
        rewrite (nth_error_nth _ _ _ Hn). congruence. }
      rewrite Hneq. cbn [negb].
      unfold parser.bind at 1. unfold parser.sliceFrom at 1, slice.
      pose proof Hp as (Ht & Hb & _). rewrite Ht, Hb.
      replace ((0 <=? Z.of_nat k) && (Z.of_nat k <=? Z.of_nat (k + j))
               && (Z.of_nat (k + j) <=? Z.of_nat (String.length T)))
        with true
        by (symmetry; rewrite !andb_true_iff, !Z.leb_le; lia).
      rewrite Nat2Z.id.
      replace (Z.to_nat (Z.of_nat (k + j) - Z.of_nat k)) with j by lia.
      exists p. split; [reflexivity|exact Hp].
    + pose proof (Hag i) as Hi. unfold agrees in Hi.
      rewrite (nth_error_nth _ _ _ Hn) in Hi.
      rewrite Hi by lia. rewrite Z.eqb_refl. cbn [negb].
      unfold parser.bind at 1. unfold parser.advance at 1.
      apply (IH (S i)).
      * rewrite (skipn_nth_error _ _ _ Hn) in Hs. congruence.
      * cbn [parser.scanner_]. rewrite Nat.add_succ_r.
        apply (Advance_ascii T T_ascii). exact Hp.
      * lia.
      * intros n Hn'. apply Hag. lia.
      * exact Hj.
      * exact Hlen.
Qed.

End ParseStringAscii.

(** X16.  On ASCII text, with the scanner at byte [k] of the text:
    [ParseString str] succeeds and moves past [str] when the text goes on
    with the characters of [str]; at the first character that differs it
    stops there and fails with the error that names [str] and the part of
    it read so far. *)
Theorem ParseString_accepts_prefix (T str : string) (k : nat)
    (p : parser.Parser) :
  Forall (fun b => b < 128) (utf8.bytes T) ->
  positioned T k (parser.scanner_ p) ->
  ((forall i, (i < String.length str)%nat -> agrees T str k i) ->
     exists p',
       parser.ParseString str p = Returns (parser.Ok tt, p')
       /\ positioned T (k + String.length str) (parser.scanner_ p'))
  /\ (forall j,
        (j < String.length str)%nat -> (k + j <= String.length T)%nat ->
        (forall i, (i < j)%nat -> agrees T str k i) ->
        ~ agrees T str k j ->
        exists p',
          parser.ParseString str p
          = Returns (parser.Err
                       (parser.ErrExpectedString str (substring k j T)), p')
          /\ positioned T (k + j) (parser.scanner_ p')).
Proof.
  intros Hascii Hp.
  assert (HP : forall r,
            parser.parseStringLoop str (Z.of_nat k) (utf8.bytes str) p = r ->
            parser.ParseString str p = r).
  { intros r <-. unfold parser.ParseString. unfold parser.bind at 1.
    unfold parser.bytePos at 1. destruct Hp as (_ & -> & _). reflexivity. }
  split.
  - intros Hag.
    destruct (parseStringLoop_ascii T Hascii str k (utf8.bytes str) 0 p)
      as (p' & Hr & Hp').
    + reflexivity.
    + lia.
    + rewrite Nat.add_0_r. exact Hp.
    + intros n Hn. apply Hag. rewrite <- bytes_length. lia.
    + exists p'. split; [exact (HP _ Hr)|].
      rewrite <- bytes_length. exact Hp'.
  - intros j Hj Hlen Hag Hne.
    destruct (parseStringLoop_mismatch T Hascii str k j (utf8.bytes str) 0 p)
      as (p' & Hr & Hp').
    + reflexivity.
    + rewrite Nat.add_0_r. exact Hp.
    + rewrite bytes_length. lia.
    + intros n Hn. apply Hag. lia.
    + exact Hne.
    + exact Hlen.
    + exists p'. split; [exact (HP _ Hr)|exact Hp'].
Qed.

Lemma ParseString_accepts_prefix_witness :
  (exists p',
     parser.ParseString "accrue" (parser.NewParser "accrue monthly" "")
     = Returns (parser.Ok tt, p')
     /\ positioned "accrue monthly" 6 (parser.scanner_ p'))
  /\ (exists p',
        parser.ParseString "accrue" (parser.NewParser "account" "")
        = Returns (parser.Err (parser.ErrExpectedString "accrue" "acc"), p')
        /\ positioned "account" 3 (parser.scanner_ p')).
Proof.
  split.
  - apply (ParseString_accepts_prefix "accrue monthly" "accrue" 0
             (parser.NewParser "accrue monthly" "")).
    + vm_compute. repeat constructor.
    + vm_compute. repeat split.
    + intros i Hi. do 6 (destruct i as [|i]; [reflexivity|]).
      cbn in Hi. lia.
  - assert (Ha : Forall (fun b => b < 128) (utf8.bytes "account"))
      by (vm_compute; repeat constructor).
    assert (Hp : positioned "account" 0
                   (parser.scanner_ (parser.NewParser "account" "")))
      by (vm_compute; repeat split).
    apply (proj2 (ParseString_accepts_prefix "account" "accrue" 0
                    (parser.NewParser "account" "") Ha Hp) 3%nat).
    + cbn. lia.
    + cbn. lia.
    + intros i Hi. do 3 (destruct i as [|i]; [reflexivity|]). lia.
    + vm_compute. discriminate.
Defined.
Section IdentifierAscii.

Import utf8 scanner.

Lemma ofBytes_bytes s : ofBytes (bytes s) = s.
Proof.
  unfold ofBytes, bytes. rewrite map_map.
  rewrite <- (string_of_list_ascii_of_string s) at 2. f_equal.
  rewrite <- (map_id (list_ascii_of_string s)) at 2.
  apply map_ext. intros a. rewrite N2Z.id. apply ascii_N_embedding.
Qed.

Lemma bytes_substring s : forall k n,
  bytes (substring k n s) = firstn n (skipn k (bytes s)).
Proof.
  induction s as [|c s IH]; intros k n.
  - destruct k, n; reflexivity.
  - destruct k as [|k].
    + destruct n as [|n]; [reflexivity|].
      cbn [substring skipn]. change (bytes (String c s))
        with (Z.of_N (N_of_ascii c) :: bytes s).
      change (bytes (String c (substring 0 n s)))
        with (Z.of_N (N_of_ascii c) :: bytes (substring 0 n s)).
      cbn [firstn]. f_equal. apply (IH 0%nat n).
    + cbn [substring]. change (bytes (String c s))
        with (Z.of_N (N_of_ascii c) :: bytes s).
      cbn [skipn]. apply IH.
Qed.

Variable T : string.
Hypothesis T_ascii : Forall (fun b => b < 128) (bytes T).

Lemma EncodeRune_ascii i : EncodeRune (runeAt T i) = [runeAt T i].
Proof.
  pose proof (runeAt_range T T_ascii i) as H. unfold EncodeRune, RuneLen.
  destruct (Z.ltb_spec (runeAt T i) 0); [lia|].
  destruct (Z.leb_spec (runeAt T i) 127); [|lia].
  cbn. destruct (Z.leb_spec (runeAt T i) 127); [reflexivity|lia].
Qed.

Lemma firstn_snoc_runeAt k n :
  (k + n < String.length T)%nat ->
  (firstn n (skipn k (bytes T)) ++ [runeAt T (k + n)])%list
  = firstn (S n) (skipn k (bytes T)).
Proof.
  intros H. symmetry. apply firstn_S_nth_error.
  rewrite nth_error_skipn. unfold runeAt.
  destruct (nth_error (bytes T) (k + n)) as [b|] eqn:E.
  - rewrite (nth_error_nth _ _ _ E). reflexivity.
  - apply nth_error_None in E. rewrite bytes_length in E. lia.
Qed.

Definition identCond (c : rune) : bool := IsLetter c || IsDigit c.

Lemma identCond_EOF : identCond EOF = false.
Proof. reflexivity. Qed.

Lemma identifierLoop_ascii j : forall fuel i p,
  positioned T i (parser.scanner_ p) ->
  forall k, (k <= i <= j)%nat ->
  (forall n, (i <= n < j)%nat -> identCond (runeAt T n) = true) ->
  identCond (runeAt T j) = false -> (j - i <= fuel)%nat ->
  exists p',
    parser.identifierLoop fuel (firstn (i - k) (skipn k (bytes T))) p
    = Returns (parser.Ok (substring k (j - k) T), p')
    /\ positioned T j (parser.scanner_ p').
Proof.
  assert (Hjl : forall i, (i <= j)%nat ->
            (forall n, (i <= n < j)%nat -> identCond (runeAt T n) = true) ->
            (j <= Nat.max i (String.length T))%nat).
  { intros i Hi Hrun.
    destruct (Nat.le_gt_cases j (Nat.max i (String.length T))) as [|Hgt];
      [assumption|].
    exfalso.
    assert (H : identCond (runeAt T (Nat.max i (String.length T))) = true)
      by (apply Hrun; lia).
    rewrite (runeAt_end T) in H by lia. discriminate. }
  induction fuel as [|fuel IH]; intros i p Hp k Hk Hrun Hj Hf;
    cbn [parser.identifierLoop]; unfold parser.bind at 1;
    unfold parser.current_ at 1, Current;
    rewrite (proj1 (positioned_current T T_ascii _ _ Hp));
    fold (identCond (runeAt T i)).
  - assert (j = i) by lia. subst j. rewrite Hj.
    exists p. split; [|exact Hp]. unfold parser.ret.
    rewrite <- bytes_substring, ofBytes_bytes. reflexivity.
  - destruct (Nat.eq_dec j i) as [->|Hne].
    + rewrite Hj. exists p. split; [|exact Hp]. unfold parser.ret.
      rewrite <- bytes_substring, ofBytes_bytes. reflexivity.
    + rewrite (Hrun i) by lia.
      unfold parser.bind at 1. unfold parser.advance at 1.
      rewrite EncodeRune_ascii.
      assert (Hil : (i < String.length T)%nat).
      { destruct (Nat.le_gt_cases (String.length T) i) as [Hge|]; [|assumption].
        pose proof (Hrun i ltac:(lia)) as H.
        rewrite (runeAt_end T) in H by lia. discriminate. }
      replace (runeAt T i) with (runeAt T (k + (i - k)))
        by (f_equal; lia).
      rewrite firstn_snoc_runeAt by lia.
      replace (S (i - k)) with (S i - k)%nat by lia.
      apply (IH (S i)).
      * cbn [parser.scanner_]. apply (Advance_ascii T T_ascii). exact Hp.
      * lia.
      * intros n Hn. apply Hrun. lia.
      * exact Hj.
      * lia.
Qed.

End IdentifierAscii.

(** X19.  On ASCII text, with the scanner at byte [k]: [parseIdentifier]
    fails, without moving, when the character there is neither a letter
    nor a digit (the end of the text included); otherwise it returns the
    longest run of letters and digits from byte [k] on and leaves the
    scanner on the byte after it. *)
Theorem parseIdentifier_longest_run (T : string) (k j : nat)
    (p : parser.Parser) :
  Forall (fun b => b < 128) (utf8.bytes T) ->
  positioned T k (parser.scanner_ p) ->
  (identCond (runeAt T k) = false ->
     parser.parseIdentifier p
     = Returns (parser.Err (parser.ErrExpectedIdentifier (runeAt T k)), p))
  /\ ((k < j)%nat ->
      (forall i, (k <= i < j)%nat -> identCond (runeAt T i) = true) ->
      identCond (runeAt T j) = false ->
      exists p',
        parser.parseIdentifier p
        = Returns (parser.Ok (substring k (j - k) T), p')
        /\ positioned T j (parser.scanner_ p')).
Proof.
  intros Hascii Hp.
  assert (Hc : scanner.Current (parser.scanner_ p) = runeAt T k)
    by exact (proj1 (positioned_current T Hascii _ _ Hp)).
  split.
  - intros Hk. unfold parser.parseIdentifier. unfold parser.bind at 1.
    unfold parser.current_ at 1. rewrite Hc.
    fold (identCond (runeAt T k)). rewrite Hk. reflexivity.
  - intros Hkj Hrun Hj. unfold parser.parseIdentifier.
    unfold parser.bind at 1. unfold parser.current_ at 1. rewrite Hc.
    fold (identCond (runeAt T k)). rewrite (Hrun k) by lia. cbn [negb].
    unfold parser.withFuel.
    destruct (identifierLoop_ascii T Hascii j
                (S (S (List.length (scanner.reader (parser.scanner_ p)))))
                k p Hp k) as (p' & Hr & Hp').
    + lia.
    + exact Hrun.
    + exact Hj.
    + apply (stop_fuel T Hascii identCond k j _ Hp Hrun Hj). lia.
    + rewrite Nat.sub_diag in Hr. exists p'. split; [exact Hr|exact Hp'].
Qed.

Lemma parseIdentifier_longest_run_witness :
  parser.parseIdentifier (parser.NewParser "(USD)" "")
  = Returns (parser.Err (parser.ErrExpectedIdentifier 40),
             parser.NewParser "(USD)" "")
  /\ exists p',
       parser.parseIdentifier
         (parser.mkParser
            (scanner.Advance (scanner.New "(USD)" ""))
            (scanner.mkLocation 0 0 0 0))
       = Returns (parser.Ok "USD"%string, p')
       /\ positioned "(USD)" 4 (parser.scanner_ p').
Proof.
  assert (Ha : Forall (fun b => b < 128) (utf8.bytes "(USD)"))
    by (vm_compute; repeat constructor).
  split.
  - apply (parseIdentifier_longest_run "(USD)" 0 0
             (parser.NewParser "(USD)" "") Ha).
    + vm_compute. repeat split.
    + reflexivity.
  - apply (proj2 (parseIdentifier_longest_run "(USD)" 1 4
                    (parser.mkParser
                       (scanner.Advance (scanner.New "(USD)" ""))
                       (scanner.mkLocation 0 0 0 0)) Ha
                    ltac:(vm_compute; repeat split))).
    + lia.
    + intros i Hi. destruct i as [|i]; [lia|].
      do 3 (destruct i as [|i]; [reflexivity|]). lia.
    + reflexivity.
Defined.
(** ** Filters *)

(** X17.  [Not] turns [And] into [Or] and [Or] into [And] of the negated
    filters; [And] and [Or] of nested filters are those of the joined
    lists, so filters can be grouped freely; [And] of no filter allows
    everything, as [AllowAll] does, and [Or] of no filter allows
    nothing. *)
Theorem filter_And_Or_Not (T : Type) (fs gs : list (filter.Filter T))
    (t : T) :
  filter.Not (filter.And fs) t = filter.Or (map filter.Not fs) t
  /\ filter.Not (filter.Or fs) t = filter.And (map filter.Not fs) t
  /\ filter.And [filter.And fs; filter.And gs] t = filter.And (fs ++ gs) t
  /\ filter.Or [filter.Or fs; filter.Or gs] t = filter.Or (fs ++ gs) t
  /\ filter.And [] t = filter.AllowAll t
  /\ filter.Or [] t = false.
Proof.
  repeat split.
  - induction fs as [|f fs IH]; [reflexivity|].
    cbn [filter.And filter.Or map]. unfold filter.Not in *.
    destruct (f t); cbn [negb]; [exact IH|reflexivity].
  - induction fs as [|f fs IH]; [reflexivity|].
    cbn [filter.And filter.Or map]. unfold filter.Not in *.
    destruct (f t); cbn [negb]; [reflexivity|exact IH].
  - induction fs as [|f fs IH].
    + cbn. destruct (filter.And gs t); reflexivity.
    + cbn [filter.And app] in *. destruct (f t); [exact IH|reflexivity].
  - induction fs as [|f fs IH].
    + cbn. destruct (filter.Or gs t); reflexivity.
    + cbn [filter.Or app] in *. destruct (f t); [reflexivity|exact IH].
Qed.
(** ** The syntax parser on the texts of its tests *)

Module SyntaxExample.

Definition nl : string := String (ascii_of_nat 10) "".
Definition asdf : string := (nl ++ "asdf")%string.
Definition dq : string := String (ascii_of_nat 34) "".
Definition indentedInclude : string :=
  (nl ++ nl ++ nl ++ nl ++ "  include " ++ dq ++ "foo" ++ dq)%string.

End SyntaxExample.

Example syntax_parseDate_valid :
  syntax.parseDate (syntax.New "2023-05-31" "")
  = (syntax.mkDate (syntax.mkRange 0 10 "2023-05-31"), None,
     syntax.mkScanner "2023-05-31" "" 10).
Proof. vm_compute. reflexivity. Qed.

Example syntax_parseDate_short_year :
  fst (syntax.parseDate (syntax.New "202-05-31" ""))
  = (syntax.mkDate (syntax.mkRange 0 3 "202-05-31"),
     Some (syntax.mkError "while parsing the date"
             (syntax.mkRange 0 3 "202-05-31")
             (Some (syntax.mkError "unexpected character `-`, want a digit"
                      (syntax.mkRange 3 3 "202-05-31") None)))).
Proof. vm_compute. reflexivity. Qed.

Example syntax_parseDate_missing_dash :
  fst (syntax.parseDate (syntax.New "20205-31" ""))
  = (syntax.mkDate (syntax.mkRange 0 4 "20205-31"),
     Some (syntax.mkError "while parsing the date"
             (syntax.mkRange 0 4 "20205-31")
             (Some (syntax.mkError "unexpected character `5`, want `-`"
                      (syntax.mkRange 4 4 "20205-31") None)))).
Proof. vm_compute. reflexivity. Qed.

(** C6.  Parsing the text "\nasdf" yields the error "while parsing file"
    (with the empty path between backquotes) wrapping "while parsing
    directive" wrapping "while parsing the date" wrapping "unexpected
    character `a`, want a digit": four errors deep, the innermost with the
    range 1..1, and the file holds the one directive that failed, with the
    range 1..1; this whatever the rest of the directive parser does. *)
Theorem ParseFile_error_chain
    (Body : Type)
    (parseOther : syntax.Scanner ->
                  syntax.Directive Body * option syntax.Error * syntax.Scanner)
    (parseAfterDate : nat -> syntax.Date -> syntax.Scanner ->
                  syntax.Directive Body * option syntax.Error * syntax.Scanner) :
  let s := SyntaxExample.asdf in
  let chain :=
    syntax.mkError "while parsing file ``" (syntax.mkRange 0 1 s)
      (Some (syntax.mkError "while parsing directive" (syntax.mkRange 1 1 s)
         (Some (syntax.mkError "while parsing the date" (syntax.mkRange 1 1 s)
            (Some (syntax.mkError "unexpected character `a`, want a digit"
                     (syntax.mkRange 1 1 s) None)))))) in
  syntax.ParseFile Body parseOther parseAfterDate (syntax.New s "")
  = (syntax.mkFile Body (syntax.mkRange 0 1 s)
       [syntax.mkDirective Body (syntax.mkRange 1 1 s) None],
     Some chain)
  /\ syntax.depth chain = 4%nat
  /\ syntax.innermost chain
     = syntax.mkError "unexpected character `a`, want a digit"
         (syntax.mkRange 1 1 s) None.
Proof.
  intros s chain. split; [vm_compute; reflexivity|].
  split; reflexivity.
Qed.

Example ParseFile_indented_include
    (Body : Type)
    (parseOther : syntax.Scanner ->
                  syntax.Directive Body * option syntax.Error * syntax.Scanner)
    (parseAfterDate : nat -> syntax.Date -> syntax.Scanner ->
                  syntax.Directive Body * option syntax.Error * syntax.Scanner) :
  let s := SyntaxExample.indentedInclude in
  syntax.ParseFile Body parseOther parseAfterDate (syntax.New s "")
  = (syntax.mkFile Body (syntax.mkRange 0 6 s) [],
     Some (syntax.mkError "while parsing file ``" (syntax.mkRange 0 6 s)
        (Some (syntax.mkError "while reading the rest of the line"
                 (syntax.mkRange 4 6 s)
           (Some (syntax.mkError
                    ("unexpected character `i`, want `"
                     ++ SyntaxExample.nl ++ "`")
                    (syntax.mkRange 6 6 s) None)))))).
Proof. reflexivity. Qed.
